(** * Video pipeline: data contracts, segmenter, translator, orchestrator

    A shallow embedding of the JavaScript sources of the video pipeline
    (types/dataTypes.js, config/config.js, transcription/whisper.js,
    translation/translator.js and index.js) together with the properties the
    specification states about them. *)

From Stdlib Require Import QArith Qreduction Qround.
From stdpp Require Import base list strings gmap.

Close Scope Q_scope.
Open Scope nat_scope.
Set Warnings "-register-all".

(** ** JavaScript values *)

Module Js.

(** A JavaScript string is a sequence of UTF-16 code units. *)
Definition jsstring : Type := list N.

(** An ASCII literal as a JavaScript string. *)
Definition str (s : string) : jsstring :=
  map Ascii.N_of_ascii (String.list_ascii_of_string s).

(** [a === b] on strings. *)
Fixpoint streq (a b : jsstring) : bool :=
  match a, b with
  | [], [] => true
  | x :: a', y :: b' => (x =? y)%N && streq a' b'
  | _, _ => false
  end.

(** WhiteSpace and LineTerminator code units: what [String.prototype.trim]
    strips and what [\s] matches. *)
Definition isWhiteSpace (c : N) : bool :=
  ((9 <=? c) && (c <=? 13) || (c =? 32) || (c =? 160) || (c =? 5760)
   || (8192 <=? c) && (c <=? 8202) || (c =? 8232) || (c =? 8233)
   || (c =? 8239) || (c =? 8287) || (c =? 12288) || (c =? 65279))%N.

Fixpoint trimStart (s : jsstring) : jsstring :=
  match s with
  | c :: s' => if isWhiteSpace c then trimStart s' else s
  | [] => []
  end.

Definition trimEnd (s : jsstring) : jsstring := rev (trimStart (rev s)).

Definition trim (s : jsstring) : jsstring := trimEnd (trimStart s).

(** [/[А-Яа-яЁё]/]: U+0410..U+042F, U+0430..U+044F, U+0401, U+0451. *)
Definition isCyrillic (c : N) : bool :=
  ((1040 <=? c) && (c <=? 1071) || (1072 <=? c) && (c <=? 1103)
   || (c =? 1025) || (c =? 1105))%N.

(** [/[A-Za-z]/]. *)
Definition isLatin (c : N) : bool :=
  ((65 <=? c) && (c <=? 90) || (97 <=? c) && (c <=? 122))%N.

Definition CYRILLIC_REGEX_test (s : jsstring) : bool := existsb isCyrillic s.
Definition LATIN_REGEX_test (s : jsstring) : bool := existsb isLatin s.

(** Numbers: the finite values are kept as exact rationals, next to NaN and
    the two infinities.  Signed zero is not distinguished. *)
Inductive number : Type :=
| NaN
| Inf (negative : bool)
| Fin (q : Q).

Definition ofNat (n : nat) : number := Fin (inject_Z (Z.of_nat n)).

Definition Number_isNaN (n : number) : bool :=
  match n with NaN => true | _ => false end.

Definition Number_isFinite (n : number) : bool :=
  match n with Fin _ => true | _ => false end.

Definition Number_isInteger (n : number) : bool :=
  match n with
  | Fin q => (Zpos (Qden (Qred q)) =? 1)%Z
  | _ => false
  end.

(** [a < b]; every comparison with NaN is false. *)
Definition ltb (a b : number) : bool :=
  match a, b with
  | NaN, _ | _, NaN => false
  | Inf true, Inf true => false
  | Inf true, _ => true
  | _, Inf true => false
  | Inf false, _ => false
  | _, Inf false => true
  | Fin p, Fin q => negb (Qle_bool q p)
  end.

(** [a >= b]. *)
Definition geb (a b : number) : bool :=
  match a, b with
  | NaN, _ | _, NaN => false
  | _, Inf true => true
  | Inf true, _ => false
  | Inf false, _ => true
  | _, Inf false => false
  | Fin p, Fin q => Qle_bool q p
  end.

(** [a > b]. *)
Definition gtb (a b : number) : bool := ltb b a.

(** [a === b] on numbers. *)
Definition numeq (a b : number) : bool :=
  match a, b with
  | Fin p, Fin q => Qeq_bool p q
  | Inf s, Inf t => eqb s t
  | _, _ => false
  end.

Definition sub (a b : number) : number :=
  match a, b with
  | NaN, _ | _, NaN => NaN
  | Inf s, Inf t => if eqb s t then NaN else Inf s
  | Inf s, Fin _ => Inf s
  | Fin _, Inf t => Inf (negb t)
  | Fin p, Fin q => Fin (Qred (p - q))
  end.

(** [Math.max(a, b)]. *)
Definition Math_max (a b : number) : number :=
  match a, b with
  | NaN, _ | _, NaN => NaN
  | _, _ => if geb a b then a else b
  end.

Definition isDigit (c : N) : bool := ((48 <=? c) && (c <=? 57))%N.

(** The value of the leading decimal digits, with their number. *)
Fixpoint leadingDigits (acc : Z) (count : nat) (s : jsstring) : Z * nat :=
  match s with
  | c :: s' =>
      if isDigit c
      then leadingDigits (10 * acc + Z.of_N (c - 48)) (S count) s'
      else (acc, count)
  | [] => (acc, count)
  end.

(** [Number.parseInt(s, 10)]; [None] is NaN.  The result is kept as an exact
    integer (a double would round beyond 2^53 and overflow to Infinity). *)
Definition parseInt10 (s : jsstring) : option Z :=
  let s1 := trimStart s in
  let '(negative, s2) :=
    match s1 with
    | 45%N :: r => (true, r)
    | 43%N :: r => (false, r)
    | _ => (false, s1)
    end in
  let '(value, count) := leadingDigits 0 0 s2 in
  match count with
  | O => None
  | _ => Some (if negative then (- value)%Z else value)
  end.

(** Objects that are not data: members of [Object.prototype] reached through
    the prototype chain of a plain object. *)
Inductive native : Type :=
| ObjectPrototype
| ObjectFunction
| PrototypeMethod (name : jsstring).

Inductive jsval : Type :=
| JUndef
| JNull
| JBool (b : bool)
| JNum (n : number)
| JStr (s : jsstring)
| JArr (items : list jsval)
| JObj (fields : list (jsstring * jsval))
| JNative (o : native).

Inductive jstype : Type :=
| TUndefined | TObject | TBoolean | TNumber | TString | TFunction.

Definition typeof (v : jsval) : jstype :=
  match v with
  | JUndef => TUndefined
  | JNull => TObject
  | JBool _ => TBoolean
  | JNum _ => TNumber
  | JStr _ => TString
  | JArr _ | JObj _ => TObject
  | JNative ObjectPrototype => TObject
  | JNative _ => TFunction
  end.

(** [Boolean(v)]. *)
Definition truthy (v : jsval) : bool :=
  match v with
  | JUndef | JNull => false
  | JBool b => b
  | JNum NaN => false
  | JNum (Fin q) => negb (Qeq_bool q 0)
  | JNum (Inf _) => true
  | JStr s => negb (streq s [])
  | JArr _ | JObj _ | JNative _ => true
  end.

(** [!v || typeof v !== 'object'] is false. *)
Definition isObjectLike (v : jsval) : bool :=
  truthy v && match typeof v with TObject => true | _ => false end.

(** [a ?? b]. *)
Definition nullish (a b : jsval) : jsval :=
  match a with
  | JUndef | JNull => b
  | _ => a
  end.

#[global] Instance native_eq_dec : EqDecision native.
Proof. solve_decision. Defined.

(** [a === b].  Strings, numbers and booleans compare by value; two object or
    array values are separate allocations and never identical. *)
Definition strictEq (a b : jsval) : bool :=
  match a, b with
  | JUndef, JUndef | JNull, JNull => true
  | JBool x, JBool y => eqb x y
  | JNum x, JNum y => numeq x y
  | JStr x, JStr y => streq x y
  | JNative x, JNative y => bool_decide (x = y)
  | _, _ => false
  end.

(** SameValueZero, the equality of [Set] and [Map] keys: as [===], except
    that NaN equals itself. *)
Definition sameValueZero (a b : jsval) : bool :=
  match a, b with
  | JNum NaN, JNum NaN => true
  | _, _ => strictEq a b
  end.

(** [Array.from(new Set(xs))]: the first occurrence of each value, in order.
    [seen] holds the values already inserted. *)
Fixpoint setFrom (seen : list jsval) (xs : list jsval) : list jsval :=
  match xs with
  | [] => []
  | x :: xs' =>
      if existsb (sameValueZero x) seen then setFrom seen xs'
      else x :: setFrom (x :: seen) xs'
  end.

(** [a || b]. *)
Definition orElse (a b : jsval) : jsval := if truthy a then a else b.

Fixpoint lookupOwn (fs : list (jsstring * jsval)) (k : jsstring) : option jsval :=
  match fs with
  | (k', v) :: fs' => if streq k' k then Some v else lookupOwn fs' k
  | [] => None
  end.

(** The members every plain object inherits from [Object.prototype]. *)
Definition objectPrototypeMethods : list jsstring :=
  map str ["hasOwnProperty"; "isPrototypeOf"; "propertyIsEnumerable";
           "toLocaleString"; "toString"; "valueOf"; "__defineGetter__";
           "__defineSetter__"; "__lookupGetter__"; "__lookupSetter__"].

Definition inheritedFromObject (k : jsstring) : jsval :=
  if streq k (str "constructor") then JNative ObjectFunction
  else if streq k (str "__proto__") then JNative ObjectPrototype
  else if existsb (streq k) objectPrototypeMethods
       then JNative (PrototypeMethod k)
  else JUndef.

(** [o[k]] on a plain object: own properties first, then the prototype. *)
Definition getMember (fs : list (jsstring * jsval)) (k : jsstring) : jsval :=
  match lookupOwn fs k with
  | Some v => v
  | None => inheritedFromObject k
  end.

(** [v.k] for the field names the pipeline reads.  Arrays carry none of these
    names (they are neither indices, [length] nor [Array.prototype] members),
    so the read gives [undefined] there; primitives never reach a field read
    because every reader first checks [typeof v === 'object']. *)
Definition getProp (v : jsval) (k : string) : jsval :=
  match v with
  | JObj fs => getMember fs (str k)
  | _ => JUndef
  end.

(** Assignment of one property: an existing key keeps its place. *)
Fixpoint setOwn (fs : list (jsstring * jsval)) (k : jsstring) (v : jsval)
  : list (jsstring * jsval) :=
  match fs with
  | (k', v') :: fs' =>
      if streq k' k then (k', v) :: fs' else (k', v') :: setOwn fs' k v
  | [] => [(k, v)]
  end.

(** Thrown values. *)
Inductive error : Type :=
| ValidationError (message : string)
| TypeError (message : string)
| Error (message : string).

Inductive result (A : Type) : Type :=
| Ok (a : A)
| Throw (e : error).
Arguments Ok {A} a.
Arguments Throw {A} e.

Definition bind {A B} (m : result A) (k : A -> result B) : result B :=
  match m with
  | Ok a => k a
  | Throw e => Throw e
  end.

Definition isOk {A} (m : result A) : bool :=
  match m with Ok _ => true | Throw _ => false end.

(** [xs.map(f)] with a callback that may throw: the first throw wins. *)
Fixpoint mapM {A B} (f : A -> result B) (l : list A) : result (list B) :=
  match l with
  | [] => Ok []
  | x :: l' =>
      bind (f x) (fun y => bind (mapM f l') (fun ys => Ok (y :: ys)))
  end.

End Js.

Import Js.

Notation "x <- m ;; k" := (Js.bind m (fun x => k))
  (at level 100, m at next level, right associativity).
Notation "'check' c 'else' e ;; k" := (if c then k else Js.Throw e)
  (at level 100, c at next level, e at next level, right associativity).

(** Library behaviour whose full tables are not part of the repository: the
    Unicode case mapping of the code units above ASCII (which may depend on
    the text before and after, and may give several code units),
    [Number.parseFloat], and [jsonrepair] followed by [JSON.parse] ([None]
    when either throws).  Everything below is stated for an arbitrary host. *)
Record host : Type := {
  lowerNonAscii : jsstring -> N -> jsstring -> jsstring;
  upperNonAscii : jsstring -> N -> jsstring -> jsstring;
  parseFloat : jsstring -> number;
  parseRepaired : jsstring -> option jsval
}.

Definition asciiLower (c : N) : N :=
  if ((65 <=? c) && (c <=? 90))%N then (c + 32)%N else c.
Definition asciiUpper (c : N) : N :=
  if ((97 <=? c) && (c <=? 122))%N then (c - 32)%N else c.

(** A case mapping: ASCII code units map on their own, the others as the
    host says given what precedes and follows them. *)
Fixpoint caseMap (ascii : N -> N) (other : jsstring -> N -> jsstring -> jsstring)
    (before s : jsstring) : jsstring :=
  match s with
  | [] => []
  | c :: s' =>
      (if (c <? 128)%N then [ascii c] else other before c s')
      ++ caseMap ascii other (before ++ [c]) s'
  end.

(** [s.toLowerCase()] and [s.toUpperCase()]. *)
Definition toLowerCase (H : host) (s : jsstring) : jsstring :=
  caseMap asciiLower (lowerNonAscii H) [] s.
Definition toUpperCase (H : host) (s : jsstring) : jsstring :=
  caseMap asciiUpper (upperNonAscii H) [] s.

(** ** config/config.js *)

Module Config.

Definition videoTopics : list jsstring :=
  map str
    ["Business"; "Technology"; "Science"; "Health"; "Education";
     "Entertainment"; "Sports"; "Travel"; "Food"; "Fashion"; "Art"; "Music";
     "Movies"; "Gaming"; "News"; "Politics"; "History"; "Nature"; "Animals";
     "Space"; "Environment"; "Social Issues"; "Psychology"; "Philosophy";
     "Lifestyle"; "Relationships"; "Career"; "Finance"; "Motivation";
     "Comedy"; "Drama"; "Documentary"; "Tutorial"; "Review"; "Interview";
     "Vlog"; "Challenge"; "Story"; "Daily Life"; "Cooking"; "DIY"; "Beauty";
     "Fitness"; "Product"; "Unboxing"; "Comparison"; "Culture"; "Language";
     "How-to"; "Tips"; "Reaction"; "Prank"; "Experiment";
     "Behind the Scenes"].

Definition cefrLevels : list jsstring :=
  map str ["A1"; "A2"; "B1"; "B2"; "C1"; "C2"].

(** The environment variables config.js reads for the translator; [None] is
    an unset variable. *)
Record environment : Type := {
  GOOGLE_TRANSLATION_CHUNK_SIZE : option jsstring;
  GOOGLE_TRANSLATION_ATTEMPTS : option jsstring;
  GOOGLE_GEMINI_API_KEY : option jsstring;
  GOOGLE_API_KEY : option jsstring
}.

(** [process.env.X || '']. *)
Definition envOrEmpty (v : option jsstring) : jsstring :=
  match v with Some s => s | None => [] end.

(** [google.translationChunkSize]. *)
Definition translationChunkSize (env : environment) : Z :=
  match parseInt10 (envOrEmpty (GOOGLE_TRANSLATION_CHUNK_SIZE env)) with
  | None => 40
  | Some parsed => Z.max 1 parsed
  end.

(** [google.translationAttempts]. *)
Definition translationAttempts (env : environment) : Z :=
  match parseInt10 (envOrEmpty (GOOGLE_TRANSLATION_ATTEMPTS env)) with
  | None => 3
  | Some parsed => Z.max 1 parsed
  end.

(** [google.geminiApiKey]:
    [process.env.GOOGLE_GEMINI_API_KEY || process.env.GOOGLE_API_KEY || '']. *)
Definition geminiApiKey (env : environment) : jsstring :=
  match envOrEmpty (GOOGLE_GEMINI_API_KEY env) with
  | [] => envOrEmpty (GOOGLE_API_KEY env)
  | key => key
  end.

End Config.

(** ** types/dataTypes.js *)

Module DataTypes.

Section Validators.

Variable H : host.

Definition CEFR_LEVELS : list jsstring := Config.cefrLevels.
Definition SPEECH_SPEEDS : list jsstring := map str ["slow"; "normal"; "fast"].
Definition GRAMMAR_COMPLEXITIES : list jsstring :=
  map str ["simple"; "intermediate"; "complex"].
Definition VOCABULARY_COMPLEXITIES : list jsstring :=
  map str ["basic"; "intermediate"; "advanced"].
Definition EXERCISE_TYPES : list jsstring :=
  map str ["vocabulary"; "topic"; "statementCheck"].

(** [list.includes(s)] on a list of strings. *)
Definition includes (l : list jsstring) (s : jsstring) : bool :=
  existsb (streq s) l.

(** The plain object built by the [reduce] over the catalog: one own property
    per lowercased topic, the later assignment winning. *)
Definition TOPIC_LOOKUP : list (jsstring * jsval) :=
  fold_left (fun acc topic => setOwn acc (toLowerCase H topic) (JStr topic))
            Config.videoTopics [].

Definition assertString (value : jsval) (name : string) : result jsstring :=
  match value with
  | JStr s => Ok (trim s)
  | _ => Throw (ValidationError (name ++ " must be a string"))
  end.

Definition assertNumber (value : jsval) (name : string) : result number :=
  match value with
  | JNum n =>
      if Number_isNaN n
      then Throw (ValidationError (name ++ " must be a number"))
      else Ok n
  | _ => Throw (ValidationError (name ++ " must be a number"))
  end.

Definition assertArray (value : jsval) (name : string) : result (list jsval) :=
  match value with
  | JArr l => Ok l
  | _ => Throw (ValidationError (name ++ " must be an array"))
  end.

Definition assertBoolean (value : jsval) (name : string) : result bool :=
  match value with
  | JBool b => Ok b
  | _ => Throw (ValidationError (name ++ " must be a boolean"))
  end.

(** [arr[i]] on an array of known length 2. *)
Definition item (l : list jsval) (i : nat) : jsval := nth i l JUndef.

Definition normalizeTimestamp (timestamp : jsval) : result jsval :=
  arr <- assertArray timestamp "chunks[index].timestamp" ;;
  check (length arr =? 2)
    else ValidationError "chunks[index].timestamp must have exactly 2 values" ;;
  t0 <- assertNumber (item arr 0) "chunks[index].timestamp[0]" ;;
  t1 <- assertNumber (item arr 1) "chunks[index].timestamp[1]" ;;
  Ok (JArr [JNum t0; JNum t1]).

Definition validateChunk (label : string) (chunk : jsval) : result jsval :=
  check (isObjectLike chunk)
    else ValidationError (label ++ ".chunks[index] must be an object") ;;
  text <- assertString (nullish (getProp chunk "text") (JStr []))
                       (label ++ ".chunks[index].text") ;;
  timestamp <- normalizeTimestamp
    (nullish (getProp chunk "timestamp")
       (nullish (getProp chunk "time")
                (JArr [JNum (ofNat 0); JNum (ofNat 0)]))) ;;
  Ok (JObj [(str "text", JStr text); (str "timestamp", timestamp)]).

(** [view.fullText ?? view.text ?? '']. *)
Definition viewText (view : jsval) : jsval :=
  nullish (getProp view "fullText") (nullish (getProp view "text") (JStr [])).

Definition validateTranscriptionStructure (transcription : jsval)
    (label : string) : result jsval :=
  check (isObjectLike transcription)
    else ValidationError (label ++ " must be an object") ;;
  fullText <- assertString (viewText transcription) (label ++ ".fullText") ;;
  match orElse (getProp transcription "chunks") (JArr []) with
  | JArr chunksRaw =>
      chunks <- mapM (validateChunk label) chunksRaw ;;
      Ok (JObj [(str "fullText", JStr fullText); (str "text", JStr fullText);
                (str "chunks", JArr chunks)])
  | _ => Throw (TypeError "chunksRaw.map is not a function")
  end.

Definition validateTranslationStructure (translation : jsval) : result jsval :=
  validateTranscriptionStructure translation "translation".

Definition validateTranscriptionVariantsStructure
    (transcriptionVariants : jsval) (label : string) : result jsval :=
  check (isObjectLike transcriptionVariants)
    else ValidationError (label ++ " must be an object") ;;
  plain <- validateTranscriptionStructure
             (getProp transcriptionVariants "plain") (label ++ ".plain") ;;
  phrases <- validateTranscriptionStructure
             (getProp transcriptionVariants "phrases") (label ++ ".phrases") ;;
  words <- validateTranscriptionStructure
             (getProp transcriptionVariants "words") (label ++ ".words") ;;
  let baseText := getProp plain "fullText" in
  check negb (negb (strictEq (getProp phrases "fullText") baseText)
             || negb (strictEq (getProp words "fullText") baseText))
    else ValidationError (label ++ " variants must share the same fullText") ;;
  Ok (JObj [(str "plain", plain); (str "phrases", phrases);
            (str "words", words); (str "fullText", baseText)]).

Definition mapTopic (topic : jsval) : result jsval :=
  value <- assertString topic "analysis.topics[index]" ;;
  Ok (orElse (getMember TOPIC_LOOKUP (toLowerCase H value)) JNull).

Definition validateAnalysisStructure (analysis : jsval) : result jsval :=
  check (isObjectLike analysis)
    else ValidationError "analysis must be an object" ;;
  cefr <- assertString (getProp analysis "cefrLevel") "analysis.cefrLevel" ;;
  let cefrLevel := toUpperCase H cefr in
  check (includes CEFR_LEVELS cefrLevel)
    else ValidationError "analysis.cefrLevel must be one of the CEFR levels" ;;
  speed <- assertString (getProp analysis "speechSpeed")
                        "analysis.speechSpeed" ;;
  let speechSpeed := toLowerCase H speed in
  check (includes SPEECH_SPEEDS speechSpeed)
    else ValidationError "analysis.speechSpeed must be one of the speeds" ;;
  grammar <- assertString (getProp analysis "grammarComplexity")
                          "analysis.grammarComplexity" ;;
  let grammarComplexity := toLowerCase H grammar in
  check (includes GRAMMAR_COMPLEXITIES grammarComplexity)
    else ValidationError "analysis.grammarComplexity must be one of the levels" ;;
  vocabulary <- assertString (getProp analysis "vocabularyComplexity")
                             "analysis.vocabularyComplexity" ;;
  let vocabularyComplexity := toLowerCase H vocabulary in
  check (includes VOCABULARY_COMPLEXITIES vocabularyComplexity)
    else ValidationError
           "analysis.vocabularyComplexity must be one of the levels" ;;
  topicsRaw <- assertArray (getProp analysis "topics") "analysis.topics" ;;
  mapped <- mapM mapTopic topicsRaw ;;
  let topicsMapped := filter (fun v => truthy v = true) mapped in
  let topics :=
    match topicsMapped with
    | [] => map JStr (take 3 Config.videoTopics)
    | _ => take 3 (setFrom [] topicsMapped)
    end in
  let isAdultContent :=
    match getProp analysis "isAdultContent" with
    | JBool b => b
    | _ => false
    end in
  Ok (JObj [(str "cefrLevel", JStr cefrLevel);
            (str "speechSpeed", JStr speechSpeed);
            (str "grammarComplexity", JStr grammarComplexity);
            (str "vocabularyComplexity", JStr vocabularyComplexity);
            (str "topics", JArr topics);
            (str "isAdultContent", JBool isAdultContent)]).

(** [options.every(option => REGEX.test(assertString(option)))]; the
    callback throws on the first element that is not a string. *)
Fixpoint everyOption (test : jsstring -> bool) (options : list jsval)
  : result bool :=
  match options with
  | [] => Ok true
  | option :: rest =>
      optionValue <- assertString option "exercise[index].options[optIdx]" ;;
      if test optionValue then everyOption test rest else Ok false
  end.

Definition validateVocabularyExercise (exercise : jsval) : result unit :=
  word <- assertString (nullish (getProp exercise "word") (JStr []))
                       "exercise[index].word" ;;
  options <- assertArray (getProp exercise "options")
                         "exercise[index].options" ;;
  check negb ((length options <? 3) || (4 <? length options))
    else ValidationError "exercise[index].options must contain 3 or 4 items" ;;
  let wordHasCyrillic := CYRILLIC_REGEX_test word in
  let wordHasLatin := LATIN_REGEX_test word in
  check negb (negb wordHasCyrillic && negb wordHasLatin)
    else ValidationError
      "exercise[index].word must contain either Cyrillic or Latin characters" ;;
  optionsAreCyrillic <- everyOption CYRILLIC_REGEX_test options ;;
  optionsAreLatin <- everyOption LATIN_REGEX_test options ;;
  check negb (wordHasLatin && negb optionsAreCyrillic)
    else ValidationError
      "exercise[index] options must be Russian when word is English" ;;
  check negb (wordHasCyrillic && negb optionsAreLatin)
    else ValidationError
      "exercise[index] options must be English when word is Russian" ;;
  Ok tt.

Definition validateNonVocabularyOptions (exercise : jsval) : result unit :=
  match getProp exercise "options" with
  | JArr options =>
      _ <- mapM (fun option =>
                   assertString option "exercise[index].options[optIdx]")
                options ;;
      Ok tt
  | _ => Throw (TypeError "exercise.options.forEach is not a function")
  end.

(** The own properties copied by [{ ...exercise }].  Only plain objects get
    as far as the spread: an array has no string [type] and is rejected
    before. *)
Definition spread (exercise : jsval) : list (jsstring * jsval) :=
  match exercise with
  | JObj fs => fs
  | _ => []
  end.

Definition setProps (fs : list (jsstring * jsval))
    (updates : list (string * jsval)) : list (jsstring * jsval) :=
  fold_left (fun acc kv => setOwn acc (str (fst kv)) (snd kv)) updates fs.

Definition validateExercise (exercise : jsval) : result jsval :=
  check (isObjectLike exercise)
    else ValidationError "exercise[index] must be an object" ;;
  type <- assertString (getProp exercise "type") "exercise[index].type" ;;
  check (includes EXERCISE_TYPES type)
    else ValidationError "exercise[index].type must be one of the types" ;;
  question <- assertString (getProp exercise "question")
                           "exercise[index].question" ;;
  check (CYRILLIC_REGEX_test question)
    else ValidationError "exercise[index].question must contain Russian text" ;;
  optionsRaw <- assertArray (getProp exercise "options")
                            "exercise[index].options" ;;
  options <- mapM (fun opt =>
                     s <- assertString opt "exercise[index].options[optIdx]" ;;
                     Ok (JStr s))
                  optionsRaw ;;
  match getProp exercise "correctAnswer" with
  | JNum correctAnswer =>
      check (Number_isInteger correctAnswer)
        else ValidationError
               "exercise[index].correctAnswer must be an integer index" ;;
      check negb (ltb correctAnswer (ofNat 0)
                  || geb correctAnswer (ofNat (length options)))
        else ValidationError "exercise[index].correctAnswer out of range" ;;
      let withOptions :=
        JObj (setProps (spread exercise) [("options", JArr options)]) in
      _ <- (if streq type (str "vocabulary")
            then validateVocabularyExercise withOptions
            else validateNonVocabularyOptions withOptions) ;;
      Ok (JObj (setProps (spread exercise)
                  [("question", JStr question); ("options", JArr options);
                   ("correctAnswer", JNum correctAnswer);
                   ("type", JStr type)]))
  | _ => Throw (ValidationError
                  "exercise[index].correctAnswer must be an integer index")
  end.

(** [normalized.filter((ex) => ex.type === t).length]. *)
Definition countType (t : string) (normalized : list jsval) : nat :=
  length (filter (fun ex => strictEq (getProp ex "type") (JStr (str t)) = true)
                 normalized).

Definition validateExercisesStructure (exercises : jsval)
  : result (list jsval) :=
  arr <- assertArray exercises "exercises" ;;
  normalized <- mapM validateExercise arr ;;
  let vocabularyCount := countType "vocabulary" normalized in
  let topicCount := countType "topic" normalized in
  let statementCount := countType "statementCheck" normalized in
  check negb ((vocabularyCount <? 3) || (4 <? vocabularyCount))
    else ValidationError "Expected 3 or 4 vocabulary exercises" ;;
  check (topicCount =? 1)
    else ValidationError "Expected exactly 1 topic exercise" ;;
  check negb (statementCount <? 1)
    else ValidationError "Expected at least 1 statementCheck exercise" ;;
  Ok normalized.

Definition validateProcessedVideo (videoData : jsval) : result jsval :=
  check (isObjectLike videoData)
    else ValidationError "videoData must be an object" ;;
  videoName <- assertString (getProp videoData "videoName")
                            "videoData.videoName" ;;
  videoUrl <- assertString (getProp videoData "videoUrl")
                           "videoData.videoUrl" ;;
  durationSeconds <-
    match getProp videoData "durationSeconds" with
    | JNull | JUndef => Ok JNull
    | d => n <- assertNumber d "videoData.durationSeconds" ;; Ok (JNum n)
    end ;;
  transcription <- validateTranscriptionVariantsStructure
    (getProp videoData "transcription") "videoData.transcription" ;;
  translation <- validateTranslationStructure
    (getProp videoData "translation") ;;
  analysis <- validateAnalysisStructure (getProp videoData "analysis") ;;
  exercises <- validateExercisesStructure (getProp videoData "exercises") ;;
  isAdultContent <-
    match getProp videoData "isAdultContent" with
    | JUndef => Ok (getProp analysis "isAdultContent")
    | b => b' <- assertBoolean b "videoData.isAdultContent" ;; Ok (JBool b')
    end ;;
  Ok (JObj [(str "videoName", JStr videoName);
            (str "videoUrl", JStr videoUrl);
            (str "durationSeconds", durationSeconds);
            (str "transcription", transcription);
            (str "translation", translation);
            (str "analysis", analysis);
            (str "exercises", JArr exercises);
            (str "isAdultContent", isAdultContent)]).

End Validators.

(** *** The exercise contract in the words of the specification *)

(** Options of an exercise: 3 or 4 non-empty strings. *)
Definition specOptions (ex : jsval) : Prop :=
  exists options : list jsstring,
    getProp ex "options" = JArr (map JStr options) /\
    (length options = 3 \/ length options = 4) /\
    Forall (fun o => o <> []) options.

(** [correctAnswer] is an integer index into the options. *)
Definition answerInRange (ex : jsval) : Prop :=
  exists (q : Q) (k : nat) (options : list jsval),
    getProp ex "correctAnswer" = JNum (Fin q) /\
    Qeq q (inject_Z (Z.of_nat k)) /\
    getProp ex "options" = JArr options /\
    k < length options.

(** Vocabulary count in {3,4}, topic count = 1, statementCheck count >= 1,
    total in {5,6}; every exercise has 3 or 4 non-empty options and an
    in-range correctAnswer. *)
Definition specExerciseSet (E : list jsval) : Prop :=
  (countType "vocabulary" E = 3 \/ countType "vocabulary" E = 4) /\
  countType "topic" E = 1 /\
  1 <= countType "statementCheck" E /\
  (length E = 5 \/ length E = 6) /\
  Forall (fun ex => specOptions ex /\ answerInRange ex) E.

(** The script of the word and the scripts of all options are disjoint: no
    option shares an alphabet with the word. *)
Definition specDisjointScripts (ex : jsval) : Prop :=
  forall (word : jsstring) (options : list jsstring),
    getProp ex "word" = JStr word ->
    getProp ex "options" = JArr (map JStr options) ->
    (LATIN_REGEX_test word = true ->
       Forall (fun o => LATIN_REGEX_test o = false) options) /\
    (CYRILLIC_REGEX_test word = true ->
       Forall (fun o => CYRILLIC_REGEX_test o = false) options).


(** *** What the validator establishes *)

(** What a topic slot can hold after the lookup and the [filter(Boolean)]: a
    catalog string, or a member inherited from [Object.prototype]. *)
Definition isTopicValue (v : jsval) : Prop :=
  (exists topic, v = JStr topic /\ topic ∈ Config.videoTopics) \/
  (exists o, v = JNative o).

(** The shape of one normalized exercise: a known type, a question with
    Cyrillic text, trimmed string options, an in-range integer answer; a
    vocabulary exercise has 3 or 4 options, none empty. *)
Definition normalizedExercise (ex : jsval) : Prop :=
  exists (type question : jsstring) (options : list jsstring),
    getProp ex "type" = JStr type /\
    includes EXERCISE_TYPES type = true /\
    getProp ex "question" = JStr question /\
    CYRILLIC_REGEX_test question = true /\
    getProp ex "options" = JArr (map JStr options) /\
    Forall (fun o => trim o = o) options /\
    answerInRange ex /\
    (type = str "vocabulary" ->
       (length options = 3 \/ length options = 4) /\
       Forall (fun o => o <> []) options).

(** The script rule of a vocabulary exercise: each option contains a letter
    of the alphabet the word is not written in. *)
Definition alignedScripts (ex : jsval) : Prop :=
  exists (word : jsstring) (options : list jsstring),
    getProp ex "word" = JStr word /\
    getProp ex "options" = JArr (map JStr options) /\
    (LATIN_REGEX_test word = true \/ CYRILLIC_REGEX_test word = true) /\
    (LATIN_REGEX_test word = true ->
       Forall (fun o => CYRILLIC_REGEX_test o = true) options) /\
    (CYRILLIC_REGEX_test word = true ->
       Forall (fun o => LATIN_REGEX_test o = true) options).

End DataTypes.

(** ** transcription/whisper.js: the segmenter *)

Module Whisper.

(** [config.transcription], the fields the segmenter reads; [None] is a
    missing field. *)
Record transcriptionConfig : Type := {
  phraseMinWords : option number;
  phraseMaxWords : option number;
  wordMinWords : option number;
  wordMaxWords : option number;
  phraseMinDurationSeconds : option number;
  phraseMaxDurationSeconds : option number;
  maxGapBetweenWordChunksSeconds : option number
}.

(** The second argument of [groupWordEntries]; [None] is [undefined] or
    [null], which [??] treats alike. *)
Record overrides : Type := {
  minWords : option number;
  maxWords : option number;
  maxGapSeconds : option number;
  minDuration : option number;
  maxDuration : option number
}.

(** A normalized word entry. *)
Record wordEntry : Type := {
  w_originalText : jsstring;
  w_text : jsstring;
  w_start : number;
  w_end : number
}.

(** A chunk [{ text, timestamp: [start, end] }]. *)
Record chunk : Type := {
  c_text : jsstring;
  c_timestamp : number * number
}.

Definition entryToJs (e : wordEntry) : jsval :=
  JObj [(str "originalText", JStr (w_originalText e));
        (str "text", JStr (w_text e));
        (str "start", JNum (w_start e)); (str "end", JNum (w_end e))].

Definition chunkToJs (c : chunk) : jsval :=
  JObj [(str "text", JStr (c_text c));
        (str "timestamp",
         JArr [JNum (fst (c_timestamp c)); JNum (snd (c_timestamp c))])].

(** [x ?? d] for an optional number. *)
Definition orDefault (x : option number) (d : number) : number :=
  match x with Some n => n | None => d end.

Definition truthyNumber (n : number) : bool := truthy (JNum n).

Definition startsWith (class : N -> bool) (s : jsstring) : bool :=
  match s with c :: _ => class c | [] => false end.

Definition endsWith (class : N -> bool) (s : jsstring) : bool :=
  match last s with Some c => class c | None => false end.

(** [[.,!?;:)\]»”]]. *)
Definition isClosing (c : N) : bool :=
  existsb (N.eqb c) [46; 44; 33; 63; 59; 58; 41; 93; 187; 8221]%N.
(** [['’]]. *)
Definition isApostrophe (c : N) : bool := existsb (N.eqb c) [39; 8217]%N.
(** [[\-–—]]. *)
Definition isDash (c : N) : bool := existsb (N.eqb c) [45; 8211; 8212]%N.
Definition isOpenParen (c : N) : bool := (c =? 40)%N.
(** [[.!?…]]. *)
Definition isSentenceEnd (c : N) : bool :=
  existsb (N.eqb c) [46; 33; 63; 8230]%N.

(** The text matches [^\s*[.,!?;:)\]»”]]. *)
Fixpoint closingAhead (s : jsstring) : bool :=
  match s with
  | [] => false
  | c :: s' => if isWhiteSpace c then closingAhead s' else isClosing c
  end.

(** [s.replace(/\s+([.,!?;:)\]»”])/g, '$1')]: every run of white space that
    a closing mark follows is removed. *)
Fixpoint dropSpaceBeforeClosing (s : jsstring) : jsstring :=
  match s with
  | [] => []
  | c :: s' =>
      if isWhiteSpace c && closingAhead s' then dropSpaceBeforeClosing s'
      else c :: dropSpaceBeforeClosing s'
  end.

(** [s.replace(/\(\s+/g, '(')]: every run of white space right after an
    opening parenthesis is removed.  [after] tells that such a run is under
    way. *)
Fixpoint dropSpaceAfterParen (after : bool) (s : jsstring) : jsstring :=
  match s with
  | [] => []
  | c :: s' =>
      if after && isWhiteSpace c then dropSpaceAfterParen true s'
      else c :: dropSpaceAfterParen (isOpenParen c) s'
  end.

(** The callback of the [reduce] in [composeChunkText]. *)
Definition composeStep (acc : jsstring) (word : wordEntry) : jsstring :=
  let source :=
    if negb (streq (w_originalText word) []) then w_originalText word
    else w_text word in
  let trimmed := trim source in
  if streq trimmed [] then acc
  else if streq acc [] then trimmed
  else if startsWith isClosing trimmed || startsWith isApostrophe trimmed
       then acc ++ trimmed
  else if endsWith isOpenParen acc || endsWith isDash acc then acc ++ trimmed
  else acc ++ [32%N] ++ trimmed.

Definition composeChunkText (words : list wordEntry) : jsstring :=
  let raw := fold_left composeStep words [] in
  trim (dropSpaceAfterParen false (dropSpaceBeforeClosing raw)).

(** [.sort((a, b) => a.start - b.start)]: a stable sort on [start]. *)
Fixpoint insertByStart (x : wordEntry) (l : list wordEntry) : list wordEntry :=
  match l with
  | [] => [x]
  | y :: l' =>
      if ltb (w_start x) (w_start y) then x :: y :: l'
      else y :: insertByStart x l'
  end.

Definition sortByStart (l : list wordEntry) : list wordEntry :=
  fold_left (fun acc x => insertByStart x acc) l [].

Section Segmenter.

Variable H : host.
Variable cfg : transcriptionConfig.

Definition PHRASE_MIN_WORDS : number :=
  Math_max (ofNat 1) (orDefault (phraseMinWords cfg) (ofNat 5)).
Definition PHRASE_MAX_WORDS : number :=
  Math_max PHRASE_MIN_WORDS (orDefault (phraseMaxWords cfg) (ofNat 9)).
Definition WORD_MIN_WORDS : number :=
  Math_max (ofNat 1) (orDefault (wordMinWords cfg) (ofNat 1)).
Definition WORD_MAX_WORDS : number :=
  Math_max WORD_MIN_WORDS (orDefault (wordMaxWords cfg) (ofNat 1)).
Definition PHRASE_MIN_DURATION : number :=
  orDefault (phraseMinDurationSeconds cfg) (Fin 1).
Definition PHRASE_MAX_DURATION : number :=
  orDefault (phraseMaxDurationSeconds cfg) (Fin (9 # 2)).
Definition MAX_GAP_BETWEEN_WORD_CHUNKS : number :=
  orDefault (maxGapBetweenWordChunksSeconds cfg) (Fin (3 # 2)).

Definition toNumber (value : jsval) (fallback : option number)
  : option number :=
  match value with
  | JNum n => if Number_isFinite n then Some n else fallback
  | JStr s =>
      if negb (streq (trim s) []) then
        let parsed := parseFloat H s in
        if Number_isFinite parsed then Some parsed else fallback
      else fallback
  | _ => fallback
  end.

(** The callback of the [map] in [normalizeWordEntries]; [None] is [null].
    [(rawText || '').trim()] is a TypeError when [rawText] is truthy and not
    a string. *)
Definition normalizeEntry (entry : jsval) : result (option wordEntry) :=
  if negb (isObjectLike entry) then Ok None
  else
    let rawText :=
      match getProp entry "originalText" with
      | JStr s => JStr s
      | _ => getProp entry "text"
      end in
    match orElse rawText (JStr []) with
    | JStr raw =>
        let text := trim raw in
        if streq text [] then Ok None
        else
          let start :=
            match toNumber (getProp entry "start") None with
            | Some n => n
            | None => match toNumber (getProp entry "startTime") None with
                      | Some n => n
                      | None => ofNat 0
                      end
            end in
          let end_ :=
            match toNumber (getProp entry "end") None with
            | Some n => n
            | None => match toNumber (getProp entry "endTime") None with
                      | Some n => n
                      | None => start
                      end
            end in
          let safeStart := if Number_isFinite start then start else ofNat 0 in
          let safeEndCandidate :=
            if Number_isFinite end_ then end_ else safeStart in
          let safeEnd :=
            if geb safeEndCandidate safeStart then safeEndCandidate
            else safeStart in
          (* [rawText ?? '']: the text is not blank, so [rawText] is [raw] *)
          Ok (Some {| w_originalText := raw; w_text := text;
                      w_start := safeStart; w_end := safeEnd |})
    | _ => Throw (TypeError "(rawText || '').trim is not a function")
    end.

(** [.filter((entry) => entry && entry.text)]. *)
Definition keepEntries (l : list (option wordEntry)) : list wordEntry :=
  omap (fun o => match o with
                 | Some e => if negb (streq (w_text e) []) then Some e else None
                 | None => None
                 end) l.

Definition normalizeWordEntries (entries : jsval) : result (list wordEntry) :=
  match entries with
  | JArr items =>
      mapped <- mapM normalizeEntry items ;;
      Ok (sortByStart (keepEntries mapped))
  | _ => Ok []
  end.

(** The parameters [groupWordEntries] derives from its overrides. *)
Record parameters : Type := {
  p_minWords : number;
  p_maxWords : number;
  p_maxGapSeconds : number;
  p_minDuration : number;
  p_maxDuration : number
}.

Definition parametersOf (o : overrides) : parameters :=
  let minW := Math_max (ofNat 1) (orDefault (minWords o) PHRASE_MIN_WORDS) in
  {| p_minWords := minW;
     p_maxWords := Math_max minW (orDefault (maxWords o) PHRASE_MAX_WORDS);
     p_maxGapSeconds := orDefault (maxGapSeconds o) MAX_GAP_BETWEEN_WORD_CHUNKS;
     p_minDuration := orDefault (minDuration o) PHRASE_MIN_DURATION;
     p_maxDuration := orDefault (maxDuration o) PHRASE_MAX_DURATION |}.

(** [buffer.reduce((acc, item) => Number.isFinite(item.end)
      ? Math.max(acc, item.end) : acc, start)]. *)
Definition bufferEndOf (buffer : list wordEntry) (start : number) : number :=
  fold_left (fun acc item =>
               if Number_isFinite (w_end item) then Math_max acc (w_end item)
               else acc)
            buffer start.

(** [buffer[0].start]; the buffer is never empty where this is read. *)
Definition bufferStartOf (buffer : list wordEntry) : number :=
  match buffer with
  | e :: _ => w_start e
  | [] => NaN
  end.

(** The chunk [flush] builds from a buffer. *)
Definition chunkOf (buffer : list wordEntry) : chunk :=
  let start := bufferStartOf buffer in
  let end_ := bufferEndOf buffer start in
  {| c_text := composeChunkText buffer;
     c_timestamp := (start, if Number_isFinite end_ then end_ else start) |}.

(** [flush()], on the state [(groups, buffer)]. *)
Definition flush (st : list chunk * list wordEntry)
  : list chunk * list wordEntry :=
  let (groups, buffer) := st in
  match buffer with
  | [] => (groups, [])
  | _ =>
      let c := chunkOf buffer in
      (if negb (streq (c_text c) []) then groups ++ [c] else groups, [])
  end.

(** Whether the [forEach] callback flushes after pushing [entry]; [buffer]
    already holds [entry] and [rest] holds the entries after it. *)
Definition flushesAfter (p : parameters) (buffer : list wordEntry)
    (entry : wordEntry) (rest : list wordEntry) : bool :=
  let next := head rest in
  let bufferStart := bufferStartOf buffer in
  let bufferEnd := bufferEndOf buffer bufferStart in
  let duration := Math_max (ofNat 0) (sub bufferEnd bufferStart) in
  let nextStart :=
    match next with
    | Some n => Some (if Number_isFinite (w_start n) then w_start n
                      else if Number_isFinite (w_end n) then w_end n
                      else bufferEnd)
    | None => None
    end in
  let gap :=
    match nextStart with
    | Some ns => Some (Math_max (ofNat 0) (sub ns bufferEnd))
    | None => None
    end in
  let reachedMaxWords := geb (ofNat (length buffer)) (p_maxWords p) in
  let endsSentence := endsWith isSentenceEnd (w_text entry) in
  let enoughWords := geb (ofNat (length buffer)) (p_minWords p) in
  let reachedMinDuration :=
    negb (truthyNumber (p_minDuration p)) || geb duration (p_minDuration p) in
  let reachedMaxDuration :=
    truthyNumber (p_maxDuration p) && geb duration (p_maxDuration p) in
  let nextWouldExceedDuration :=
    match next with
    | Some n =>
        truthyNumber (p_maxDuration p) &&
        (let nextEnd := if Number_isFinite (w_end n) then w_end n
                        else if Number_isFinite (w_start n) then w_start n
                        else bufferEnd in
         let projected := sub (Math_max bufferEnd nextEnd) bufferStart in
         gtb projected (p_maxDuration p))
    | None => false
    end in
  let breakOnGap :=
    match gap with
    | Some g => gtb g (p_maxGapSeconds p)
    | None => false
    end in
  let isLast := match rest with [] => true | _ => false end in
  breakOnGap
  || (reachedMaxWords || reachedMaxDuration
      || (nextWouldExceedDuration && reachedMinDuration)
      || (reachedMinDuration && enoughWords && endsSentence)
      || isLast).

(** The [forEach] over the normalized entries, from the state
    [(groups, buffer)]. *)
Fixpoint groupLoop (p : parameters) (st : list chunk * list wordEntry)
    (entries : list wordEntry) : list chunk * list wordEntry :=
  match entries with
  | [] => st
  | entry :: rest =>
      let st' := (fst st, snd st ++ [entry]) in
      if flushesAfter p (snd st') entry rest
      then groupLoop p (flush st') rest
      else groupLoop p st' rest
  end.

Definition groupWordEntries (entries : jsval) (o : overrides)
  : result (list chunk) :=
  normalized <- normalizeWordEntries entries ;;
  match normalized with
  | [] => Ok []
  | _ =>
      let p := parametersOf o in
      let (groups, _) := flush (groupLoop p ([], []) normalized) in
      match groups with
      | [] =>
          Ok (map (fun entry =>
                     {| c_text := w_text entry;
                        c_timestamp :=
                          (w_start entry,
                           if Number_isFinite (w_end entry) then w_end entry
                           else w_start entry) |})
                  normalized)
      | _ => Ok groups
      end
  end.

(** The buffers [flush] is called on, in order: the words of each group. *)
Fixpoint segments (p : parameters) (buffer : list wordEntry)
    (entries : list wordEntry) : list (list wordEntry) :=
  match entries with
  | [] => match buffer with [] => [] | _ => [buffer] end
  | entry :: rest =>
      let buffer' := buffer ++ [entry] in
      if flushesAfter p buffer' entry rest
      then buffer' :: segments p [] rest
      else segments p buffer' rest
  end.

(** The overrides [buildTranscriptionVariants] passes for the two views. *)
Definition phraseOverrides : overrides :=
  {| minWords := Some PHRASE_MIN_WORDS; maxWords := Some PHRASE_MAX_WORDS;
     maxGapSeconds := Some MAX_GAP_BETWEEN_WORD_CHUNKS;
     minDuration := Some PHRASE_MIN_DURATION;
     maxDuration := Some PHRASE_MAX_DURATION |}.

Definition wordOverrides : overrides :=
  {| minWords := Some WORD_MIN_WORDS; maxWords := Some WORD_MAX_WORDS;
     maxGapSeconds := Some MAX_GAP_BETWEEN_WORD_CHUNKS;
     minDuration := Some (ofNat 0);
     maxDuration := None |}.

End Segmenter.

(** [config.transcription] as config.js sets it. *)
Definition configured : transcriptionConfig :=
  {| phraseMinWords := Some (ofNat 5); phraseMaxWords := Some (ofNat 9);
     wordMinWords := Some (ofNat 1); wordMaxWords := Some (ofNat 1);
     phraseMinDurationSeconds := Some (Fin (6 # 10));
     phraseMaxDurationSeconds := Some (Fin (32 # 10));
     maxGapBetweenWordChunksSeconds := Some (Fin (7 # 10)) |}.

(** A string with a character that is not white space. *)
Definition nonBlank (s : jsstring) : bool :=
  existsb (fun c => negb (isWhiteSpace c)) s.

(** An input word entry as the transcription engine delivers it: an object
    whose text is a string that is not blank. *)
Definition isWordEntry (entry : jsval) : Prop :=
  isObjectLike entry = true /\
  exists raw,
    match getProp entry "originalText" with
    | JStr s => JStr s
    | _ => getProp entry "text"
    end = JStr raw /\
    trim raw <> [].

(** A normalized entry keeps its source text and the trimmed, non-empty
    text. *)
Definition wellFormed (e : wordEntry) : Prop :=
  w_text e = trim (w_originalText e) /\ w_text e <> [].

(** Some white space stands right before a closing mark. *)
Fixpoint spaceBeforeClosing (s : jsstring) : bool :=
  match s with
  | [] => false
  | c :: s' =>
      isWhiteSpace c && startsWith isClosing s' || spaceBeforeClosing s'
  end.

(** Some white space stands right after an opening parenthesis. *)
Fixpoint spaceAfterParen (s : jsstring) : bool :=
  match s with
  | [] => false
  | c :: s' =>
      isOpenParen c && startsWith isWhiteSpace s' || spaceAfterParen s'
  end.

End Whisper.

(** ** translation/translator.js *)

Module Translator.

Import DataTypes.

(** What one call of [model.generateContent] gives: a thrown error or the
    text of the response. *)
Inductive response : Type :=
| Rejected (message : string)
| Answered (text : jsstring).

(** One line of a batch after alignment. *)
Record line : Type := {
  l_text : jsstring;
  l_index : number
}.

Definition isQuote (c : N) : bool := existsb (N.eqb c) [34; 8220; 8221]%N.

(** What [.] does not match. *)
Definition isLineTerminator (c : N) : bool :=
  existsb (N.eqb c) [10; 13; 8232; 8233]%N.

(** [s.replace(STRIP_WRAPPING_QUOTES, '$1')]: a leading and a trailing
    double quote (ASCII or curly) around text without line terminators are
    removed. *)
Definition stripWrappingQuotes (s : jsstring) : jsstring :=
  match s with
  | q :: rest =>
      match last rest with
      | Some q' =>
          let middle := removelast rest in
          if isQuote q && isQuote q' && negb (existsb isLineTerminator middle)
          then middle else s
      | None => s
      end
  | [] => s
  end.

(** [s.replace(/\s+/g, ' ')]; [inRun] tells that the previous character was
    white space. *)
Fixpoint collapseSpaces (inRun : bool) (s : jsstring) : jsstring :=
  match s with
  | [] => []
  | c :: s' =>
      if isWhiteSpace c
      then (if inRun then collapseSpaces true s'
            else 32%N :: collapseSpaces true s')
      else c :: collapseSpaces false s'
  end.

Definition normalizeWhitespace (text : jsstring) : jsstring :=
  if streq text [] then [] else trim (collapseSpaces false text).

(** [text.match(/\[[\s\S]*\]/)]: from the first opening bracket to the last
    closing bracket after it. *)
Fixpoint fromFirstBracket (s : jsstring) : option jsstring :=
  match s with
  | [] => None
  | c :: s' => if (c =? 91)%N then Some s else fromFirstBracket s'
  end.

Fixpoint throughLastBracket (s : jsstring) : option jsstring :=
  match s with
  | [] => None
  | c :: s' =>
      match throughLastBracket s' with
      | Some r => Some (c :: r)
      | None => if (c =? 93)%N then Some [c] else None
      end
  end.

Definition matchArray (text : jsstring) : option jsstring :=
  match fromFirstBracket text with
  | Some (c :: s') =>
      match throughLastBracket s' with
      | Some r => Some (c :: r)
      | None => None
      end
  | _ => None
  end.

(** [entry.text] of a chunk of a validated view, where it is a string. *)
Definition textOf (entry : jsval) : jsstring :=
  match getProp entry "text" with
  | JStr s => s
  | _ => []
  end.

(** [chunk[index]?.text || '']. *)
Definition sourceText (chunk : list jsval) (index : nat) : jsstring :=
  match chunk !! index with
  | Some entry => textOf entry
  | None => []
  end.

(** [a || b] on strings. *)
Definition orText (a b : jsstring) : jsstring :=
  if streq a [] then b else a.

(** [!text || !text.trim()]. *)
Definition isBlank (text : jsstring) : bool :=
  streq text [] || streq (trim text) [].

Section Translation.

Variable H : host.
Variable env : Config.environment.

(** The responses of the language model, in the order of the calls. *)
Variable llm : nat -> response.

Definition DEFAULT_CHUNK_SIZE : Z :=
  let configured := Config.translationChunkSize env in
  if (configured =? 0)%Z then 60%Z else configured.

Definition MAX_ATTEMPTS : Z :=
  let configured := Config.translationAttempts env in
  if (configured =? 0)%Z then 3%Z else configured.

(** The slices [items.slice(i, i + chunkSize)] for [i = 0, chunkSize, ...]
    below [items.length]; [fuel] bounds the number of rounds. *)
Fixpoint slices {A} (fuel chunkSize : nat) (items : list A) : list (list A) :=
  match fuel with
  | O => []
  | S fuel' =>
      match items with
      | [] => []
      | _ => take chunkSize items :: slices fuel' chunkSize (drop chunkSize items)
      end
  end.

(** [chunkArray(items, chunkSize)].  The size is at least 1 wherever the
    function is called, so [items.length] rounds are enough. *)
Definition chunkArray {A} (items : list A) (chunkSize : Z) : list (list A) :=
  if (Z.of_nat (length items) <=? chunkSize)%Z then [items]
  else slices (length items) (Z.to_nat chunkSize) items.

(** [chunk.map((entry, index) => ({ index: offset + index, text }))]. *)
Definition payloadOf (offset : nat) (chunk : list jsval) : list line :=
  imap (fun index entry =>
          {| l_text := textOf entry; l_index := ofNat (offset + index) |})
       chunk.

(** A computation that calls the model: from the number of calls made so far
    to a result and the new number of calls. *)
Definition calling (A : Type) : Type := nat -> result A * nat.

Definition ret {A} (a : A) : calling A := fun n => (Ok a, n).
Definition raise {A} (e : error) : calling A := fun n => (Throw e, n).
Definition andThen {A B} (m : calling A) (k : A -> calling B) : calling B :=
  fun n => match m n with
           | (Ok a, n') => k a n'
           | (Throw e, n') => (Throw e, n')
           end.
Definition lift {A} (r : result A) : calling A := fun n => (r, n).
Definition generateContent : calling response :=
  fun n => (Ok (llm n), S n).

(** [translateSingleLineWithGemini(model, text, options)]. *)
Definition translateSingleLineWithGemini (text : jsstring) : calling jsstring :=
  if streq text [] then ret []
  else
    andThen generateContent (fun r =>
      match r with
      | Rejected _ => ret []
      | Answered t =>
          let responseText := trim t in
          if streq responseText [] then ret []
          else ret (normalizeWhitespace (trim (stripWrappingQuotes responseText)))
      end).

(** The callback of [parsed.map]: one item of the response at position
    [index]. *)
Definition normalizeItem (chunk : list jsval) (payload : list line)
    (index : nat) (item : jsval) : result line :=
  check (isObjectLike item)
    else ValidationError "Gemini translation item must be an object" ;;
  let rawText :=
    match getProp item "text" with
    | JStr s => trim s
    | _ => []
    end in
  let text := trim (stripWrappingQuotes rawText) in
  indexValue <-
    match getProp item "index" with
    | JNum (Fin q) => Ok (Fin q)
    | _ =>
        match payload !! index with
        | Some p => Ok (l_index p)
        | None => Throw (TypeError "payload[index] is undefined")
        end
    end ;;
  Ok {| l_text := orText text (sourceText chunk index);
        l_index := indexValue |}.

(** [parsed.map(...)], the callback receiving the position. *)
Fixpoint normalizeItems (chunk : list jsval) (payload : list line)
    (index : nat) (items : list jsval) : result (list line) :=
  match items with
  | [] => Ok []
  | item :: rest =>
      first <- normalizeItem chunk payload index item ;;
      others <- normalizeItems chunk payload (S index) rest ;;
      Ok (first :: others)
  end.

(** Padding with the source lines, or truncation, to the length of the
    batch. *)
Definition fitToBatch (chunk : list jsval) (payload : list line)
    (normalized : list line) : list line :=
  if length normalized <? length chunk
  then normalized
       ++ drop (length normalized)
            (imap (fun idx entry =>
                     {| l_text := textOf entry;
                        l_index := match payload !! idx with
                                   | Some p => l_index p
                                   | None => NaN
                                   end |})
                  chunk)
  else take (length chunk) normalized.

(** The first [forEach]: blank texts and indices that are not finite are
    replaced by the source line and the expected index. *)
Definition repairLine (chunk : list jsval) (payload : list line)
    (index : nat) (entry : line) : line :=
  {| l_text := if isBlank (l_text entry) then sourceText chunk index
               else l_text entry;
     l_index := if Number_isFinite (l_index entry) then l_index entry
                else match payload !! index with
                     | Some p => l_index p
                     | None => NaN
                     end |}.

(** [byIndex.get(key)]. *)
Fixpoint mapGet (m : list (number * line)) (key : number) : option line :=
  match m with
  | [] => None
  | (k, v) :: m' => if numeq k key then Some v else mapGet m' key
  end.

(** [byIndex.set(key, value)] on a key already present. *)
Fixpoint mapReplace (m : list (number * line)) (key : number) (value : line)
  : list (number * line) :=
  match m with
  | [] => []
  | (k, v) :: m' =>
      if numeq k key then (k, value) :: m'
      else (k, v) :: mapReplace m' key value
  end.

(** The second [forEach]: the first entry of each index is kept, unless it
    is blank and a later one is not. *)
Definition indexLine (byIndex : list (number * line)) (entry : line)
  : list (number * line) :=
  if Number_isFinite (l_index entry) then
    match mapGet byIndex (l_index entry) with
    | None => byIndex ++ [(l_index entry, entry)]
    | Some existing =>
        if isBlank (l_text existing) && negb (isBlank (l_text entry))
        then mapReplace byIndex (l_index entry) entry
        else byIndex
    end
  else byIndex.

(** [expectedIndices.map((expectedIndex, localIdx) => ...)]. *)
Definition alignLine (chunk : list jsval) (byIndex : list (number * line))
    (localIdx : nat) (expected : line) : line :=
  let fallbackText := sourceText chunk localIdx in
  let text :=
    match mapGet byIndex (l_index expected) with
    | Some fromMap =>
        if negb (isBlank (l_text fromMap)) then trim (l_text fromMap)
        else fallbackText
    | None => fallbackText
    end in
  {| l_text := text; l_index := l_index expected |}.

(** One round of the closing [for] loop: a line without Cyrillic letters is
    translated again on its own. *)
Definition settleLine (chunk : list jsval) (i : nat) (current : line)
  : calling line :=
  let source := sourceText chunk i in
  let text0 := orText (l_text current) source in
  if CYRILLIC_REGEX_test text0
  then ret {| l_text := normalizeWhitespace text0; l_index := l_index current |}
  else
    andThen (translateSingleLineWithGemini source) (fun retry =>
      let text1 :=
        if negb (streq retry []) && CYRILLIC_REGEX_test retry then retry
        else orText text0 source in
      ret {| l_text := normalizeWhitespace text1;
             l_index := l_index current |}).

Fixpoint settleLines (chunk : list jsval) (i : nat) (aligned : list line)
  : calling (list line) :=
  match aligned with
  | [] => ret []
  | current :: rest =>
      andThen (settleLine chunk i current) (fun first =>
      andThen (settleLines chunk (S i) rest) (fun others =>
      ret (first :: others)))
  end.

(** The body of the [try] in [translateChunkWithGemini]. *)
Definition attempt (chunk : list jsval) (offset : nat) : calling (list line) :=
  let payload := payloadOf offset chunk in
  andThen generateContent (fun r =>
    match r with
    | Rejected message => raise (Error message)
    | Answered responseText =>
        if streq responseText []
        then raise (ValidationError "Gemini translation returned empty response")
        else
          match matchArray responseText with
          | None =>
              raise (ValidationError
                       "Gemini translation did not contain JSON array")
          | Some json =>
              match parseRepaired H json with
              | None => raise (Error "jsonrepair or JSON.parse failed")
              | Some (JArr parsed) =>
                  andThen (lift (normalizeItems chunk payload 0 parsed))
                    (fun normalized =>
                       let fitted := fitToBatch chunk payload normalized in
                       let repaired := imap (repairLine chunk payload) fitted in
                       let byIndex := fold_left indexLine repaired [] in
                       let aligned := imap (alignLine chunk byIndex) payload in
                       settleLines chunk 0 aligned)
              | Some _ =>
                  raise (ValidationError
                           "Gemini translation did not return an array")
              end
          end
    end).

(** The [for] over the attempts: [remaining] attempts are left and
    [lastError] is what the previous one threw. *)
Fixpoint attempts (chunk : list jsval) (offset : nat) (remaining : nat)
    (lastError : option error) : calling (list line) :=
  match remaining with
  | O =>
      raise (match lastError with
             | Some e => e
             | None => Error "Gemini translation failed for unknown reasons"
             end)
  | S remaining' =>
      fun n =>
        match attempt chunk offset n with
        | (Ok aligned, n') => (Ok aligned, n')
        | (Throw e, n') => attempts chunk offset remaining' (Some e) n'
        end
  end.

Definition translateChunkWithGemini (chunk : list jsval) (offset : nat)
    (maxAttempts : Z) : calling (list line) :=
  attempts chunk offset (Z.to_nat maxAttempts) None.

(** [translatedTexts.forEach((item, index) => translations.push(...))]. *)
Fixpoint pushTranslations (segment : list jsval) (index : nat)
    (translated : list line) : result (list jsval) :=
  match translated with
  | [] => Ok []
  | item :: rest =>
      match segment !! index with
      | Some sourceChunk =>
          others <- pushTranslations segment (S index) rest ;;
          Ok (JObj [(str "text", JStr (normalizeWhitespace (l_text item)));
                    (str "timestamp", getProp sourceChunk "timestamp");
                    (str "sourceText", getProp sourceChunk "text")]
              :: others)
      | None => Throw (TypeError "sourceChunk is undefined")
      end
  end.

(** The [for] over the batches; [translations] is what has been pushed. *)
Fixpoint translateBatches (chunked : list (list jsval))
    (translations : list jsval) : calling (list jsval) :=
  match chunked with
  | [] => ret translations
  | segment :: rest =>
      let offset := length translations in
      andThen (translateChunkWithGemini segment offset MAX_ATTEMPTS)
        (fun translatedTexts =>
           andThen (lift (pushTranslations segment 0 translatedTexts))
             (fun pushed => translateBatches rest (translations ++ pushed)))
  end.

(** [chunks.map((chunk) => chunk.text).join(' ')]. *)
Fixpoint joinTexts (chunks : list jsval) : jsstring :=
  match chunks with
  | [] => []
  | [c] => textOf c
  | c :: rest => textOf c ++ [32%N] ++ joinTexts rest
  end.

(** [getGeminiModel()] throws when no API key is configured. *)
Definition getGeminiModel : result unit :=
  if streq (Config.geminiApiKey env) []
  then Throw (Error "Google Gemini API key is not configured.")
  else Ok tt.

(** The chunks of a view. *)
Definition chunksOf (view : jsval) : list jsval :=
  match getProp view "chunks" with
  | JArr chunks => chunks
  | _ => []
  end.

Definition translateTranscription (transcription : jsval) : calling jsval :=
  andThen (lift (validateTranscriptionStructure transcription "transcription"))
    (fun normalizedTranscription =>
       let chunks := chunksOf normalizedTranscription in
       match chunks with
       | [] =>
           lift (validateTranslationStructure
                   (JObj [(str "fullText", JStr []); (str "chunks", JArr [])]))
       | _ =>
           andThen (lift getGeminiModel) (fun _ =>
           let chunked := chunkArray chunks DEFAULT_CHUNK_SIZE in
           andThen (translateBatches chunked []) (fun translations =>
           let fullText :=
             trim (collapseSpaces false (joinTexts translations)) in
           lift (validateTranslationStructure
                   (JObj [(str "fullText", JStr fullText);
                          (str "chunks", JArr translations)]))))
       end).

End Translation.

(** The indices a batch is sent with. *)
Definition indicesOf (payload : list line) : list number :=
  map l_index payload.

(** The batch size the specification names as the default. *)
Definition specDefaultChunkSize : Z := 60.

(** A chunk as a validated view holds it: a text and a timestamp of two
    numbers that are not NaN. *)
Definition validChunk (c : jsval) : Prop :=
  exists text t0 t1,
    c = JObj [(str "text", JStr text);
              (str "timestamp", JArr [JNum t0; JNum t1])] /\
    trim text = text /\
    Number_isNaN t0 = false /\ Number_isNaN t1 = false.

(** Every response of the model holds a JSON array of objects that carry a
    finite numeric index; the array may be shorter or longer than the batch,
    the indices may be wrong and the texts missing or empty. *)
Definition answersWithObjects (H : host) (llm : nat -> response) : Prop :=
  forall n,
    exists text json parsed,
      llm n = Answered text /\ text <> [] /\
      matchArray text = Some json /\
      parseRepaired H json = Some (JArr parsed) /\
      Forall (fun item =>
                isObjectLike item = true /\
                exists q, getProp item "index" = JNum (Fin q))
             parsed.

(** A translation is aligned with a view: as many chunks, chunk by chunk
    with the same timestamp. *)
Definition aligned (view translation : jsval) : Prop :=
  length (chunksOf translation) = length (chunksOf view) /\
  map (fun c => getProp c "timestamp") (chunksOf translation)
  = map (fun c => getProp c "timestamp") (chunksOf view).


(** Without an override the chunks are cut into batches of the size the
    specification names. *)
Definition specDefaultBatches (env : Config.environment)
    (chunks : list jsval) : Prop :=
  chunkArray chunks (DEFAULT_CHUNK_SIZE env)
  = chunkArray chunks specDefaultChunkSize.

End Translator.

(** ** transcription/whisper.js: the three views *)

Module Variants.

Import DataTypes Whisper.

(** Start and end of an entry are finite and the end is not before the
    start. *)
Definition timed (e : wordEntry) : Prop :=
  exists s t, w_start e = Fin s /\ w_end e = Fin t /\ Qle s t.

(** [a.start - b.start <= 0]: the comparator of the sort does not put [b]
    before [a]. *)
Definition startsNotAfter (a b : wordEntry) : Prop :=
  ltb (w_start b) (w_start a) = false.

(** Every entry starts no later than the entries after it. *)
Fixpoint ascending (l : list wordEntry) : Prop :=
  match l with
  | [] => True
  | a :: l' => Forall (startsNotAfter a) l' /\ ascending l'
  end.

Section Views.

Variable H : host.
Variable cfg : transcriptionConfig.

(** [timestamp ? timestamp[i] : other]. *)
Definition timestampItem (timestamp : option (list jsval)) (i : nat)
    (other : jsval) : jsval :=
  match timestamp with
  | Some arr => nth i arr JUndef
  | None => other
  end.

(** The callback of the [map] in [normalizeChunksForValidation]; [None] is
    [null]. *)
Definition normalizeFallbackChunk (c : jsval) : option chunk :=
  if negb (isObjectLike c) then None
  else
    let text := match getProp c "text" with
                | JStr s => trim s
                | _ => []
                end in
    if streq text [] then None
    else
      let timestamp :=
        match getProp c "timestamp" with
        | JArr arr => Some arr
        | _ => match getProp c "time" with
               | JArr arr => Some arr
               | _ => None
               end
        end in
      let start :=
        match toNumber H (timestampItem timestamp 0 (getProp c "start"))
                (Some (ofNat 0)) with
        | Some n => n
        | None => ofNat 0
        end in
      let end_ :=
        match toNumber H (timestampItem timestamp 1 (getProp c "end"))
                (Some start) with
        | Some n => n
        | None => start
        end in
      Some {| c_text := text; c_timestamp := (start, end_) |}.

Definition normalizeChunksForValidation (chunks : jsval) : list chunk :=
  match chunks with
  | JArr items => omap normalizeFallbackChunk items
  | _ => []
  end.

Definition viewOf (safeText : jsstring) (chunks : list chunk) : jsval :=
  JObj [(str "fullText", JStr safeText); (str "text", JStr safeText);
        (str "chunks", JArr (map chunkToJs chunks))].

Definition buildTranscriptionVariants (fullText wordEntries fallbackChunks : jsval)
  : result jsval :=
  let safeText := match fullText with JStr s => trim s | _ => [] end in
  let normalizedFallback := normalizeChunksForValidation fallbackChunks in
  normalizedWordEntries <- normalizeWordEntries H wordEntries ;;
  phraseChunks <-
    match normalizedWordEntries with
    | [] => Ok normalizedFallback
    | _ => groupWordEntries H cfg (JArr (map entryToJs normalizedWordEntries))
             (phraseOverrides cfg)
    end ;;
  wordChunks <-
    match normalizedWordEntries with
    | [] => Ok normalizedFallback
    | _ => groupWordEntries H cfg (JArr (map entryToJs normalizedWordEntries))
             (wordOverrides cfg)
    end ;;
  plain <- validateTranscriptionStructure (viewOf safeText []) "transcription" ;;
  phrases <- validateTranscriptionStructure (viewOf safeText phraseChunks)
               "transcription" ;;
  words <- validateTranscriptionStructure (viewOf safeText wordChunks)
             "transcription" ;;
  Ok (JObj [(str "plain", plain); (str "phrases", phrases);
            (str "words", words)]).

End Views.

End Variants.

(** ** Sample values *)

(** * The exercise generator (src/exercises/generator.js) *)

Module Generator.

Import DataTypes.

(** What [result?.response?.text()] is after one call of
    [geminiModel.generateContent]: the call throws, the value is no string,
    or it is a string.  The prompt, which carries the transcript, the
    analysis and the attempt number, only reaches the model; the replies are
    given in the order of the calls. *)
Inductive reply : Type :=
| Refused (message : string)
| NoText
| Text (text : jsstring).

Definition EXERCISE_ATTEMPTS : nat := 2.

(** [extractJsonArray(text)]; [None] is a value that is no string. *)
Definition extractJsonArray (text : option jsstring) : result jsstring :=
  match text with
  | None => Throw (ValidationError "Model returned non-string response")
  | Some text =>
      match Translator.matchArray text with
      | Some matched => Ok matched
      | None =>
          Throw (ValidationError "No JSON array found in exercise response")
      end
  end.

Section Exercises.

Variable H : host.
Variable env : Config.environment.
Variable model : nat -> reply.

(** The body of the [try] when [n] calls have been made. *)
Definition attempt (n : nat) : result (list jsval) :=
  response <- match model n with
              | Refused message => Throw (Error message)
              | NoText => Ok None
              | Text text => Ok (Some text)
              end ;;
  rawJson <- extractJsonArray response ;;
  parsed <- match parseRepaired H rawJson with
            | Some value => Ok value
            | None => Throw (Error "jsonrepair or JSON.parse failed")
            end ;;
  validateExercisesStructure parsed.

(** The [for] over the attempts and the final [throw]. *)
Fixpoint attempts (remaining : nat) (lastError : option error) (n : nat)
  : result (list jsval) * nat :=
  match remaining with
  | O =>
      (Throw (match lastError with
              | Some e => e
              | None => Error "Failed to generate exercises"
              end), n)
  | S remaining' =>
      match attempt n with
      | Ok normalized => (Ok normalized, S n)
      | Throw e => attempts remaining' (Some e) (S n)
      end
  end.

Definition generateExercises (n : nat) : result (list jsval) * nat :=
  match Translator.getGeminiModel env with
  | Throw e => (Throw e, n)
  | Ok _ => attempts EXERCISE_ATTEMPTS None n
  end.

End Exercises.

End Generator.

(** * The text analyzer (src/analysis/textAnalyzer.js) *)

Module Analyzer.

Import DataTypes.
Import Generator.

Definition ANALYSIS_ATTEMPTS : nat := 2.

(** [text.match(/\{[\s\S]*\}/)]: from the first opening brace to the last
    closing brace after it. *)
Fixpoint fromFirstBrace (s : jsstring) : option jsstring :=
  match s with
  | [] => None
  | c :: s' => if (c =? 123)%N then Some s else fromFirstBrace s'
  end.

Fixpoint throughLastBrace (s : jsstring) : option jsstring :=
  match s with
  | [] => None
  | c :: s' =>
      match throughLastBrace s' with
      | Some r => Some (c :: r)
      | None => if (c =? 125)%N then Some [c] else None
      end
  end.

Definition matchObject (text : jsstring) : option jsstring :=
  match fromFirstBrace text with
  | Some (c :: s') =>
      match throughLastBrace s' with
      | Some r => Some (c :: r)
      | None => None
      end
  | _ => None
  end.

(** [extractJson(text)]. *)
Definition extractJson (text : option jsstring) : result jsstring :=
  match text with
  | None => Throw (ValidationError "Model returned non-string response")
  | Some text =>
      match matchObject text with
      | Some matched => Ok matched
      | None =>
          Throw (ValidationError "No JSON object found in analysis response")
      end
  end.

(** The two assignments to [parsed] before it is validated. *)
Definition withDefaults (fields : list (jsstring * jsval))
  : list (jsstring * jsval) :=
  let fields1 :=
    match getMember fields (str "topics") with
    | JArr (_ :: _) => fields
    | _ => setOwn fields (str "topics")
             (JArr (map JStr (take 3 Config.videoTopics)))
    end in
  match getMember fields1 (str "isAdultContent") with
  | JBool _ => fields1
  | _ => setOwn fields1 (str "isAdultContent") (JBool false)
  end.

Section Analysis.

Variable H : host.
Variable env : Config.environment.
Variable model : nat -> reply.

(** [JSON.parse] on a text that starts with an opening brace: the own
    properties of the object it denotes, or [None] for a SyntaxError. *)
Variable parseObject : jsstring -> option (list (jsstring * jsval)).

(** The body of the [try] when [n] calls have been made. *)
Definition attempt (n : nat) : result jsval :=
  response <- match model n with
              | Refused message => Throw (Error message)
              | NoText => Ok None
              | Text text => Ok (Some text)
              end ;;
  json <- extractJson response ;;
  parsed <- match parseObject json with
            | Some fields => Ok fields
            | None => Throw (Error "JSON.parse failed")
            end ;;
  validateAnalysisStructure H (JObj (withDefaults parsed)).

Fixpoint attempts (remaining : nat) (lastError : option error) (n : nat)
  : result jsval * nat :=
  match remaining with
  | O =>
      (Throw (match lastError with
              | Some e => e
              | None => Error "Failed to analyze text"
              end), n)
  | S remaining' =>
      match attempt n with
      | Ok normalized => (Ok normalized, S n)
      | Throw e => attempts remaining' (Some e) (S n)
      end
  end.

Definition analyzeText (n : nat) : result jsval * nat :=
  match Translator.getGeminiModel env with
  | Throw e => (Throw e, n)
  | Ok _ => attempts ANALYSIS_ATTEMPTS None n
  end.

End Analysis.

End Analyzer.

(** * The orchestrator (src/index.js) *)

Module Orchestrator.

Definition SAFE_CHARSET : jsstring :=
  str "abcdefghijklmnopqrstuvwxyzABCDEFGHIJKLMNOPQRSTUVWXYZ0123456789".

(** [generateSafeId(length)]; [bytes] is what [crypto.randomBytes(length)]
    returned.  An index outside [bytes] reads undefined, the remainder is NaN
    and the charset gives undefined there, which is appended as text. *)
Definition generateSafeId (bytes : list N) (length : nat) : jsstring :=
  flat_map
    (fun i =>
       match bytes !! i with
       | Some byte =>
           match SAFE_CHARSET
                 !! N.to_nat (byte mod N.of_nat (List.length SAFE_CHARSET)) with
           | Some c => [c]
           | None => str "undefined"
           end
       | None => str "undefined"
       end)
    (seq 0 length).

Record safeNames : Type := {
  safeBaseName : jsstring;
  safeVideoFileName : jsstring;
  safeJsonFileName : jsstring;
  transcriptionJsonFileName : jsstring
}.

(** [createSafeFileNames(videoPath)]; [extensionRaw] is
    [path.extname(videoPath)]. *)
Definition createSafeFileNames (H : host) (extensionRaw : jsstring)
    (bytes : list N) : safeNames :=
  let extension :=
    if streq extensionRaw [] then str ".mp4" else toLowerCase H extensionRaw in
  let base := generateSafeId bytes 16 in
  {| safeBaseName := base;
     safeVideoFileName := base ++ extension;
     safeJsonFileName := base ++ str ".json";
     transcriptionJsonFileName := base ++ str ".transcription.json" |}.

(** A letter or a digit of ASCII. *)
Definition isAlphanumeric (c : N) : bool :=
  ((97 <=? c) && (c <=? 122) || (65 <=? c) && (c <=? 90)
   || (48 <=? c) && (c <=? 57))%N.

(** [config.hls && config.hls.enabled] and [config.hls.includeMp4Fallback],
    as conditions. *)
Record hlsSettings : Type := {
  enabled : bool;
  includeMp4Fallback : bool
}.

(** What [prepareVideoOutputs] reads of a package. *)
Record hlsPackage : Type := {
  outputDir : jsval;
  masterPlaylistName : jsval
}.

(** The encoder and the uploader.  [generateHlsPackages] may return null;
    [uploadVideo] is given by the number of its earlier calls. *)
Record services : Type := {
  generateHlsPackages : result (option hlsPackage);
  uploadHlsDirectory : hlsPackage -> result jsval;
  uploadVideo : nat -> result jsval
}.

Inductive call : Type :=
| GenerateHls
| UploadHls
| UploadVideo.

Record outputs : Type := {
  videoUrl : jsval;
  fallbackUrl : jsval
}.

(** The [try] and its [catch]: the two URLs and the calls made. *)
Definition hlsStage (cfg : hlsSettings) (svc : services)
  : jsval * jsval * list call :=
  match generateHlsPackages svc with
  | Throw _ | Ok None => (JNull, JNull, [GenerateHls])
  | Ok (Some hlsResult) =>
      match uploadHlsDirectory svc hlsResult with
      | Throw _ => (JNull, JNull, [GenerateHls; UploadHls])
      | Ok primaryUrl =>
          if includeMp4Fallback cfg then
            match uploadVideo svc 0 with
            | Throw _ => (JNull, JNull, [GenerateHls; UploadHls; UploadVideo])
            | Ok fallback =>
                (primaryUrl, fallback, [GenerateHls; UploadHls; UploadVideo])
            end
          else (primaryUrl, JNull, [GenerateHls; UploadHls])
      end
  end.

(** The number of calls of [uploadVideo] among the calls made. *)
Fixpoint uploadsIn (calls : list call) : nat :=
  match calls with
  | [] => 0
  | UploadVideo :: calls' => S (uploadsIn calls')
  | _ :: calls' => uploadsIn calls'
  end.

Definition prepareVideoOutputs (cfg : hlsSettings) (svc : services)
  : result outputs * list call :=
  let '(primaryUrl, fallback, calls) :=
    if enabled cfg then hlsStage cfg svc else (JNull, JNull, []) in
  if truthy primaryUrl
  then (Ok {| videoUrl := primaryUrl; fallbackUrl := fallback |}, calls)
  else
    match uploadVideo svc (uploadsIn calls) with
    | Ok url =>
        (Ok {| videoUrl := url; fallbackUrl := fallback |},
         calls ++ [UploadVideo])
    | Throw e => (Throw e, calls ++ [UploadVideo])
    end.

(** A call of [fs] made by [processVideo] itself. *)
Inductive fsCall : Type :=
| Rename (source target : jsstring)
| CopyFile (source target : jsstring)
| Unlink (path : jsstring)
| WriteFile (path : jsstring).

(** How [fs.rename] ends: done, rejected with the code EXDEV, after which
    the file is copied and the original unlinked, or rejected otherwise. *)
Inductive renameOutcome : Type :=
| Renamed
| CrossDevice (copied unlinked : result unit)
| RenameFailed (e : error).

(** The variables [processVideo] declares before its [try], and the calls
    of [fs] made so far.  A path that is not set is the empty text, which
    is as falsy as undefined. *)
Record locals : Type := {
  audioPath : jsstring;
  normalizedVideoPath : jsstring;
  fsCalls : list fsCall
}.

Section Pipeline.

Variable H : host.
Variable env : Config.environment.

(** [path.extname], [path.basename], [path.dirname] and [path.join]. *)
Variable extname basename dirname : jsstring -> jsstring.
Variable join : jsstring -> jsstring -> jsstring.

(** [config.outputDir] and the HLS settings. *)
Variable configOutputDir : jsstring.
Variable cfg : hlsSettings.

(** The collaborators: the random bytes of the safe name, the audio
    extractor (audio path and duration), the transcriber, the three call
    sites of the language model, the JSON parser of the analyzer, the
    loudness normalizer, [fs.rename], the encoder and the uploader, the
    database and [fs.writeFile]. *)
Variable randomBytes : list N.
Variable extractAudio : result (jsstring * jsval).
Variable transcribeAudio : result jsval.
Variable llm : nat -> Translator.response.
Variable analysisModel exerciseModel : nat -> Generator.reply.
Variable parseObject : jsstring -> option (list (jsstring * jsval)).
Variable normalizeVideoAudio : result jsstring.
Variable renamed : renameOutcome.
Variable svc : services.
Variable saveVideoData : result jsval.
Variable writeFile : result unit.

(** A step of the [try]: from the locals to a result and the locals. *)
Definition step (A : Type) : Type := locals -> result A * locals.

Definition pure {A} (a : A) : step A := fun st => (Ok a, st).
Definition await {A} (r : result A) : step A := fun st => (r, st).
Definition next {A B} (m : step A) (k : A -> step B) : step B :=
  fun st => match m st with
            | (Ok a, st') => k a st'
            | (Throw e, st') => (Throw e, st')
            end.
Definition record (c : fsCall) : step unit :=
  fun st => (Ok tt, {| audioPath := audioPath st;
                       normalizedVideoPath := normalizedVideoPath st;
                       fsCalls := fsCalls st ++ [c] |}).
Definition setAudioPath (p : jsstring) : step unit :=
  fun st => (Ok tt, {| audioPath := p;
                       normalizedVideoPath := normalizedVideoPath st;
                       fsCalls := fsCalls st |}).
Definition setNormalizedVideoPath (p : jsstring) : step unit :=
  fun st => (Ok tt, {| audioPath := audioPath st;
                       normalizedVideoPath := p;
                       fsCalls := fsCalls st |}).

(** [fs.rename(...).catch(...)]. *)
Definition renameTo (source target : jsstring) : step unit :=
  next (record (Rename source target)) (fun _ =>
  match renamed with
  | Renamed => pure tt
  | RenameFailed e => await (Throw e)
  | CrossDevice copied unlinked =>
      next (record (CopyFile source target)) (fun _ =>
      next (await copied) (fun _ =>
      next (record (Unlink source)) (fun _ =>
      await unlinked)))
  end).

(** The body of the [try] of [processVideo(videoPath)]. *)
Definition processing (videoPath : jsstring) : step jsval :=
  let names := createSafeFileNames H (extname videoPath) randomBytes in
  next (await extractAudio) (fun extraction =>
  next (setAudioPath (fst extraction)) (fun _ =>
  let durationSeconds := snd extraction in
  next (await transcribeAudio) (fun transcriptionRaw =>
  next (await (DataTypes.validateTranscriptionVariantsStructure
                transcriptionRaw "transcription")) (fun transcription =>
  next (await (fst (Translator.translateTranscription H env llm
                     (getProp transcription "phrases") 0)))
       (fun translation =>
  next (await (DataTypes.validateTranslationStructure translation))
       (fun validatedTranslation =>
  next (await (fst (Analyzer.analyzeText H env analysisModel parseObject 0)))
       (fun analysis =>
  next (await (DataTypes.validateAnalysisStructure H analysis))
       (fun validatedAnalysis =>
  next (await (fst (Generator.generateExercises H env exerciseModel 0)))
       (fun exercises =>
  next (await normalizeVideoAudio) (fun normalized =>
  next (setNormalizedVideoPath normalized) (fun _ =>
  let sanitizedNormalizedPath :=
    join (dirname normalized) (safeVideoFileName names) in
  next (if streq (basename normalized) (safeVideoFileName names)
        then pure tt
        else next (renameTo normalized sanitizedNormalizedPath) (fun _ =>
             setNormalizedVideoPath sanitizedNormalizedPath)) (fun _ =>
  next (await (fst (prepareVideoOutputs cfg svc))) (fun prepared =>
  let videoData :=
    JObj [(str "videoName", JStr (safeVideoFileName names));
          (str "transcription", transcription);
          (str "translation", validatedTranslation);
          (str "analysis", validatedAnalysis);
          (str "exercises", JArr exercises);
          (str "durationSeconds", durationSeconds);
          (str "videoUrl", videoUrl prepared);
          (str "isAdultContent", getProp validatedAnalysis "isAdultContent")]
  in
  next (await (DataTypes.validateProcessedVideo H videoData)) (fun validated =>
  next (await saveVideoData) (fun videoId =>
  next (record (WriteFile (join configOutputDir (safeJsonFileName names))))
       (fun _ =>
  next (await writeFile) (fun _ =>
  pure validated))))))))))))))))).

(** The [finally] of [processVideo]: the calls of [fs.unlink], whose
    failures are swallowed. *)
Definition cleanup (videoPath : jsstring) (st : locals) (success : bool)
  : list fsCall :=
  (if streq (audioPath st) [] then [] else [Unlink (audioPath st)])
  ++ (if negb (streq (normalizedVideoPath st) [])
         && negb (streq (normalizedVideoPath st) videoPath)
      then [Unlink (normalizedVideoPath st)] else [])
  ++ (if success then [Unlink videoPath] else []).

(** [processVideo(videoPath)]: what it returns or throws, and the calls of
    [fs] it made, in their order. *)
Definition processVideo (videoPath : jsstring) : result jsval * list fsCall :=
  let '(r, st) :=
    processing videoPath
      {| audioPath := []; normalizedVideoPath := []; fsCalls := [] |} in
  let success := match r with Ok _ => true | Throw _ => false end in
  (r, fsCalls st ++ cleanup videoPath st success).

End Pipeline.

End Orchestrator.

(** * The loudness normalizer (src/audio/normalizer.js) *)

Module Normalizer.

(** [config.audioNormalization.apply] and [config.videoCompression.apply]; a
    setting that is absent is undefined. *)
Record settings : Type := {
  audioApply : jsval;
  videoApply : jsval
}.

(** [normalizeVideoAudio(inputVideoPath, outputDir)] up to the work of
    ffmpeg: with both steps switched off the input path is returned as it
    is.  [outputPath] is the path joined from the output directory and the
    name of the input; [processed] is what the creation of the directory
    and the passes of ffmpeg end in. *)
Definition normalizeVideoAudio (cfg : settings) (outputPath : jsstring)
    (processed : result unit) (inputVideoPath : jsstring) : result jsstring :=
  let normalizeAudio := negb (strictEq (audioApply cfg) (JBool false)) in
  let compressVideo := negb (strictEq (videoApply cfg) (JBool false)) in
  if negb normalizeAudio && negb compressVideo then Ok inputVideoPath
  else if streq outputPath inputVideoPath
       then Throw (Error "Normalized output path collides with input path")
       else _ <- processed ;; Ok outputPath.

End Normalizer.

Module Samples.

(** A host that leaves the code units above ASCII alone. *)
Definition asciiHost : host := {|
  lowerNonAscii := fun _ c _ => [c];
  upperNonAscii := fun _ c _ => [c];
  parseFloat := fun _ => NaN;
  parseRepaired := fun _ => None
|}.

Definition obj (fs : list (string * jsval)) : jsval :=
  JObj (map (fun kv => (str (fst kv), snd kv)) fs).

Definition num (z : Z) : jsval := JNum (Fin (inject_Z z)).

Definition chunk (text : string) (a b : Z) : jsval :=
  obj [("text", JStr (str text)); ("timestamp", JArr [num a; num b])].

(** Three views of one transcription; the texts differ in surrounding
    white space only. *)
Definition variantsGood : jsval :=
  obj [("plain", obj [("fullText", JStr (str " hello world "))]);
       ("phrases", obj [("fullText", JStr (str "hello world"));
                        ("chunks", JArr [chunk "hello world" 0 2])]);
       ("words", obj [("text", JStr (str "hello world  "));
                      ("chunks", JArr [chunk "hello" 0 1; chunk "world" 1 2])])].



(** Russian text, as code units. *)
Definition kot : jsstring := [1082; 1086; 1090]%N.            (* кот *)
Definition dom : jsstring := [1076; 1086; 1084]%N.            (* дом *)
Definition les : jsstring := [1083; 1077; 1089]%N.            (* лес *)
Definition chto : jsstring := [1063; 1090; 1086; 63]%N.       (* Что? *)
Definition kotCat : jsstring := kot ++ str " cat".            (* кот cat *)

Definition exercise (type : string) (word : option string)
    (options : list jsstring) (answer : Z) : jsval :=
  obj ([("type", JStr (str type)); ("question", JStr chto);
        ("options", JArr (map JStr options)); ("correctAnswer", num answer)]
       ++ match word with
          | Some w => [("word", JStr (str w))]
          | None => []
          end).

Definition vocabularyCat : jsval :=
  exercise "vocabulary" (Some "cat") [kotCat; dom; les] 0.

(** Three vocabulary exercises, one topic exercise with a single empty
    option, three statementCheck exercises. *)
Definition sevenExercises : jsval :=
  JArr [vocabularyCat; vocabularyCat; vocabularyCat;
        exercise "topic" None [[]] 0;
        exercise "statementCheck" None [kot; dom] 1;
        exercise "statementCheck" None [kot; dom] 0;
        exercise "statementCheck" None [kot; dom] 1].

(** The composition the exercises prompt asks for. *)
Definition sixExercises : jsval :=
  JArr [exercise "vocabulary" (Some " cat ") [kot; dom; les] 0;
        exercise "vocabulary" (Some "house") [kot; dom; les] 1;
        exercise "vocabulary" (Some "forest") [kot; dom; les; kot] 2;
        exercise "vocabulary" (Some "wood") [kot; dom; les; kot] 3;
        exercise "topic" None [kot; dom; les; kot] 0;
        exercise "statementCheck" None [kot; dom; les] 1].

(** Three vocabulary exercises, one topic exercise and three statementCheck
    exercises, each with three or four options, none of them empty. *)
Definition sevenSound : jsval :=
  JArr [exercise "vocabulary" (Some "cat") [kot; dom; les] 0;
        exercise "vocabulary" (Some "house") [kot; dom; les] 1;
        exercise "vocabulary" (Some "forest") [kot; dom; les; kot] 2;
        exercise "topic" None [kot; dom; les; kot] 0;
        exercise "statementCheck" None [kot; dom; les] 1;
        exercise "statementCheck" None [kot; dom; les] 0;
        exercise "statementCheck" None [kot; dom; les; kot] 3].

Definition word (text : string) (startTenths endTenths : Z) : jsval :=
  obj [("text", JStr (str text));
       ("start", JNum (Fin (startTenths # 10)));
       ("end", JNum (Fin (endTenths # 10)))].

(** Seven words in two sentences, with a pause of 1.2 s before the last. *)
Definition sevenWords : jsval :=
  JArr [word " So" 0 2; word "this" 2 5; word "is" 5 6; word "a" 6 7;
        word "test." 7 12; word "Right" 13 16; word "?" 28 29].

(** A host whose JSON parser reads every text as an array of one item, the
    translation of line 0. *)
Definition oneLineHost : host := {|
  lowerNonAscii := fun _ c _ => [c];
  upperNonAscii := fun _ c _ => [c];
  parseFloat := fun _ => NaN;
  parseRepaired :=
    fun _ => Some (JArr [obj [("index", num 0); ("text", JStr kot)]])
|}.

(** A model that answers every call with the same array. *)
Definition oneLineModel : nat -> Translator.response :=
  fun _ => Translator.Answered (str "[{'index':0,'text':'kot'}]").

(** A model that refuses every call. *)
Definition refusingModel : nat -> Translator.response :=
  fun _ => Translator.Rejected "quota exceeded".

(** Batches of one line, the default number of attempts, an API key in the
    second variable. *)
Definition onePerBatch : Config.environment := {|
  Config.GOOGLE_TRANSLATION_CHUNK_SIZE := Some (str "1");
  Config.GOOGLE_TRANSLATION_ATTEMPTS := None;
  Config.GOOGLE_GEMINI_API_KEY := None;
  Config.GOOGLE_API_KEY := Some (str "key")
|}.

(** No variable is set. *)
Definition unset : Config.environment := {|
  Config.GOOGLE_TRANSLATION_CHUNK_SIZE := None;
  Config.GOOGLE_TRANSLATION_ATTEMPTS := None;
  Config.GOOGLE_GEMINI_API_KEY := None;
  Config.GOOGLE_API_KEY := None
|}.

(** A transcription of two chunks. *)
Definition twoChunks : jsval :=
  obj [("fullText", JStr (str "the cat"));
       ("chunks", JArr [chunk "the" 0 1; chunk "cat" 1 2])].

(** A host whose JSON parser reads the text [exercises] as the six
    exercises and every other text as one translated line. *)
Definition pipelineHost : host := {|
  lowerNonAscii := fun _ c _ => [c];
  upperNonAscii := fun _ c _ => [c];
  parseFloat := fun _ => NaN;
  parseRepaired :=
    fun text =>
      if streq text (str "[exercises]") then Some sixExercises
      else Some (JArr [obj [("index", num 0); ("text", JStr kot)]])
|}.

(** The fields of an analysis as the model may give them. *)
Definition analysisFields : list (jsstring * jsval) :=
  [(str "cefrLevel", JStr (str "b2"));
   (str "speechSpeed", JStr (str "Fast"));
   (str "grammarComplexity", JStr (str "complex"));
   (str "vocabularyComplexity", JStr (str "advanced"));
   (str "topics", JArr [JStr (str "space")])].

(** An encoder that fails and an uploader that works. *)
Definition mp4Only : Orchestrator.services := {|
  Orchestrator.generateHlsPackages := Throw (Error "ffmpeg exited with code 1");
  Orchestrator.uploadHlsDirectory := fun _ => Ok JNull;
  Orchestrator.uploadVideo :=
    fun _ => Ok (JStr (str "https://cdn.example/videos/clip.mp4"))
|}.

Definition clip : jsstring := str "input/My Clip.MP4".

(** One run of the orchestrator on [clip]; [saved] is what the database
    answers. *)
Definition run (saved : result jsval) : result jsval * list Orchestrator.fsCall :=
  Orchestrator.processVideo pipelineHost onePerBatch
    (fun _ => str ".MP4")
    (fun path => path)
    (fun _ => str "temp")
    (fun directory name => directory ++ str "/" ++ name)
    (str "output")
    {| Orchestrator.enabled := true; Orchestrator.includeMp4Fallback := false |}
    [0; 1; 2; 3; 4; 5; 6; 7; 8; 9; 10; 11; 12; 13; 14; 15]%N
    (Ok (str "temp/clip.wav", num 2))
    (Ok variantsGood)
    oneLineModel
    (fun _ => Generator.Text (str "{analysis}"))
    (fun _ => Generator.Text (str "[exercises]"))
    (fun _ => Some analysisFields)
    (Ok (str "temp/clip-normalized.MP4"))
    Orchestrator.Renamed
    mp4Only
    saved
    (Ok tt)
    clip.

(** Loudness normalization and compression are both switched off. *)
Definition passThrough : Normalizer.settings := {|
  Normalizer.audioApply := JBool false;
  Normalizer.videoApply := JBool false
|}.

(** One run of the orchestrator on [clip] with the normalizer switched off;
    [saved] is what the database answers. *)
Definition runUnnormalized (saved : result jsval)
  : result jsval * list Orchestrator.fsCall :=
  Orchestrator.processVideo pipelineHost onePerBatch
    (fun _ => str ".MP4")
    (fun _ => str "My Clip.MP4")
    (fun _ => str "input")
    (fun directory name => directory ++ str "/" ++ name)
    (str "output")
    {| Orchestrator.enabled := true; Orchestrator.includeMp4Fallback := false |}
    [0; 1; 2; 3; 4; 5; 6; 7; 8; 9; 10; 11; 12; 13; 14; 15]%N
    (Ok (str "temp/clip.wav", num 2))
    (Ok variantsGood)
    oneLineModel
    (fun _ => Generator.Text (str "{analysis}"))
    (fun _ => Generator.Text (str "[exercises]"))
    (fun _ => Some analysisFields)
    (Normalizer.normalizeVideoAudio passThrough
       (str "temp/My Clip-normalized.MP4") (Ok tt) clip)
    Orchestrator.Renamed
    mp4Only
    saved
    (Ok tt)
    clip.


(** Forty-one chunks of one second each. *)
Definition fortyOneChunks : list jsval :=
  map (fun i => chunk "la" (Z.of_nat i) (Z.of_nat (S i))) (seq 0 41).

Definition analysisOf (topics : list string) : jsval :=
  obj [("cefrLevel", JStr (str "b1")); ("speechSpeed", JStr (str "Normal"));
       ("grammarComplexity", JStr (str "simple"));
       ("vocabularyComplexity", JStr (str " basic "));
       ("topics", JArr (map (fun t => JStr (str t)) topics))].

End Samples.

(** * Properties *)

(** ** Strings *)

Lemma streq_spec (a b : jsstring) : streq a b = true <-> a = b.
Proof.
  revert b. induction a as [|x a IH]; intros [|y b]; simpl; try easy.
  rewrite andb_true_iff, N.eqb_eq, IH. split.
  - intros [-> ->]. reflexivity.
  - intros E. injection E as -> ->. auto.
Qed.

Lemma streq_refl (a : jsstring) : streq a a = true.
Proof. apply streq_spec. reflexivity. Qed.

Lemma trimStart_idem (s : jsstring) : trimStart (trimStart s) = trimStart s.
Proof.
  induction s as [|c s IH]; simpl; [reflexivity|].
  destruct (isWhiteSpace c) eqn:E; [exact IH|].
  simpl. rewrite E. reflexivity.
Qed.

(** A string that does not start with white space is left alone. *)
Lemma trimStart_fixed (s : jsstring) :
  head s ≫= (fun c => Some (isWhiteSpace c)) <> Some true -> trimStart s = s.
Proof.
  destruct s as [|c s]; simpl; [reflexivity|].
  destruct (isWhiteSpace c); [intros E; exfalso; apply E; reflexivity|reflexivity].
Qed.

Lemma trimStart_head (s : jsstring) :
  head (trimStart s) ≫= (fun c => Some (isWhiteSpace c)) <> Some true.
Proof.
  induction s as [|c s IH]; simpl; [discriminate|].
  destruct (isWhiteSpace c) eqn:E; [exact IH|].
  simpl. rewrite E. discriminate.
Qed.

(** Dropping white space at the end keeps a first character that is not
    white space in place. *)
Lemma trimEnd_head (s : jsstring) :
  head s ≫= (fun c => Some (isWhiteSpace c)) <> Some true ->
  head (trimEnd s) ≫= (fun c => Some (isWhiteSpace c)) <> Some true.
Proof.
  unfold trimEnd. induction s as [|c s IH] using rev_ind; [easy|].
  intros Hh. rewrite rev_app_distr. simpl.
  destruct (isWhiteSpace c) eqn:E.
  - apply IH. destruct s; simpl in *; [discriminate|exact Hh].
  - simpl. rewrite rev_involutive. exact Hh.
Qed.

Lemma trimEnd_idem (s : jsstring) : trimEnd (trimEnd s) = trimEnd s.
Proof.
  unfold trimEnd. rewrite rev_involutive, trimStart_idem. reflexivity.
Qed.

Lemma trim_idem (s : jsstring) : trim (trim s) = trim s.
Proof.
  unfold trim.
  rewrite (trimStart_fixed (trimEnd (trimStart s))).
  - apply trimEnd_idem.
  - apply trimEnd_head, trimStart_head.
Qed.

(** ** Data contracts *)

Import DataTypes.

(** Peel one step of a validator that returned a value. *)
Ltac ok_step :=
  match goal with
  | E : Js.bind ?m _ = Ok _ |- _ =>
      let a := fresh "a" in
      let Ea := fresh "E" a in
      destruct m as [a|] eqn:Ea; simpl in E; [|discriminate E]
  | E : (if ?c then _ else Throw _) = Ok _ |- _ =>
      let Ec := fresh "Ec" in
      destruct c eqn:Ec; [|discriminate E]
  | E : Ok _ = Ok _ |- _ => injection E as E
  | E : Throw _ = Ok _ |- _ => discriminate E
  end.

Ltac ok_steps := repeat ok_step.

Lemma assertString_ok (v : jsval) (name : string) (s : jsstring) :
  assertString v name = Ok s -> exists raw, v = JStr raw /\ s = trim raw.
Proof.
  destruct v; simpl; try discriminate. intros E. injection E as <-. eauto.
Qed.





(** *** Objects as association lists *)

Lemma lookupOwn_setOwn_same (fs : list (jsstring * jsval)) k v :
  lookupOwn (setOwn fs k v) k = Some v.
Proof.
  induction fs as [|[k' v'] fs IH]; simpl.
  - now rewrite streq_refl.
  - destruct (streq k' k) eqn:E; simpl; rewrite E; [reflexivity|exact IH].
Qed.

Lemma lookupOwn_setOwn_other (fs : list (jsstring * jsval)) k k' v :
  streq k k' = false -> lookupOwn (setOwn fs k v) k' = lookupOwn fs k'.
Proof.
  intros Hne. induction fs as [|[k0 v0] fs IH]; simpl.
  - now rewrite Hne.
  - destruct (streq k0 k) eqn:E; simpl.
    + apply streq_spec in E. subst k0. now rewrite Hne.
    + now rewrite IH.
Qed.

(** Writing the value a key already has changes nothing. *)
Lemma setOwn_same_value (fs : list (jsstring * jsval)) k v :
  lookupOwn fs k = Some v -> setOwn fs k v = fs.
Proof.
  induction fs as [|[k' v'] fs IH]; simpl; [discriminate|].
  destruct (streq k' k) eqn:E.
  - intros [= ->]. reflexivity.
  - intros Hl. now rewrite IH.
Qed.

Lemma getMember_own (fs : list (jsstring * jsval)) k v :
  lookupOwn fs k = Some v -> getMember fs k = v.
Proof. unfold getMember. now intros ->. Qed.

(** *** Lists of results *)

Lemma mapM_ok_Forall2 {A B} (f : A -> result B) (l : list A) (out : list B) :
  mapM f l = Ok out -> Forall2 (fun x y => f x = Ok y) l out.
Proof.
  revert out. induction l as [|x l IH]; simpl; intros out E.
  - injection E as <-. constructor.
  - destruct (f x) as [y|] eqn:Ey; simpl in E; [|discriminate].
    destruct (mapM f l) as [ys|] eqn:Eys; simpl in E; [|discriminate].
    injection E as <-. constructor; auto.
Qed.

Lemma Forall2_mapM_ok {A B} (f : A -> result B) (l : list A) (out : list B) :
  Forall2 (fun x y => f x = Ok y) l out -> mapM f l = Ok out.
Proof.
  induction 1 as [|x y l out Hxy _ IH]; simpl; [reflexivity|].
  now rewrite Hxy, IH.
Qed.

Lemma mapM_length {A B} (f : A -> result B) (l : list A) (out : list B) :
  mapM f l = Ok out -> length out = length l.
Proof.
  intros E. apply mapM_ok_Forall2 in E. symmetry.
  eapply Forall2_length, E.
Qed.

Lemma getMember_setOwn_same (fs : list (jsstring * jsval)) k v :
  getMember (setOwn fs k v) k = v.
Proof. apply getMember_own, lookupOwn_setOwn_same. Qed.

Lemma getMember_setOwn_other (fs : list (jsstring * jsval)) k k' v :
  streq k k' = false -> getMember (setOwn fs k v) k' = getMember fs k'.
Proof.
  intros Hne. unfold getMember. now rewrite lookupOwn_setOwn_other.
Qed.

(** Read a field back from a chain of assignments with literal keys. *)
Ltac read_field :=
  unfold getProp, setProps; simpl fold_left;
  repeat (rewrite getMember_setOwn_other by reflexivity);
  try rewrite getMember_setOwn_same.

(** *** Regular expression tests and trimming *)

Lemma existsb_trimStart (p : N -> bool) (s : jsstring) :
  (forall c, p c = true -> isWhiteSpace c = false) ->
  existsb p (trimStart s) = existsb p s.
Proof.
  intros Hp. induction s as [|c s IH]; simpl; [reflexivity|].
  destruct (isWhiteSpace c) eqn:E; [|reflexivity].
  rewrite IH. destruct (p c) eqn:Ec; [|reflexivity].
  apply Hp in Ec. congruence.
Qed.

Lemma existsb_rev {A} (p : A -> bool) (l : list A) :
  existsb p (rev l) = existsb p l.
Proof.
  induction l as [|x l IH]; simpl; [reflexivity|].
  rewrite existsb_app, IH. simpl. rewrite orb_false_r. apply orb_comm.
Qed.

Lemma existsb_trim (p : N -> bool) (s : jsstring) :
  (forall c, p c = true -> isWhiteSpace c = false) ->
  existsb p (trim s) = existsb p s.
Proof.
  intros Hp. unfold trim, trimEnd.
  now rewrite existsb_rev, existsb_trimStart, existsb_rev, existsb_trimStart.
Qed.

Lemma isLatin_not_space (c : N) : isLatin c = true -> isWhiteSpace c = false.
Proof.
  unfold isLatin, isWhiteSpace. intros Hl. apply not_true_iff_false.
  rewrite !orb_true_iff, !andb_true_iff, !N.leb_le in Hl.
  rewrite !orb_true_iff, !andb_true_iff, !N.leb_le, !N.eqb_eq. lia.
Qed.

Lemma isCyrillic_not_space (c : N) :
  isCyrillic c = true -> isWhiteSpace c = false.
Proof.
  unfold isCyrillic, isWhiteSpace. intros Hl. apply not_true_iff_false.
  rewrite !orb_true_iff, !andb_true_iff, !N.leb_le, !N.eqb_eq in Hl.
  rewrite !orb_true_iff, !andb_true_iff, !N.leb_le, !N.eqb_eq. lia.
Qed.

Lemma LATIN_trim (s : jsstring) : LATIN_REGEX_test (trim s) = LATIN_REGEX_test s.
Proof. apply existsb_trim, isLatin_not_space. Qed.

Lemma CYRILLIC_trim (s : jsstring) :
  CYRILLIC_REGEX_test (trim s) = CYRILLIC_REGEX_test s.
Proof. apply existsb_trim, isCyrillic_not_space. Qed.

(** *** Numbers *)

Lemma integer_is_inject_Z (q : Q) :
  (Zpos (Qden (Qred q)) =? 1)%Z = true -> Qeq q (inject_Z (Qnum (Qred q))).
Proof.
  intros Hd. apply Z.eqb_eq in Hd.
  rewrite <- (Qred_correct q) at 1.
  destruct (Qred q) as [n d]. simpl in *. injection Hd as ->.
  reflexivity.
Qed.

(** An integer that passes the range check is an index below the length. *)
Lemma answer_index (n : number) (len : nat) :
  Number_isInteger n = true ->
  negb (ltb n (ofNat 0) || geb n (ofNat len)) = true ->
  exists q k, n = Fin q /\ Qeq q (inject_Z (Z.of_nat k)) /\ k < len.
Proof.
  destruct n as [| |q]; simpl; try discriminate.
  intros Hint Hrange. apply integer_is_inject_Z in Hint.
  apply negb_true_iff, orb_false_iff in Hrange as [Hlo Hhi].
  apply negb_false_iff, Qle_bool_iff in Hlo.
  assert (Hhi' : ~ Qle (inject_Z (Z.of_nat len)) q).
  { intros Hle. apply Qle_bool_iff in Hle. congruence. }
  set (z := Qnum (Qred q)) in *.
  rewrite Hint in Hlo, Hhi'.
  change (inject_Z (Z.of_nat 0)) with (inject_Z 0) in Hlo.
  rewrite <- Zle_Qle in Hlo. rewrite <- Zle_Qle in Hhi'.
  exists q, (Z.to_nat z). split; [reflexivity|]. split.
  - rewrite Z2Nat.id by exact Hlo. exact Hint.
  - lia.
Qed.

(** *** Exercises *)

Lemma mapM_assertString (raw : list jsval) (out : list jsval) :
  mapM (fun opt => s <- assertString opt "exercise[index].options[optIdx]" ;;
                   Ok (JStr s)) raw = Ok out ->
  exists raws, raw = map JStr raws /\ out = map JStr (map trim raws).
Proof.
  revert out. induction raw as [|x raw IH]; simpl; intros out E.
  - injection E as <-. exists []. split; reflexivity.
  - destruct x as [| | | |s| | |]; simpl in E; try discriminate E.
    destruct (mapM _ raw) as [ys|] eqn:Em; simpl in E; [|discriminate E].
    injection E as <-.
    destruct (IH _ eq_refl) as (raws & -> & ->).
    exists (s :: raws). split; reflexivity.
Qed.

Lemma everyOption_strings (test : jsstring -> bool) (options : list jsstring) :
  everyOption test (map JStr options)
  = Ok (forallb (fun o => test (trim o)) options).
Proof.
  induction options as [|o options IH]; simpl; [reflexivity|].
  destruct (test (trim o)); simpl; [exact IH|reflexivity].
Qed.

Lemma forallb_trimmed (test : jsstring -> bool) (raws : list jsstring) :
  forallb (fun o => test (trim o)) (map trim raws) = true ->
  Forall (fun o => test o = true) (map trim raws).
Proof.
  intros Hall. apply Forall_forall. intros o Ho.
  rewrite forallb_forall in Hall.
  apply list_elem_of_In in Ho. specialize (Hall o Ho).
  apply in_map_iff in Ho as (r & <- & _). now rewrite trim_idem in Hall.
Qed.

(** Everything [validateExercise] has checked when it returns. *)
Lemma validateExercise_inv (ex out : jsval) :
  validateExercise ex = Ok out ->
  exists fs rawType rawQuestion raws q,
    ex = JObj fs /\
    getMember fs (str "type") = JStr rawType /\
    includes EXERCISE_TYPES (trim rawType) = true /\
    getMember fs (str "question") = JStr rawQuestion /\
    CYRILLIC_REGEX_test (trim rawQuestion) = true /\
    getMember fs (str "options") = JArr (map JStr raws) /\
    getMember fs (str "correctAnswer") = JNum (Fin q) /\
    (exists k, Qeq q (inject_Z (Z.of_nat k)) /\ k < length raws) /\
    (if streq (trim rawType) (str "vocabulary")
     then validateVocabularyExercise
            (JObj (setProps fs [("options", JArr (map JStr (map trim raws)))]))
          = Ok tt
     else True) /\
    out = JObj (setProps fs
                  [("question", JStr (trim rawQuestion));
                   ("options", JArr (map JStr (map trim raws)));
                   ("correctAnswer", JNum (Fin q));
                   ("type", JStr (trim rawType))]).
Proof.
  unfold validateExercise. intros E. ok_steps.
  destruct ex as [| | | | | |fs|]; try discriminate Ea.
  simpl getProp in *.
  apply assertString_ok in Ea as (rawType & HrawType & ->).
  apply assertString_ok in Ea0 as (rawQuestion & HrawQuestion & ->).
  destruct (getMember fs (str "options")) as [| | | | |optionsRaw| |] eqn:Hopts;
    try discriminate Ea1.
  injection Ea1 as <-.
  apply mapM_assertString in Ea2 as (raws & -> & ->).
  destruct (getMember fs (str "correctAnswer")) as [| | |ca| | | |] eqn:Hca;
    try discriminate E.
  ok_steps.
  destruct (answer_index _ _ Ec2 Ec3) as (q & k & -> & Hq & Hk).
  rewrite !length_map in Hk.
  exists fs, rawType, rawQuestion, raws, q.
  repeat split; try assumption.
  - exists k. split; assumption.
  - simpl spread in Ea. destruct (streq (trim rawType) (str "vocabulary"));
      [|exact I]. destruct a; exact Ea.
  - simpl spread in E. symmetry. exact E.
Qed.

Lemma validateVocabularyExercise_inv (fs : list (jsstring * jsval))
    (raws : list jsstring) :
  validateVocabularyExercise
    (JObj (setProps fs [("options", JArr (map JStr (map trim raws)))])) = Ok tt ->
  exists word,
    getMember fs (str "word") = JStr word /\
    (length raws = 3 \/ length raws = 4) /\
    (LATIN_REGEX_test word = true \/ CYRILLIC_REGEX_test word = true) /\
    (LATIN_REGEX_test word = true ->
       Forall (fun o => CYRILLIC_REGEX_test o = true) (map trim raws)) /\
    (CYRILLIC_REGEX_test word = true ->
       Forall (fun o => LATIN_REGEX_test o = true) (map trim raws)).
Proof.
  unfold validateVocabularyExercise. read_field.
  simpl assertArray. simpl Js.bind at 2.
  rewrite !everyOption_strings. intros E. ok_steps.
  rewrite !length_map in Ec.
  destruct (getMember fs (str "word")) as [| | | |word| | |] eqn:Hw;
    try discriminate Ea.
  - (* [exercise.word] is undefined: the empty word has no letters *)
    simpl in Ea. injection Ea as <-. discriminate Ec0.
  - simpl in Ea. injection Ea as <-. discriminate Ec0.
  - simpl in Ea. injection Ea as <-.
    rewrite LATIN_trim, CYRILLIC_trim in *.
    exists word. split; [reflexivity|].
    apply negb_true_iff, orb_false_iff in Ec as [Hlo Hhi].
    apply Nat.ltb_ge in Hlo, Hhi.
    split; [lia|]. split.
    + destruct (LATIN_REGEX_test word); [now left|right].
      now destruct (CYRILLIC_REGEX_test word).
    + split; intros Hscript; rewrite Hscript in *; simpl in *.
      * apply negb_true_iff, negb_false_iff in Ec1.
        now apply forallb_trimmed.
      * apply negb_true_iff, negb_false_iff in Ec2.
        now apply forallb_trimmed.
Qed.

Lemma validateExercise_normalized (ex out : jsval) :
  validateExercise ex = Ok out -> normalizedExercise out.
Proof.
  intros E.
  destruct (validateExercise_inv _ _ E)
    as (fs & rawType & rawQuestion & raws & q & -> & Htype & Hinc & Hquestion
        & Hcyr & Hopts & Hca & (k & Hq & Hk) & Hvocab & ->).
  exists (trim rawType), (trim rawQuestion), (map trim raws).
  split; [now read_field|]. split; [exact Hinc|].
  split; [now read_field|]. split; [exact Hcyr|].
  split; [now read_field|]. split.
  { apply Forall_forall. intros o Ho. apply list_elem_of_In, in_map_iff in Ho
      as (r & <- & _). apply trim_idem. }
  split.
  { exists q, k, (map JStr (map trim raws)).
    split; [now read_field|]. split; [exact Hq|].
    split; [now read_field|]. now rewrite !length_map. }
  intros Hv. rewrite Hv in Hvocab. simpl streq in Hvocab.
  destruct (validateVocabularyExercise_inv _ _ Hvocab)
    as (word & _ & Hlen & Hscript & Hlat & Hcyr').
  rewrite length_map. split; [exact Hlen|].
  assert (Hletters : Forall (fun o => CYRILLIC_REGEX_test o = true
                                      \/ LATIN_REGEX_test o = true)
                            (map trim raws)).
  { destruct Hscript as [Hs|Hs].
    - eapply Forall_impl; [apply Hlat, Hs|]. intros o Ho. now left.
    - eapply Forall_impl; [apply Hcyr', Hs|]. intros o Ho. now right. }
  eapply Forall_impl; [exact Hletters|].
  intros o [Ho|Ho] ->; discriminate Ho.
Qed.

Lemma validateExercise_aligned (ex out : jsval) :
  validateExercise ex = Ok out ->
  getProp out "type" = JStr (str "vocabulary") ->
  alignedScripts out.
Proof.
  intros E.
  destruct (validateExercise_inv _ _ E)
    as (fs & rawType & rawQuestion & raws & q & -> & Htype & Hinc & Hquestion
        & Hcyr & Hopts & Hca & _ & Hvocab & ->).
  read_field. intros [= Hv]. rewrite Hv in Hvocab. simpl streq in Hvocab.
  destruct (validateVocabularyExercise_inv _ _ Hvocab)
    as (word & Hword & _ & Hscript & Hlat & Hcyr').
  exists word, (map trim raws).
  split; [read_field; exact Hword|]. split; [now read_field|].
  split; [exact Hscript|]. split; assumption.
Qed.

Lemma countType_cons (t : string) (ex : jsval) (E : list jsval) :
  countType t (ex :: E)
  = (if strictEq (getProp ex "type") (JStr (str t)) then 1 else 0)
    + countType t E.
Proof.
  unfold countType. rewrite filter_cons.
  destruct (strictEq (getProp ex "type") (JStr (str t))) eqn:Es.
  - rewrite decide_True by reflexivity. reflexivity.
  - rewrite decide_False by discriminate. reflexivity.
Qed.

(** Every exercise carries one of the three types, so the three counts add
    up to the length. *)
Lemma count_by_type (E : list jsval) :
  Forall normalizedExercise E ->
  length E = countType "vocabulary" E + countType "topic" E
             + countType "statementCheck" E.
Proof.
  induction 1 as [|ex E Hex _ IH]; [reflexivity|].
  rewrite !countType_cons. simpl length. rewrite IH.
  destruct Hex as (type & _ & _ & -> & Hinc & _).
  simpl strictEq. unfold includes, EXERCISE_TYPES in Hinc. simpl in Hinc.
  rewrite orb_false_r in Hinc.
  apply orb_true_iff in Hinc as [Hty|Hty];
    [|apply orb_true_iff in Hty as [Hty|Hty]];
    apply streq_spec in Hty; subst type; simpl; lia.
Qed.

(** C1 (amended). An accepted exercise array holds 3 or 4 vocabulary
    exercises, exactly 1 topic exercise and at least 1 statementCheck
    exercise and nothing else, so at least 5 exercises in all; every exercise
    has trimmed string options and an integer correctAnswer with
    0 <= correctAnswer < |options|; every vocabulary exercise has 3 or 4
    options, none of them empty. *)
Theorem exercises_composition (exercises : jsval) (E : list jsval) :
  validateExercisesStructure exercises = Ok E ->
  (countType "vocabulary" E = 3 \/ countType "vocabulary" E = 4) /\
  countType "topic" E = 1 /\
  1 <= countType "statementCheck" E /\
  length E = countType "vocabulary" E + countType "topic" E
             + countType "statementCheck" E /\
  5 <= length E /\
  Forall normalizedExercise E.
Proof.
  unfold validateExercisesStructure. intros Hv. ok_steps. subst E.
  assert (Hnorm : Forall normalizedExercise a0).
  { apply mapM_ok_Forall2 in Ea0. clear -Ea0.
    induction Ea0 as [|x y l out Hxy _ IH]; constructor; [|exact IH].
    eapply validateExercise_normalized, Hxy. }
  apply negb_true_iff, orb_false_iff in Ec as [Hlo Hhi].
  apply Nat.ltb_ge in Hlo, Hhi. apply Nat.eqb_eq in Ec0.
  apply negb_true_iff, Nat.ltb_ge in Ec1.
  pose proof (count_by_type _ Hnorm) as Hlen.
  repeat split; try assumption; lia.
Qed.

Lemma exercises_composition_witness :
  exists E,
    validateExercisesStructure Samples.sixExercises = Ok E /\
    length E = 6 /\ countType "vocabulary" E = 4 /\
    Forall normalizedExercise E.
Proof.
  destruct (validateExercisesStructure Samples.sixExercises) as [E|e] eqn:Hv;
    [|vm_compute in Hv; discriminate Hv].
  exists E. split; [reflexivity|].
  destruct (exercises_composition _ _ Hv) as (_ & _ & _ & _ & _ & Hnorm).
  vm_compute in Hv. injection Hv as <-.
  split; [reflexivity|]. split; [reflexivity|]. exact Hnorm.
Defined.

(** C1 as stated fails: seven exercises are accepted, each of them with
    three or four options that are not empty and an answer in range, so the
    total is neither 5 nor 6. *)
Lemma exercises_composition_counterexample :
  exists E,
    validateExercisesStructure Samples.sevenSound = Ok E /\
    length E = 7 /\
    Forall specOptions E /\
    ~ specExerciseSet E.
Proof.
  destruct (validateExercisesStructure Samples.sevenSound) as [E|e] eqn:Hv;
    vm_compute in Hv; [|discriminate Hv].
  injection Hv as <-. eexists. split; [reflexivity|]. split; [reflexivity|].
  split.
  - repeat apply List.Forall_cons; try apply List.Forall_nil;
      first [ exists [Samples.kot; Samples.dom; Samples.les];
              split; [reflexivity|]
            | exists [Samples.kot; Samples.dom; Samples.les; Samples.kot];
              split; [reflexivity|] ];
      (split; [first [left; reflexivity|right; reflexivity]|]);
      repeat apply List.Forall_cons; try apply List.Forall_nil; discriminate.
  - intros (_ & _ & _ & [Hl|Hl] & _); discriminate Hl.
Qed.

(** C3 (amended). In an accepted exercise array every vocabulary exercise has
    a word with Latin or Cyrillic letters; when the word contains Latin
    letters every option contains a Cyrillic letter, and when the word
    contains Cyrillic letters every option contains a Latin letter.  (An
    option may contain letters of both alphabets.) *)
Theorem vocabulary_scripts_aligned (exercises : jsval) (E : list jsval)
    (ex : jsval) :
  validateExercisesStructure exercises = Ok E ->
  ex ∈ E ->
  getProp ex "type" = JStr (str "vocabulary") ->
  alignedScripts ex.
Proof.
  unfold validateExercisesStructure. intros Hv Hin Hty. ok_steps. subst E.
  apply mapM_ok_Forall2 in Ea0.
  clear -Ea0 Hin Hty. induction Ea0 as [|x y l out Hxy _ IH].
  - inversion Hin.
  - apply elem_of_cons in Hin as [->|Hin]; [|now apply IH].
    eapply validateExercise_aligned; eassumption.
Qed.

Lemma vocabulary_scripts_aligned_witness :
  exists E ex,
    validateExercisesStructure Samples.sixExercises = Ok E /\
    E !! 0 = Some ex /\
    getProp ex "word" = JStr (str " cat ") /\
    alignedScripts ex.
Proof.
  destruct (validateExercisesStructure Samples.sixExercises) as [E|e] eqn:Hv;
    [|vm_compute in Hv; discriminate Hv].
  assert (Hfirst : exists ex, E !! 0 = Some ex /\
                     getProp ex "word" = JStr (str " cat ") /\
                     getProp ex "type" = JStr (str "vocabulary")).
  { vm_compute in Hv. injection Hv as <-. eexists.
    split; [reflexivity|]. split; reflexivity. }
  destruct Hfirst as (ex & Hex & Hword & Hty).
  exists E, ex. split; [reflexivity|]. split; [exact Hex|].
  split; [exact Hword|].
  apply (vocabulary_scripts_aligned Samples.sixExercises E ex Hv).
  - eapply list_elem_of_lookup_2, Hex.
  - exact Hty.
Defined.

(** C3 as stated fails: the accepted vocabulary exercise for "cat" has the
    option "кот cat", which contains Latin letters like the word. *)
Lemma vocabulary_scripts_counterexample :
  exists E ex,
    validateExercisesStructure Samples.sevenExercises = Ok E /\
    E !! 0 = Some ex /\
    getProp ex "type" = JStr (str "vocabulary") /\
    ~ specDisjointScripts ex.
Proof.
  destruct (validateExercisesStructure Samples.sevenExercises) as [E|e] eqn:Hv;
    vm_compute in Hv; [|discriminate Hv].
  injection Hv as <-. eexists. eexists.
  split; [reflexivity|]. split; [reflexivity|]. split; [reflexivity|].
  intros Hspec.
  destruct (Hspec (str "cat") [Samples.kotCat; Samples.dom; Samples.les]
              eq_refl eq_refl) as [Hlat _].
  specialize (Hlat eq_refl). inversion Hlat as [|? ? Hhead _].
  discriminate Hhead.
Qed.

(** *** Analysis *)

(** Own properties of the lookup object are catalog entries. *)
Lemma TOPIC_LOOKUP_own (H : host) (k : jsstring) (v : jsval) :
  lookupOwn (TOPIC_LOOKUP H) k = Some v ->
  exists topic, v = JStr topic /\ topic ∈ Config.videoTopics.
Proof.
  unfold TOPIC_LOOKUP.
  assert (Hgen : forall (l : list jsstring) acc,
             (forall t, t ∈ l -> t ∈ Config.videoTopics) ->
             (forall k v, lookupOwn acc k = Some v ->
                          exists topic, v = JStr topic /\
                                        topic ∈ Config.videoTopics) ->
             forall k v,
               lookupOwn
                 (fold_left (fun acc topic =>
                               setOwn acc (toLowerCase H topic) (JStr topic))
                            l acc) k = Some v ->
               exists topic, v = JStr topic /\ topic ∈ Config.videoTopics).
  { induction l as [|t l IH]; intros acc Hl Hacc k' v'; simpl; [apply Hacc|].
    apply IH.
    - intros t' Ht'. apply Hl. now right.
    - intros k0 v0. destruct (streq (toLowerCase H t) k0) eqn:Ek.
      + apply streq_spec in Ek. subst k0. rewrite lookupOwn_setOwn_same.
        intros [= <-]. exists t. split; [reflexivity|]. apply Hl. now left.
      + rewrite lookupOwn_setOwn_other by exact Ek. apply Hacc. }
  apply Hgen; [auto|]. intros k' v'. discriminate.
Qed.

(** A value read from the lookup object is a catalog string, an inherited
    member of [Object.prototype], or undefined. *)
Lemma TOPIC_LOOKUP_member (H : host) (k : jsstring) :
  (exists topic, getMember (TOPIC_LOOKUP H) k = JStr topic /\
                 topic ∈ Config.videoTopics) \/
  (exists o, getMember (TOPIC_LOOKUP H) k = JNative o) \/
  getMember (TOPIC_LOOKUP H) k = JUndef.
Proof.
  unfold getMember. destruct (lookupOwn (TOPIC_LOOKUP H) k) as [v|] eqn:Hl.
  - left. apply TOPIC_LOOKUP_own in Hl as (topic & -> & Hin). eauto.
  - right. unfold inheritedFromObject.
    repeat match goal with |- context [if ?c then _ else _] => destruct c end;
      eauto.
Qed.

Lemma mapTopic_value (H : host) (topic v : jsval) :
  mapTopic H topic = Ok v -> truthy v = true -> isTopicValue v.
Proof.
  unfold mapTopic. intros E Ht. ok_steps. subst v.
  destruct (TOPIC_LOOKUP_member H (toLowerCase H a))
    as [(t & Hm & Hin)|[(o & Hm)|Hm]]; rewrite Hm in *.
  - unfold orElse in *. destruct (truthy (JStr t)); [|discriminate Ht].
    left. eauto.
  - right. eauto.
  - discriminate Ht.
Qed.

Lemma isTopicValue_sameValueZero (x y : jsval) :
  isTopicValue x -> x = y -> sameValueZero x y = true.
Proof.
  intros [(t & -> & _)|(o & ->)] <-; simpl.
  - apply streq_refl.
  - now apply bool_decide_eq_true.
Qed.

(** [Array.from(new Set(xs))] keeps elements of [xs], none of them from
    [seen], none of them twice. *)
Lemma setFrom_spec (xs seen : list jsval) :
  Forall isTopicValue xs ->
  NoDup (setFrom seen xs) /\
  forall x, x ∈ setFrom seen xs -> x ∈ xs /\ x ∉ seen.
Proof.
  intros Hxs. revert seen. induction Hxs as [|x xs Hx _ IH]; intros seen; simpl.
  - split; [constructor|]. intros x Hin. inversion Hin.
  - destruct (existsb (sameValueZero x) seen) eqn:Hseen.
    + destruct (IH seen) as [Hnd Hin]. split; [exact Hnd|].
      intros y Hy. destruct (Hin y Hy). split; [now right|assumption].
    + destruct (IH (x :: seen)) as [Hnd Hin]. split.
      * constructor; [|exact Hnd]. intros Hx'. apply Hin in Hx' as [_ Hx'].
        apply Hx'. now left.
      * intros y Hy. apply elem_of_cons in Hy as [->|Hy].
        -- split; [now left|]. intros Hxin.
           assert (existsb (sameValueZero x) seen = true); [|congruence].
           apply existsb_exists. exists x. split.
           ++ now apply list_elem_of_In.
           ++ now apply isTopicValue_sameValueZero.
        -- apply Hin in Hy as [Hy1 Hy2]. split; [now right|].
           intros Hys. apply Hy2. now right.
Qed.

Lemma NoDup_take {A} (l : list A) (n : nat) : NoDup l -> NoDup (take n l).
Proof. intros Hnd. eapply sublist_NoDup; [exact Hnd|apply sublist_take]. Qed.

(** The topics the analysis validator returns, read off its definition. *)
Lemma validateAnalysisStructure_topics (H : host) (analysis out : jsval) :
  validateAnalysisStructure H analysis = Ok out ->
  exists topicsRaw mapped,
    getProp analysis "topics" = JArr topicsRaw /\
    mapM (mapTopic H) topicsRaw = Ok mapped /\
    getProp out "topics"
    = JArr (match filter (fun v => truthy v = true) mapped with
            | [] => map JStr (take 3 Config.videoTopics)
            | _ => take 3 (setFrom [] (filter (fun v => truthy v = true) mapped))
            end).
Proof.
  unfold validateAnalysisStructure. intros E. ok_steps.
  destruct (getProp analysis "topics") as [| | | | |topicsRaw| |] eqn:Ht;
    try discriminate Ea3.
  injection Ea3 as <-. subst out. exists topicsRaw. eexists.
  split; [reflexivity|]. split; [eassumption|]. reflexivity.
Qed.

Lemma mapped_topic_values (H : host) (topicsRaw mapped : list jsval) :
  mapM (mapTopic H) topicsRaw = Ok mapped ->
  Forall isTopicValue (filter (fun v => truthy v = true) mapped).
Proof.
  intros Hm. apply mapM_ok_Forall2 in Hm.
  induction Hm as [|x y l out Hxy _ IH]; [constructor|].
  rewrite filter_cons. destruct (decide (truthy y = true)) as [Hy|Hy];
    [|exact IH].
  constructor; [|exact IH]. eapply mapTopic_value; eassumption.
Qed.

(** C10. The topics list returned by the analysis validator has no duplicate
    entries, whatever the input repeats. *)
Theorem analysis_topics_nodup (H : host) (analysis out : jsval) :
  validateAnalysisStructure H analysis = Ok out ->
  exists topics, getProp out "topics" = JArr topics /\ NoDup topics.
Proof.
  intros E.
  destruct (validateAnalysisStructure_topics _ _ _ E)
    as (topicsRaw & mapped & _ & Hm & ->).
  eexists. split; [reflexivity|].
  pose proof (mapped_topic_values _ _ _ Hm) as Hvals.
  destruct (filter (fun v => truthy v = true) mapped) as [|v vs] eqn:Hf.
  - vm_compute.
    repeat (apply NoDup_cons; split); try apply NoDup_nil_2;
      rewrite ?elem_of_cons, ?elem_of_nil; intros Hin;
      decompose [or] Hin; try discriminate; assumption.
  - apply NoDup_take, setFrom_spec, Hvals.
Qed.

Lemma analysis_topics_nodup_witness :
  exists out topics,
    validateAnalysisStructure Samples.asciiHost
      (Samples.analysisOf ["Technology"; "technology"; "TECHNOLOGY";
                           "Education"; "unknown"]) = Ok out /\
    getProp out "topics" = JArr topics /\
    topics = [JStr (str "Technology"); JStr (str "Education")] /\
    NoDup topics.
Proof.
  destruct (validateAnalysisStructure Samples.asciiHost
              (Samples.analysisOf ["Technology"; "technology"; "TECHNOLOGY";
                                   "Education"; "unknown"]))
    as [out|e] eqn:Hv; [|vm_compute in Hv; discriminate Hv].
  destruct (analysis_topics_nodup _ _ _ Hv) as (topics & Ht & Hnd).
  exists out, topics. split; [reflexivity|]. split; [exact Ht|].
  split; [|exact Hnd].
  vm_compute in Hv. injection Hv as <-. vm_compute in Ht.
  injection Ht as <-. reflexivity.
Defined.

(** Every topic the analysis validator returns is a catalog entry in catalog
    casing or a member inherited from [Object.prototype], and there are at
    most three of them. *)
Lemma analysis_topics_values (H : host) (analysis out : jsval) :
  validateAnalysisStructure H analysis = Ok out ->
  exists topics,
    getProp out "topics" = JArr topics /\
    length topics <= 3 /\
    Forall isTopicValue topics.
Proof.
  intros E.
  destruct (validateAnalysisStructure_topics _ _ _ E)
    as (topicsRaw & mapped & _ & Hm & ->).
  eexists. split; [reflexivity|].
  pose proof (mapped_topic_values _ _ _ Hm) as Hvals.
  destruct (filter (fun v => truthy v = true) mapped) as [|v vs] eqn:Hf.
  - split; [vm_compute; lia|].
    apply Forall_forall. intros x Hx. left.
    apply list_elem_of_In, in_map_iff in Hx as (t & <- & Ht).
    exists t. split; [reflexivity|].
    eapply subseteq_take, list_elem_of_In, Ht.
  - split; [rewrite length_take; lia|].
    apply Forall_forall. intros x Hx.
    apply subseteq_take in Hx.
    destruct (setFrom_spec (v :: vs) [] Hvals) as [_ Hin].
    apply Hin in Hx as [Hx _].
    rewrite Forall_forall in Hvals. now apply Hvals.
Qed.

(** C6 at the failing input.  For the topic "constructor" the lookup finds
    [Object.prototype.constructor]: the validator accepts the analysis and
    returns a topics list whose only entry is that function, which is no
    catalog entry. *)
Theorem analysis_topic_constructor (H : host) :
  exists out,
    validateAnalysisStructure H (Samples.analysisOf ["constructor"]) = Ok out /\
    getProp out "topics" = JArr [JNative ObjectFunction] /\
    JNative ObjectFunction ∉ map JStr Config.videoTopics.
Proof.
  eexists. split; [vm_compute; reflexivity|]. split; [reflexivity|].
  intros Hin. apply list_elem_of_In, in_map_iff in Hin as (t & Ht & _).
  discriminate Ht.
Qed.

(** C8 at the failing input.  The analysis validator accepts the analysis
    with the topic "constructor" and rejects its own output, because the
    returned topics list holds a function where it expects strings. *)
Theorem analysis_revalidation_fails (H : host) :
  exists out,
    validateAnalysisStructure H (Samples.analysisOf ["constructor"]) = Ok out /\
    validateAnalysisStructure H out
    = Throw (ValidationError "analysis.topics[index] must be a string").
Proof.
  eexists. split; [vm_compute; reflexivity|]. vm_compute. reflexivity.
Qed.

(** ** Segmenter *)

Import Whisper.

Lemma nonBlank_trim (s : jsstring) : nonBlank (trim s) = nonBlank s.
Proof.
  apply existsb_trim. intros c Hc. now apply negb_true_iff in Hc.
Qed.

Lemma trimStart_blank (s : jsstring) : nonBlank s = false -> trimStart s = [].
Proof.
  induction s as [|c s IH]; simpl; [reflexivity|].
  destruct (isWhiteSpace c); simpl; [exact IH|discriminate].
Qed.

(** A trimmed string is empty exactly when the string is blank. *)
Lemma trim_nonempty (s : jsstring) : trim s <> [] <-> nonBlank s = true.
Proof.
  split.
  - intros Hne. destruct (nonBlank s) eqn:Hb; [reflexivity|].
    exfalso. apply Hne. unfold trim. now rewrite trimStart_blank.
  - intros Hb Hnil. rewrite <- nonBlank_trim, Hnil in Hb. discriminate Hb.
Qed.

Lemma nonBlank_app (a b : jsstring) :
  nonBlank (a ++ b) = nonBlank a || nonBlank b.
Proof. apply existsb_app. Qed.

Lemma nonBlank_dropSpaceBeforeClosing (s : jsstring) :
  nonBlank (dropSpaceBeforeClosing s) = nonBlank s.
Proof.
  induction s as [|c s IH]; simpl; [reflexivity|].
  destruct (isWhiteSpace c) eqn:Ec; simpl.
  - destruct (closingAhead s); simpl; rewrite ?Ec; exact IH.
  - rewrite Ec. reflexivity.
Qed.

Lemma nonBlank_dropSpaceAfterParen (after : bool) (s : jsstring) :
  nonBlank (dropSpaceAfterParen after s) = nonBlank s.
Proof.
  revert after. induction s as [|c s IH]; intros after; simpl; [reflexivity|].
  destruct (isWhiteSpace c) eqn:Ec; destruct after; simpl; rewrite ?Ec, ?IH;
    reflexivity.
Qed.

Lemma wellFormed_source (w : wordEntry) :
  wellFormed w ->
  nonBlank (if negb (streq (w_originalText w) []) then w_originalText w
            else w_text w) = true.
Proof.
  intros [Ht Hne]. rewrite Ht in Hne. apply trim_nonempty in Hne.
  destruct (w_originalText w); [discriminate Hne|exact Hne].
Qed.

(** A step of the reduction with a well-formed word leaves a text that is
    not blank. *)
Lemma composeStep_nonBlank (acc : jsstring) (w : wordEntry) :
  wellFormed w -> nonBlank (composeStep acc w) = true.
Proof.
  intros Hw. apply wellFormed_source in Hw. unfold composeStep.
  set (source := if negb (streq (w_originalText w) []) then w_originalText w
                 else w_text w) in *.
  assert (Ht : nonBlank (trim source) = true) by now rewrite nonBlank_trim.
  destruct (streq (trim source) []) eqn:Ee.
  { apply streq_spec in Ee. rewrite Ee in Ht. discriminate Ht. }
  repeat match goal with |- context [if ?c then _ else _] => destruct c end;
    rewrite ?nonBlank_app, ?Ht, ?orb_true_r; reflexivity.
Qed.

Lemma composeStep_keeps (acc : jsstring) (w : wordEntry) :
  nonBlank acc = true -> nonBlank (composeStep acc w) = true.
Proof.
  intros Ha. unfold composeStep.
  destruct (streq (trim _) []); [exact Ha|].
  destruct (streq acc []) eqn:Hs.
  { apply streq_spec in Hs. subst acc. discriminate Ha. }
  repeat match goal with |- context [if ?c then _ else _] => destruct c end;
    rewrite ?nonBlank_app, ?Ha; reflexivity.
Qed.

Lemma fold_composeStep_keeps (ws : list wordEntry) (acc : jsstring) :
  nonBlank acc = true -> nonBlank (fold_left composeStep ws acc) = true.
Proof.
  revert acc. induction ws as [|w ws IH]; intros acc Ha; simpl; [exact Ha|].
  apply IH, composeStep_keeps, Ha.
Qed.

(** The text of a buffer of well-formed words is never empty, so [flush]
    always pushes its chunk. *)
Lemma composeChunkText_nonempty (buffer : list wordEntry) :
  buffer <> [] -> Forall wellFormed buffer -> composeChunkText buffer <> [].
Proof.
  intros Hne Hwf. destruct buffer as [|w ws]; [contradiction|].
  apply Forall_cons in Hwf as [Hw _].
  unfold composeChunkText. apply trim_nonempty.
  rewrite nonBlank_dropSpaceAfterParen, nonBlank_dropSpaceBeforeClosing.
  simpl. apply fold_composeStep_keeps, composeStep_nonBlank, Hw.
Qed.

Lemma streq_false (a b : jsstring) : a <> b -> streq a b = false.
Proof.
  intros Hne. destruct (streq a b) eqn:E; [|reflexivity].
  apply streq_spec in E. contradiction.
Qed.

Lemma normalizeEntry_wellFormed (H : host) (entry : jsval) (w : wordEntry) :
  normalizeEntry H entry = Ok (Some w) -> wellFormed w.
Proof.
  unfold normalizeEntry.
  destruct (negb (isObjectLike entry)); [discriminate|].
  destruct (orElse _ _) as [| | | |raw| | |] eqn:Hraw; try discriminate.
  destruct (streq (trim raw) []) eqn:Hblank; [discriminate|].
  intros [= <-]. split; simpl; [reflexivity|].
  intros Hnil. rewrite Hnil in Hblank. discriminate Hblank.
Qed.

(** A word entry of the engine is kept by the normalization. *)
Lemma normalizeEntry_word (H : host) (entry : jsval) :
  isWordEntry entry ->
  exists w, normalizeEntry H entry = Ok (Some w) /\ w_text w <> [].
Proof.
  intros (Hobj & raw & Hraw & Hne). unfold normalizeEntry.
  rewrite Hobj, Hraw. simpl negb. cbv iota.
  assert (Hraw' : raw <> []) by (intros ->; apply Hne; reflexivity).
  unfold orElse. simpl truthy. rewrite (streq_false _ _ Hraw'). simpl.
  rewrite (streq_false _ _ Hne).
  eexists. split; [reflexivity|]. exact Hne.
Qed.

Lemma insertByStart_length (x : wordEntry) (l : list wordEntry) :
  length (insertByStart x l) = S (length l).
Proof.
  induction l as [|y l IH]; simpl; [reflexivity|].
  destruct (ltb _ _); simpl; [reflexivity|now rewrite IH].
Qed.

Lemma insertByStart_Forall (P : wordEntry -> Prop) (x : wordEntry)
    (l : list wordEntry) :
  P x -> Forall P l -> Forall P (insertByStart x l).
Proof.
  intros Hx Hl. induction Hl as [|y l Hy Hl IH]; simpl.
  - now constructor.
  - destruct (ltb _ _); repeat constructor; assumption.
Qed.

Lemma sortByStart_spec (P : wordEntry -> Prop) (l : list wordEntry) :
  length (sortByStart l) = length l /\
  (Forall P l -> Forall P (sortByStart l)).
Proof.
  unfold sortByStart.
  assert (Hgen : forall acc,
             length (fold_left (fun acc x => insertByStart x acc) l acc)
             = length acc + length l /\
             (Forall P acc -> Forall P l ->
              Forall P (fold_left (fun acc x => insertByStart x acc) l acc))).
  { induction l as [|x l IH]; intros acc; simpl.
    - split; [lia|auto].
    - destruct (IH (insertByStart x acc)) as [Hlen Hall]. split.
      + rewrite Hlen, insertByStart_length. lia.
      + intros Hacc Hl. apply Forall_cons in Hl as [Hx Hl].
        apply Hall; [now apply insertByStart_Forall|exact Hl]. }
  destruct (Hgen []) as [Hlen Hall]. split; [exact Hlen|].
  intros Hl. apply Hall; [constructor|exact Hl].
Qed.

Lemma keepEntries_wellFormed (H : host) (items : list jsval)
    (mapped : list (option wordEntry)) :
  mapM (normalizeEntry H) items = Ok mapped ->
  Forall wellFormed (keepEntries mapped).
Proof.
  intros Hm. apply mapM_ok_Forall2 in Hm.
  induction Hm as [|x y l out Hxy _ IH]; [constructor|].
  unfold keepEntries in *. simpl.
  destruct y as [w|]; [|exact IH].
  destruct (negb (streq (w_text w) [])); [|exact IH].
  constructor; [|exact IH]. eapply normalizeEntry_wellFormed, Hxy.
Qed.

Lemma normalizeWordEntries_wellFormed (H : host) (entries : jsval)
    (normalized : list wordEntry) :
  normalizeWordEntries H entries = Ok normalized ->
  Forall wellFormed normalized.
Proof.
  unfold normalizeWordEntries.
  destruct entries as [| | | | |items| |]; try (intros [= <-]; constructor).
  intros E. ok_steps. subst normalized.
  apply sortByStart_spec. eapply keepEntries_wellFormed. eassumption.
Qed.

(** On the word entries of the engine the normalization returns, and it
    keeps every entry. *)
Lemma normalizeWordEntries_words (H : host) (items : list jsval) :
  Forall isWordEntry items ->
  exists normalized,
    normalizeWordEntries H (JArr items) = Ok normalized /\
    length normalized = length items.
Proof.
  intros Hitems. unfold normalizeWordEntries.
  assert (Hm : exists mapped,
             mapM (normalizeEntry H) items = Ok mapped /\
             length (keepEntries mapped) = length items).
  { induction Hitems as [|x l Hx _ (mapped & Hm & Hlen)].
    - exists []. split; reflexivity.
    - destruct (normalizeEntry_word H x Hx) as (w & Hw & Hne).
      exists (Some w :: mapped). simpl. rewrite Hw, Hm. simpl.
      split; [reflexivity|]. unfold keepEntries in *. simpl.
      rewrite (streq_false _ _ Hne). simpl. now rewrite Hlen. }
  destruct Hm as (mapped & -> & Hlen). simpl.
  eexists. split; [reflexivity|].
  rewrite <- Hlen. apply (sortByStart_spec (fun _ => True)).
Qed.

(** [flush] on a buffer of well-formed words pushes exactly one chunk. *)
Lemma flush_wellFormed (groups : list chunk) (buffer : list wordEntry) :
  buffer <> [] -> Forall wellFormed buffer ->
  flush (groups, buffer) = (groups ++ [chunkOf buffer], []).
Proof.
  intros Hne Hwf. unfold flush.
  destruct buffer as [|w ws]; [contradiction|].
  rewrite (streq_false (c_text (chunkOf (w :: ws))) []); [reflexivity|].
  now apply composeChunkText_nonempty.
Qed.

(** The groups the loop and the closing [flush] produce are the chunks of
    the buffers listed by [segments]. *)
Lemma groupLoop_segments (p : parameters) (entries : list wordEntry) :
  forall groups buffer,
    Forall wellFormed (buffer ++ entries) ->
    flush (groupLoop p (groups, buffer) entries)
    = (groups ++ map chunkOf (segments p buffer entries), []).
Proof.
  induction entries as [|entry rest IH]; intros groups buffer Hwf;
    cbn [groupLoop segments fst snd].
  - rewrite app_nil_r in Hwf. destruct buffer as [|w ws].
    + simpl. now rewrite app_nil_r.
    + now rewrite flush_wellFormed.
  - assert (Hbuf : Forall wellFormed (buffer ++ [entry])).
    { apply Forall_app in Hwf as [Hb Hr]. apply Forall_cons in Hr as [He _].
      apply Forall_app. split; [exact Hb|]. now constructor. }
    assert (Hrest : Forall wellFormed rest).
    { apply Forall_app in Hwf as [_ Hr]. now apply Forall_cons in Hr as [_ Hr]. }
    destruct (flushesAfter p (buffer ++ [entry]) entry rest).
    + rewrite flush_wellFormed; [|now destruct buffer|exact Hbuf].
      rewrite IH by exact Hrest. simpl. now rewrite <- app_assoc.
    + apply IH. now rewrite <- app_assoc.
Qed.

Lemma segments_concat (p : parameters) (entries : list wordEntry) :
  forall buffer, concat (segments p buffer entries) = buffer ++ entries.
Proof.
  induction entries as [|entry rest IH]; intros buffer; simpl.
  - destruct buffer; simpl; now rewrite ?app_nil_r.
  - destruct (flushesAfter _ _ _ _); simpl; rewrite IH.
    + now rewrite <- app_assoc.
    + now rewrite <- app_assoc.
Qed.

Lemma segments_nonempty (p : parameters) (entries : list wordEntry) :
  forall buffer, Forall (fun b => b <> []) (segments p buffer entries).
Proof.
  induction entries as [|entry rest IH]; intros buffer; simpl.
  - destruct buffer; repeat constructor. discriminate.
  - destruct (flushesAfter _ _ _ _); [constructor|]; try apply IH.
    now destruct buffer.
Qed.

Lemma length_concat_sum {A} (l : list (list A)) :
  length (concat l) = sum_list_with length l.
Proof.
  induction l as [|x l IH]; simpl; [reflexivity|].
  now rewrite length_app, IH.
Qed.

(** C5. The segmenter returns the empty list when the normalized input is
    empty; otherwise it returns at least one chunk, the chunks are built from
    consecutive non-empty groups of the normalized words whose concatenation
    is the whole normalized input, so every word is in exactly one chunk and
    the word counts of the chunks add up to the number of words.  This
    holds for every override record, the phrase and the word parameters
    included.  Word entries with a text that is not blank are all kept by
    the normalization, which returns on them. *)
Theorem group_covers_words (H : host) (cfg : transcriptionConfig)
    (o : overrides) (entries : jsval) :
  (forall normalized,
     normalizeWordEntries H entries = Ok normalized ->
     exists buffers,
       groupWordEntries H cfg entries o = Ok (map chunkOf buffers) /\
       concat buffers = normalized /\
       Forall (fun b => b <> []) buffers /\
       (normalized = [] -> buffers = []) /\
       (normalized <> [] -> 1 <= length buffers) /\
       sum_list_with length buffers = length normalized) /\
  (forall items,
     entries = JArr items -> Forall isWordEntry items ->
     exists normalized,
       normalizeWordEntries H entries = Ok normalized /\
       length normalized = length items).
Proof.
  split.
  - intros normalized Hn.
    pose proof (normalizeWordEntries_wellFormed _ _ _ Hn) as Hwf.
    unfold groupWordEntries. rewrite Hn. simpl Js.bind.
    destruct normalized as [|w ws].
    + exists []. repeat split; auto. intros Hne. contradiction.
    + set (p := parametersOf cfg o). set (normalized := w :: ws) in *.
      rewrite (groupLoop_segments p normalized [] []) by exact Hwf.
      rewrite app_nil_l.
      pose proof (segments_concat p normalized []) as Hcat.
      pose proof (segments_nonempty p normalized []) as Hne.
      rewrite app_nil_l in Hcat.
      destruct (segments p [] normalized) as [|b bs] eqn:Hseg.
      { simpl in Hcat. discriminate Hcat. }
      exists (b :: bs). simpl map.
      split; [reflexivity|]. split; [exact Hcat|]. split; [exact Hne|].
      split; [discriminate|]. split; [simpl; lia|].
      now rewrite <- length_concat_sum, Hcat.
  - intros items -> Hitems. now apply normalizeWordEntries_words.
Qed.

Lemma group_covers_words_witness :
  exists normalized buffers,
    normalizeWordEntries Samples.asciiHost Samples.sevenWords = Ok normalized /\
    length normalized = 7 /\
    groupWordEntries Samples.asciiHost configured Samples.sevenWords
      (phraseOverrides configured) = Ok (map chunkOf buffers) /\
    concat buffers = normalized /\
    sum_list_with length buffers = 7.
Proof.
  destruct (group_covers_words Samples.asciiHost configured
              (phraseOverrides configured) Samples.sevenWords)
    as [Hgroups Hwords].
  destruct (Hwords _ eq_refl) as (normalized & Hn & Hlen).
  { repeat constructor; try reflexivity;
      (eexists; split; [reflexivity|vm_compute; discriminate]). }
  destruct (Hgroups normalized Hn)
    as (buffers & Hg & Hcat & _ & _ & _ & Hsum).
  exists normalized, buffers.
  split; [exact Hn|]. split; [exact Hlen|]. split; [exact Hg|].
  split; [exact Hcat|]. rewrite Hsum. exact Hlen.
Defined.

(** ** Translator *)

Import Translator.

Lemma slices_lookup {A} (fuel n : nat) (items : list A) (i : nat) :
  0 < n -> length items <= fuel ->
  slices fuel n items !! i
  = if i * n <? length items then Some (take n (drop (i * n) items)) else None.
Proof.
  intros Hn. revert items i.
  induction fuel as [|fuel IH]; intros items i Hlen; simpl.
  - destruct items; [|simpl in Hlen; lia].
    simpl. rewrite lookup_nil. now destruct (i * n).
  - destruct items as [|x items].
    + rewrite lookup_nil. simpl. now destruct (i * n).
    + destruct i as [|i].
      * reflexivity.
      * rewrite lookup_cons_ne_0 by lia. simpl pred.
        rewrite IH.
        2:{ rewrite length_drop. simpl in *. lia. }
        rewrite length_drop, drop_drop.
        replace (n + i * n) with (S i * n) by lia.
        destruct (i * n <? length (x :: items) - n) eqn:E1;
          destruct (S i * n <? length (x :: items)) eqn:E2;
          try reflexivity;
          apply Nat.ltb_lt in E1 || apply Nat.ltb_ge in E1;
          apply Nat.ltb_lt in E2 || apply Nat.ltb_ge in E2; lia.
Qed.

Lemma slices_concat {A} (fuel n : nat) (items : list A) :
  0 < n -> length items <= fuel -> concat (slices fuel n items) = items.
Proof.
  intros Hn. revert items.
  induction fuel as [|fuel IH]; intros items Hlen; simpl.
  - destruct items; [reflexivity|simpl in Hlen; lia].
  - destruct items as [|x items]; [reflexivity|].
    simpl concat. rewrite IH.
    + apply take_drop.
    + rewrite length_drop. simpl in *. lia.
Qed.

(** The batches are the consecutive slices of the given size. *)
Lemma chunkArray_lookup {A} (items : list A) (size : nat) (i : nat)
    (batch : list A) :
  0 < size ->
  chunkArray items (Z.of_nat size) !! i = Some batch ->
  batch = take size (drop (i * size) items) /\ length batch <= size.
Proof.
  intros Hsize. unfold chunkArray.
  destruct (Z.of_nat (length items) <=? Z.of_nat size)%Z eqn:E.
  - apply Z.leb_le in E. destruct i as [|i]; [|intros Hl; discriminate Hl].
    intros [= <-]. simpl. rewrite drop_0, take_ge by lia.
    split; [reflexivity|lia].
  - rewrite Nat2Z.id, slices_lookup by lia.
    destruct (i * size <? length items); [|discriminate].
    intros [= <-]. split; [reflexivity|]. rewrite length_take. lia.
Qed.

Lemma chunkArray_concat {A} (items : list A) (size : nat) :
  0 < size -> concat (chunkArray items (Z.of_nat size)) = items.
Proof.
  intros Hsize. unfold chunkArray.
  destruct (Z.of_nat (length items) <=? Z.of_nat size)%Z.
  - simpl. apply app_nil_r.
  - rewrite Nat2Z.id. now apply slices_concat.
Qed.

Lemma indicesOf_payloadOf (offset : nat) (chunk : list jsval) :
  indicesOf (payloadOf offset chunk)
  = map ofNat (seq offset (length chunk)).
Proof.
  unfold indicesOf, payloadOf. revert offset.
  induction chunk as [|c chunk IH]; intros offset; [reflexivity|].
  simpl. rewrite Nat.add_0_r. f_equal.
  rewrite <- IH. f_equal. apply imap_ext. intros i x _. simpl.
  f_equal. f_equal. lia.
Qed.

Section TranslationFacts.

Variable H : host.
Variable env : Config.environment.
Variable llm : nat -> response.

(** The single-line retry never throws. *)
Lemma translateSingleLine_returns (text : jsstring) (n : nat) :
  exists s n', translateSingleLineWithGemini llm text n = (Ok s, n').
Proof.
  unfold translateSingleLineWithGemini, andThen, generateContent, ret.
  destruct (streq text []); [eauto|].
  destruct (llm n) as [msg|t]; [eauto|].
  destruct (streq (trim t) []); eauto.
Qed.

Lemma settleLine_returns (chunk : list jsval) (i : nat) (current : line)
    (n : nat) :
  exists out n', settleLine llm chunk i current n = (Ok out, n').
Proof.
  unfold settleLine.
  destruct (CYRILLIC_REGEX_test _); [unfold ret; eauto|].
  unfold andThen.
  destruct (translateSingleLine_returns (sourceText chunk i) n)
    as (s & n' & ->).
  unfold ret. eauto.
Qed.

(** The closing loop returns as many lines as it was given. *)
Lemma settleLines_returns (chunk : list jsval) (aligned : list line) :
  forall i n,
    exists out n',
      settleLines llm chunk i aligned n = (Ok out, n') /\
      length out = length aligned.
Proof.
  induction aligned as [|current rest IH]; intros i n; simpl.
  - unfold ret. eauto.
  - unfold andThen at 1.
    destruct (settleLine_returns chunk i current n) as (first & n1 & ->).
    unfold andThen at 1.
    destruct (IH (S i) n1) as (others & n2 & -> & Hlen).
    unfold ret. exists (first :: others), n2. split; [reflexivity|].
    simpl. now rewrite Hlen.
Qed.

(** An attempt that returns gives one line per chunk of the batch. *)
Lemma attempt_length (chunk : list jsval) (offset n n' : nat)
    (out : list line) :
  attempt H llm chunk offset n = (Ok out, n') -> length out = length chunk.
Proof.
  unfold attempt, andThen, generateContent, raise, lift.
  destruct (llm n) as [msg|responseText]; [discriminate|].
  destruct (streq responseText []); [discriminate|].
  destruct (matchArray responseText) as [json|]; [|discriminate].
  destruct (parseRepaired H json) as [[| | | | |parsed| |]|]; try discriminate.
  destruct (normalizeItems _ _ _ _) as [normalized|e]; [|discriminate].
  match goal with
  | |- settleLines _ _ _ ?aligned _ = _ -> _ =>
      destruct (settleLines_returns chunk aligned 0 (S n))
        as (out' & n'' & -> & Hlen)
  end.
  intros [= <- <-]. rewrite Hlen, length_imap.
  unfold payloadOf. apply length_imap.
Qed.

Lemma attempts_length (chunk : list jsval) (offset : nat) (remaining : nat) :
  forall lastError n n' out,
    attempts H llm chunk offset remaining lastError n = (Ok out, n') ->
    length out = length chunk.
Proof.
  induction remaining as [|remaining IH]; intros lastError n n' out; simpl.
  - unfold raise. discriminate.
  - destruct (attempt H llm chunk offset n) as [[aligned|e] n1] eqn:Ea.
    + intros [= <- <-]. eapply attempt_length, Ea.
    + apply IH.
Qed.

(** Pushing the translated lines keeps their number and copies the
    timestamp of the source chunk at the same position. *)
Lemma pushTranslations_spec (segment : list jsval) (translated : list line) :
  forall index pushed,
    pushTranslations segment index translated = Ok pushed ->
    length pushed = length translated /\
    map (fun c => getProp c "timestamp") pushed
    = map (fun c => getProp c "timestamp")
          (take (length translated) (drop index segment)).
Proof.
  induction translated as [|item rest IH]; intros index pushed; simpl.
  - intros [= <-]. split; reflexivity.
  - destruct (segment !! index) as [sourceChunk|] eqn:Hs; [|discriminate].
    intros E. ok_steps. subst pushed.
    destruct (IH (S index) _ Ea) as [Hlen Hts].
    split; [simpl; now rewrite Hlen|].
    rewrite (drop_S _ _ _ Hs). simpl. f_equal. exact Hts.
Qed.

Lemma pushTranslations_returns (segment : list jsval)
    (translated : list line) :
  forall index,
    index + length translated <= length segment ->
    exists pushed, pushTranslations segment index translated = Ok pushed.
Proof.
  induction translated as [|item rest IH]; intros index Hlen; simpl.
  - eauto.
  - destruct (lookup_lt_is_Some_2 segment index) as [sourceChunk ->];
      [simpl in Hlen; lia|].
    destruct (IH (S index)) as (others & ->); [simpl in Hlen; lia|].
    simpl. eauto.
Qed.

(** The loop over the batches appends, for every chunk of every batch, one
    translation with the timestamp of that chunk. *)
Lemma translateBatches_spec (chunked : list (list jsval)) :
  forall translations n n' out,
    translateBatches H env llm chunked translations n = (Ok out, n') ->
    exists pushed,
      out = translations ++ pushed /\
      length pushed = length (concat chunked) /\
      map (fun c => getProp c "timestamp") pushed
      = map (fun c => getProp c "timestamp") (concat chunked).
Proof.
  induction chunked as [|segment rest IH]; intros translations n n' out; simpl.
  - unfold ret. intros [= <- <-]. exists []. now rewrite app_nil_r.
  - unfold andThen at 1.
    destruct (translateChunkWithGemini _ _ _ _ _ _) as [[translated|e] n1]
      eqn:Et; [|discriminate].
    apply attempts_length in Et.
    unfold andThen at 1, lift.
    destruct (pushTranslations segment 0 translated) as [pushed|e] eqn:Ep;
      [|discriminate].
    apply pushTranslations_spec in Ep as [Hlen Hts].
    rewrite Et, drop_0, take_ge in Hts by lia.
    intros E. apply IH in E as (pushed' & -> & Hlen' & Hts').
    exists (pushed ++ pushed'). split; [now rewrite app_assoc|].
    rewrite length_app, !map_app, length_app. split; [lia|].
    now rewrite Hts, Hts'.
Qed.

End TranslationFacts.

(** * Further properties of the validators *)

Lemma getProp_here (k : string) (v : jsval) (fs : list (jsstring * jsval)) :
  getProp (JObj ((str k, v) :: fs)) k = v.
Proof.
  unfold getProp, getMember. simpl lookupOwn. now rewrite streq_refl.
Qed.

Lemma getProp_skip (k : string) (k' : jsstring) (v : jsval)
    (fs : list (jsstring * jsval)) :
  streq k' (str k) = false ->
  getProp (JObj ((k', v) :: fs)) k = getProp (JObj fs) k.
Proof.
  intros Hne. unfold getProp, getMember. simpl lookupOwn. now rewrite Hne.
Qed.

(** Read a field of an object literal. *)
Ltac read_obj :=
  repeat (rewrite getProp_here || rewrite getProp_skip by reflexivity).

Lemma assertNumber_ok (v : jsval) (name : string) (n : number) :
  assertNumber v name = Ok n -> v = JNum n /\ Number_isNaN n = false.
Proof.
  destruct v as [| | |m| | | |]; simpl; try discriminate.
  destruct (Number_isNaN m) eqn:E; [discriminate|].
  intros [= <-]. split; [reflexivity|exact E].
Qed.

(** What [validateChunk] has checked when it returns. *)
Lemma validateChunk_inv (label : string) (c out : jsval) :
  validateChunk label c = Ok out ->
  exists raw t0 t1,
    nullish (getProp c "text") (JStr []) = JStr raw /\
    nullish (getProp c "timestamp")
      (nullish (getProp c "time") (JArr [JNum (ofNat 0); JNum (ofNat 0)]))
    = JArr [JNum t0; JNum t1] /\
    Number_isNaN t0 = false /\ Number_isNaN t1 = false /\
    out = JObj [(str "text", JStr (trim raw));
                (str "timestamp", JArr [JNum t0; JNum t1])].
Proof.
  unfold validateChunk, normalizeTimestamp. intros E. ok_steps.
  apply assertString_ok in Ea as (raw & Hraw & ->).
  destruct (nullish (getProp c "timestamp") _) as [| | | | |arr| |] eqn:Hts;
    try discriminate Ea1.
  injection Ea1 as <-.
  apply Nat.eqb_eq in Ec0.
  destruct arr as [|x0 [|x1 [|x2 arr]]]; try discriminate Ec0.
  unfold item in *. simpl nth in *.
  apply assertNumber_ok in Ea2 as [-> H0]. apply assertNumber_ok in Ea3 as [-> H1].
  subst. eauto 10.
Qed.

Lemma validateChunk_valid (label : string) (c out : jsval) :
  validateChunk label c = Ok out -> validChunk out.
Proof.
  intros E. apply validateChunk_inv in E
    as (raw & t0 & t1 & _ & _ & H0 & H1 & ->).
  exists (trim raw), t0, t1. split; [reflexivity|].
  split; [apply trim_idem|]. split; assumption.
Qed.

(** A valid chunk is returned unchanged. *)
Lemma validateChunk_fixed (label : string) (c : jsval) :
  validChunk c -> validateChunk label c = Ok c.
Proof.
  intros (text & t0 & t1 & -> & Htrim & H0 & H1).
  unfold validateChunk, normalizeTimestamp. simpl isObjectLike. cbv iota.
  read_obj. simpl nullish. simpl assertString. rewrite Htrim. simpl Js.bind.
  unfold item. simpl. rewrite H0, H1. reflexivity.
Qed.

(** Everything [validateTranscriptionStructure] has checked when it
    returns. *)
Lemma validateTranscriptionStructure_inv (view : jsval) (label : string)
    (out : jsval) :
  validateTranscriptionStructure view label = Ok out ->
  exists raw chunksRaw chunks,
    isObjectLike view = true /\
    viewText view = JStr raw /\
    orElse (getProp view "chunks") (JArr []) = JArr chunksRaw /\
    Forall2 (fun c c' => validateChunk label c = Ok c') chunksRaw chunks /\
    out = JObj [(str "fullText", JStr (trim raw)); (str "text", JStr (trim raw));
                (str "chunks", JArr chunks)].
Proof.
  unfold validateTranscriptionStructure. intros E. ok_steps.
  apply assertString_ok in Ea as (raw & Hraw & ->).
  destruct (orElse _ _) as [| | | | |chunksRaw| |] eqn:Hc; try discriminate E.
  ok_steps. subst out. apply mapM_ok_Forall2 in Ea.
  exists raw, chunksRaw. eexists. repeat split; try eassumption.
Qed.

Lemma validChunks_fixed (label : string) (chunks : list jsval) :
  Forall validChunk chunks -> mapM (validateChunk label) chunks = Ok chunks.
Proof.
  intros Hall. apply Forall2_mapM_ok.
  induction Hall as [|c chunks Hc _ IH]; constructor; [|exact IH].
  now apply validateChunk_fixed.
Qed.

(** A view made of trimmed text and valid chunks is returned unchanged. *)
Lemma validateTranscriptionStructure_fixed (label : string) (text : jsstring)
    (chunks : list jsval) :
  trim text = text -> Forall validChunk chunks ->
  validateTranscriptionStructure
    (JObj [(str "fullText", JStr text); (str "text", JStr text);
           (str "chunks", JArr chunks)]) label
  = Ok (JObj [(str "fullText", JStr text); (str "text", JStr text);
              (str "chunks", JArr chunks)]).
Proof.
  intros Htrim Hall. unfold validateTranscriptionStructure, viewText.
  simpl isObjectLike. cbv iota. read_obj. simpl nullish. simpl assertString.
  rewrite Htrim. simpl Js.bind. unfold orElse. simpl truthy. cbv iota.
  rewrite validChunks_fixed by exact Hall. reflexivity.
Qed.

Lemma Forall2_validChunks (label : string) (chunksRaw chunks : list jsval) :
  Forall2 (fun c c' => validateChunk label c = Ok c') chunksRaw chunks ->
  Forall validChunk chunks.
Proof.
  induction 1 as [|c c' l l' Hc _ IH]; constructor; [|exact IH].
  eapply validateChunk_valid, Hc.
Qed.

(** X1. The transcription validator (and the translation validator, which is
    the same function) is idempotent: it accepts a view it returned, under
    any label, and returns it unchanged. *)
Theorem transcription_validator_idempotent (view : jsval) (label label' : string)
    (out : jsval) :
  validateTranscriptionStructure view label = Ok out ->
  validateTranscriptionStructure out label' = Ok out /\
  validateTranslationStructure out = Ok out.
Proof.
  intros E. apply validateTranscriptionStructure_inv in E
    as (raw & chunksRaw & chunks & _ & _ & _ & Hchunks & ->).
  apply Forall2_validChunks in Hchunks.
  split; apply validateTranscriptionStructure_fixed;
    auto using trim_idem.
Qed.

Lemma transcription_validator_idempotent_witness :
  exists out,
    validateTranscriptionStructure (getProp Samples.variantsGood "words")
      "transcription.words" = Ok out /\
    validateTranscriptionStructure out "translation" = Ok out.
Proof.
  destruct (validateTranscriptionStructure (getProp Samples.variantsGood "words")
              "transcription.words") as [out|e] eqn:E;
    [|vm_compute in E; discriminate E].
  exists out. split; [reflexivity|].
  exact (proj1 (transcription_validator_idempotent _ _ "translation" _ E)).
Defined.

(** X2. A view returned by the transcription validator is determined by
    the input.  Its [fullText] and [text] are the trimmed string the input
    holds under [fullText], else under [text], else the empty string.  It
    has as many chunks as the input, in the same order, and chunk i holds
    nothing but the trimmed text of input chunk i (the empty string when it
    has none) and the two numbers, neither NaN, that input chunk i holds
    under [timestamp], else under [time], else [[0, 0]]. *)
Theorem transcription_view_shape (view : jsval) (label : string) (out : jsval) :
  validateTranscriptionStructure view label = Ok out ->
  exists raw chunksRaw chunks,
    nullish (getProp view "fullText") (nullish (getProp view "text") (JStr []))
    = JStr raw /\
    orElse (getProp view "chunks") (JArr []) = JArr chunksRaw /\
    out = JObj [(str "fullText", JStr (trim raw));
                (str "text", JStr (trim raw));
                (str "chunks", JArr chunks)] /\
    length chunks = length chunksRaw /\
    (forall i c,
        chunksRaw !! i = Some c ->
        exists rawText t0 t1,
          nullish (getProp c "text") (JStr []) = JStr rawText /\
          nullish (getProp c "timestamp")
            (nullish (getProp c "time")
               (JArr [JNum (ofNat 0); JNum (ofNat 0)]))
          = JArr [JNum t0; JNum t1] /\
          Number_isNaN t0 = false /\ Number_isNaN t1 = false /\
          chunks !! i
          = Some (JObj [(str "text", JStr (trim rawText));
                        (str "timestamp", JArr [JNum t0; JNum t1])])) /\
    (forall i c c',
        chunksRaw !! i = Some c -> chunks !! i = Some c' ->
        nullish (getProp c "timestamp") (nullish (getProp c "time") JNull)
        = JNull ->
        getProp c' "timestamp" = JArr [JNum (ofNat 0); JNum (ofNat 0)]).
Proof.
  intros E. apply validateTranscriptionStructure_inv in E
    as (raw & chunksRaw & chunks & _ & Hraw & Hc & Hchunks & ->).
  exists raw, chunksRaw, chunks.
  split; [exact Hraw|]. split; [exact Hc|]. split; [reflexivity|].
  split; [symmetry; eapply Forall2_length, Hchunks|].
  split.
  - intros i c Hi.
    destruct (Forall2_lookup_l _ _ _ _ _ Hchunks Hi) as (c' & Hi' & Hv).
    apply validateChunk_inv in Hv
      as (rawText & t0 & t1 & Htext & Hts & H0 & H1 & ->).
    exists rawText, t0, t1. repeat split; assumption.
  - intros i c c' Hi Hi' Hnull.
    pose proof (Forall2_lookup_lr _ _ _ _ _ _ Hchunks Hi Hi') as Hv.
    apply validateChunk_inv in Hv as (r & t0 & t1 & _ & Hts & _ & _ & ->).
    read_obj. rewrite <- Hts.
    destruct (getProp c "timestamp"); try discriminate Hnull;
      destruct (getProp c "time"); try discriminate Hnull; reflexivity.
Qed.

Lemma transcription_view_shape_witness :
  exists out,
    validateTranscriptionStructure
      (Samples.obj [("text", JStr (str " hi "));
                    ("chunks", JArr [Samples.obj [("text", JStr (str "hi"))]])])
      "transcription" = Ok out /\
    getProp out "fullText" = JStr (str "hi") /\
    getProp out "chunks"
    = JArr [JObj [(str "text", JStr (str "hi"));
                  (str "timestamp", JArr [JNum (ofNat 0); JNum (ofNat 0)])]].
Proof.
  destruct (validateTranscriptionStructure
              (Samples.obj [("text", JStr (str " hi "));
                            ("chunks",
                             JArr [Samples.obj [("text", JStr (str "hi"))]])])
              "transcription") as [out|e] eqn:E;
    [|vm_compute in E; discriminate E].
  destruct (transcription_view_shape _ _ _ E)
    as (raw & chunksRaw & chunks & Hraw & Hc & -> & Hlen & Hchunk & _).
  vm_compute in Hraw. injection Hraw as <-.
  vm_compute in Hc. injection Hc as <-.
  destruct (Hchunk 0 _ eq_refl)
    as (rawText & t0 & t1 & Htext & Hts & _ & _ & Hout).
  vm_compute in Htext. injection Htext as <-.
  vm_compute in Hts. injection Hts as <- <-.
  destruct chunks as [|c [|c' chunks]]; try discriminate Hlen.
  injection Hout as ->.
  eexists. split; [reflexivity|]. split; reflexivity.
Defined.

Lemma mapM_throw {A B} (f : A -> result B) (l : list A) (e : error) :
  mapM f l = Throw e -> exists x, x ∈ l /\ f x = Throw e.
Proof.
  induction l as [|x l IH]; simpl; [discriminate|].
  destruct (f x) as [y|e'] eqn:Ex; simpl.
  - destruct (mapM f l) as [ys|e'] eqn:El; simpl; [discriminate|].
    intros [= <-]. destruct (IH eq_refl) as (x' & Hin & Hx').
    exists x'. split; [now right|exact Hx'].
  - intros [= <-]. exists x. split; [now left|exact Ex].
Qed.

Lemma assertString_throw (v : jsval) (name : string) (e : error) :
  assertString v name = Throw e -> exists m, e = ValidationError m.
Proof. destruct v; simpl; intros [= <-]; eauto. Qed.

Lemma assertNumber_throw (v : jsval) (name : string) (e : error) :
  assertNumber v name = Throw e -> exists m, e = ValidationError m.
Proof.
  destruct v as [| | |n| | | |]; simpl; try (intros [= <-]; eauto).
  destruct (Number_isNaN n); intros [= <-]; eauto.
Qed.

(** Peel one step of a validator that threw. *)
Ltac throw_step :=
  match goal with
  | E : Js.bind ?m _ = Throw _ |- _ =>
      let a := fresh "a" in
      let Ea := fresh "E" a in
      destruct m as [a|] eqn:Ea; simpl in E
  | E : (if ?c then _ else Throw _) = Throw _ |- _ =>
      let Ec := fresh "Ec" in
      destruct c eqn:Ec
  end.

Lemma validateChunk_throw (label : string) (c : jsval) (e : error) :
  validateChunk label c = Throw e -> exists m, e = ValidationError m.
Proof.
  unfold validateChunk.
  destruct (isObjectLike c); [|intros [= <-]; eauto].
  destruct (assertString _ _) as [text|e0] eqn:Ht; simpl;
    [|intros [= <-]; eapply assertString_throw, Ht].
  unfold normalizeTimestamp.
  destruct (nullish (getProp c "timestamp") _) as [| | | | |arr| |]; simpl;
    try (intros [= <-]; eauto).
  destruct (length arr =? 2); [|intros [= <-]; eauto].
  destruct (assertNumber (item arr 0) _) as [t0|e0] eqn:H0; simpl;
    [|intros [= <-]; eapply assertNumber_throw, H0].
  destruct (assertNumber (item arr 1) _) as [t1|e1] eqn:H1; simpl;
    [discriminate|intros [= <-]; eapply assertNumber_throw, H1].
Qed.

(** Why the transcription validator throws, by the kind of the error. *)
Lemma validateTranscriptionStructure_throws (view : jsval) (label : string)
    (e : error) :
  validateTranscriptionStructure view label = Throw e ->
  (e = TypeError "chunksRaw.map is not a function" /\
   isObjectLike view = true /\
   (exists raw, viewText view = JStr raw) /\
   truthy (getProp view "chunks") = true /\
   (forall items, getProp view "chunks" <> JArr items)) \/
  ((exists m, e = ValidationError m) /\
   (isObjectLike view = false \/
    (forall raw, viewText view <> JStr raw) \/
    (exists items, orElse (getProp view "chunks") (JArr []) = JArr items))).
Proof.
  unfold validateTranscriptionStructure. intros E.
  destruct (isObjectLike view) eqn:Hobj.
  2:{ right. injection E as <-. split; [eauto|now left]. }
  destruct (assertString (viewText view) _) as [text|e'] eqn:Ht; simpl in E.
  2:{ right. injection E as <-. split; [eapply assertString_throw, Ht|].
      right. left. intros raw Hraw. rewrite Hraw in Ht. discriminate Ht. }
  apply assertString_ok in Ht as (raw & Hraw & ->).
  unfold orElse in *.
  destruct (truthy (getProp view "chunks")) eqn:Htruthy.
  - destruct (getProp view "chunks") as [| | | | |items| |] eqn:Hc;
      try (left; injection E as <-; repeat split; eauto; discriminate).
    right. destruct (mapM _ items) as [chunks|e'] eqn:Hm; simpl in E;
      [discriminate E|]. injection E as <-.
    apply mapM_throw in Hm as (c & _ & Hc'). split; [|right; right; eauto].
    eapply validateChunk_throw, Hc'.
  - simpl in E. discriminate E.
Qed.

(** X3. Error kinds of the transcription validator.  It throws the TypeError
    of [chunksRaw.map] exactly when the input is an object that holds a
    string as its text and, under [chunks], a truthy value that is no
    array; whatever else it throws is a ValidationError. *)
Theorem transcription_validator_errors (view : jsval) (label : string) :
  (validateTranscriptionStructure view label
   = Throw (TypeError "chunksRaw.map is not a function")
   <->
   isObjectLike view = true /\
   (exists raw, viewText view = JStr raw) /\
   truthy (getProp view "chunks") = true /\
   (forall items, getProp view "chunks" <> JArr items)) /\
  (forall e,
      validateTranscriptionStructure view label = Throw e ->
      e = TypeError "chunksRaw.map is not a function" \/
      exists message, e = ValidationError message).
Proof.
  split; [split|].
  - intros E.
    destruct (validateTranscriptionStructure_throws _ _ _ E)
      as [(_ & Hobj & Hraw & Ht & Hc)|((message & Hm) & _)];
      [|discriminate Hm].
    repeat split; assumption.
  - intros (Hobj & (raw & Hraw) & Ht & Hc).
    unfold validateTranscriptionStructure, orElse.
    rewrite Hobj, Hraw, Ht. cbn [assertString Js.bind].
    destruct (getProp view "chunks") as [| | | | |items| |];
      try reflexivity.
    now destruct (Hc items).
  - intros e E.
    destruct (validateTranscriptionStructure_throws _ _ _ E)
      as [(-> & _)|(Hm & _)]; [now left|now right].
Qed.

Lemma transcription_validator_errors_witness :
  let view := Samples.obj [("text", JStr (str "a")); ("chunks", JBool true)] in
  validateTranscriptionStructure view "transcription"
  = Throw (TypeError "chunksRaw.map is not a function").
Proof.
  intros view.
  apply (proj1 (transcription_validator_errors view "transcription")).
  split; [reflexivity|]. split; [now exists (str "a")|].
  split; [reflexivity|]. intros items. discriminate.
Defined.

(** X4. The TranscriptionVariants validator is idempotent: it accepts the
    value it returned and returns it unchanged. *)
Theorem variants_validator_idempotent (v : jsval) (label label' : string)
    (out : jsval) :
  validateTranscriptionVariantsStructure v label = Ok out ->
  validateTranscriptionVariantsStructure out label' = Ok out.
Proof.
  unfold validateTranscriptionVariantsStructure at 1. intros E. ok_steps.
  apply validateTranscriptionStructure_inv in Ea
    as (rp & ? & cp & _ & _ & _ & Hcp & ->).
  apply validateTranscriptionStructure_inv in Ea0
    as (rph & ? & cph & _ & _ & _ & Hcph & ->).
  apply validateTranscriptionStructure_inv in Ea1
    as (rw & ? & cw & _ & _ & _ & Hcw & ->).
  apply Forall2_validChunks in Hcp, Hcph, Hcw.
  revert Ec0. read_obj. simpl strictEq. intros Ec0.
  apply negb_true_iff, orb_false_iff in Ec0 as [E1 E2].
  apply negb_false_iff, streq_spec in E1, E2.
  subst out. unfold validateTranscriptionVariantsStructure.
  simpl isObjectLike. cbv iota. read_obj.
  rewrite !validateTranscriptionStructure_fixed by auto using trim_idem.
  simpl Js.bind. read_obj. simpl strictEq.
  rewrite E1, E2, !streq_refl. reflexivity.
Qed.

Lemma variants_validator_idempotent_witness :
  exists out,
    validateTranscriptionVariantsStructure Samples.variantsGood "transcription"
      = Ok out /\
    validateTranscriptionVariantsStructure out "videoData.transcription"
      = Ok out.
Proof.
  destruct (validateTranscriptionVariantsStructure Samples.variantsGood
              "transcription") as [out|e] eqn:E;
    [|vm_compute in E; discriminate E].
  exists out. split; [reflexivity|].
  exact (variants_validator_idempotent _ _ "videoData.transcription" _ E).
Defined.

(** *** Exercises: the validator on its own output *)

Lemma mapM_assertString_strings (l : list jsstring) :
  mapM (fun opt => s <- assertString opt "exercise[index].options[optIdx]" ;;
                   Ok (JStr s)) (map JStr l)
  = Ok (map JStr (map trim l)).
Proof.
  induction l as [|s l IH]; simpl; [reflexivity|]. now rewrite IH.
Qed.

Lemma map_trim_fixed (l : list jsstring) :
  Forall (fun o => trim o = o) l -> map trim l = l.
Proof.
  induction 1 as [|o l Ho _ IH]; simpl; [reflexivity|]. now rewrite Ho, IH.
Qed.

Lemma Qred_inject_Z_den (z : Z) : Qden (Qred (inject_Z z)) = 1%positive.
Proof.
  pose proof (gcd_Qred (inject_Z z)) as Hg.
  pose proof (Qred_correct (inject_Z z)) as Hc.
  unfold Qeq in Hc. simpl in Hc. rewrite Z.mul_1_r in Hc.
  rewrite Hc, Z.gcd_comm, Z.mul_comm, Z.gcd_mul_diag_l in Hg by lia.
  congruence.
Qed.

Lemma answer_index_checks (q : Q) (k len : nat) :
  Qeq q (inject_Z (Z.of_nat k)) -> k < len ->
  Number_isInteger (Fin q) = true /\
  negb (ltb (Fin q) (ofNat 0) || geb (Fin q) (ofNat len)) = true.
Proof.
  intros Hq Hk. split.
  - simpl. now rewrite (Qred_complete _ _ Hq), Qred_inject_Z_den.
  - simpl. apply negb_true_iff, orb_false_iff. split.
    + apply negb_false_iff, Qle_bool_iff. rewrite Hq.
      change (inject_Z (Z.of_nat 0)) with (inject_Z 0).
      rewrite <- Zle_Qle. lia.
    + destruct (Qle_bool (inject_Z (Z.of_nat len)) q) eqn:E; [|reflexivity].
      apply Qle_bool_iff in E. rewrite Hq, <- Zle_Qle in E. lia.
Qed.

Lemma validateVocabularyExercise_ext (a b : jsval) :
  getProp a "word" = getProp b "word" ->
  getProp a "options" = getProp b "options" ->
  validateVocabularyExercise a = validateVocabularyExercise b.
Proof.
  intros Hw Ho. unfold validateVocabularyExercise. now rewrite Hw, Ho.
Qed.

Lemma validateNonVocabularyOptions_strings (fs : list (jsstring * jsval))
    (options : list jsstring) :
  getProp (JObj fs) "options" = JArr (map JStr options) ->
  validateNonVocabularyOptions (JObj fs) = Ok tt.
Proof.
  intros Ho. unfold validateNonVocabularyOptions. rewrite Ho.
  assert (Hm : exists out,
             mapM (fun option =>
                     assertString option "exercise[index].options[optIdx]")
                  (map JStr options) = Ok out).
  { clear Ho. induction options as [|o options IH]; [exists []; reflexivity|].
    destruct IH as [out IH]. simpl. rewrite IH. simpl. eauto. }
  destruct Hm as [out ->]. reflexivity.
Qed.

(** An exercise object that already holds the normalized fields is returned
    unchanged. *)
Lemma validateExercise_fixed (fs : list (jsstring * jsval))
    (type question : jsstring) (options : list jsstring) (q : Q) (k : nat) :
  lookupOwn fs (str "type") = Some (JStr type) ->
  lookupOwn fs (str "question") = Some (JStr question) ->
  lookupOwn fs (str "options") = Some (JArr (map JStr options)) ->
  lookupOwn fs (str "correctAnswer") = Some (JNum (Fin q)) ->
  trim type = type -> includes EXERCISE_TYPES type = true ->
  trim question = question -> CYRILLIC_REGEX_test question = true ->
  Forall (fun o => trim o = o) options ->
  Qeq q (inject_Z (Z.of_nat k)) -> k < length options ->
  (type = str "vocabulary" -> validateVocabularyExercise (JObj fs) = Ok tt) ->
  validateExercise (JObj fs) = Ok (JObj fs).
Proof.
  intros Hty Hqu Hop Hca Htt Hinc Htq Hcyr Htrim Hq Hk Hvocab.
  destruct (answer_index_checks q k (length (map JStr options)) Hq) as [Hi Hr];
    [now rewrite length_map|].
  unfold validateExercise.
  change (isObjectLike (JObj fs)) with true. cbv iota.
  unfold getProp.
  rewrite (getMember_own _ _ _ Hty), (getMember_own _ _ _ Hqu),
    (getMember_own _ _ _ Hop), (getMember_own _ _ _ Hca).
  cbn [assertString assertArray Js.bind]. rewrite Htt, Htq, Hinc, Hcyr.
  rewrite mapM_assertString_strings, (map_trim_fixed _ Htrim).
  cbn [Js.bind]. rewrite Hi, Hr.
  cbn [spread]. unfold setProps. cbn [fold_left fst snd].
  rewrite (setOwn_same_value _ _ _ Hop).
  rewrite (setOwn_same_value _ _ _ Hqu).
  rewrite (setOwn_same_value _ _ _ Hop).
  rewrite (setOwn_same_value _ _ _ Hca).
  rewrite (setOwn_same_value _ _ _ Hty).
  destruct (streq type (str "vocabulary")) eqn:Ev.
  - apply streq_spec in Ev. rewrite (Hvocab Ev). reflexivity.
  - rewrite (validateNonVocabularyOptions_strings fs options); [reflexivity|].
    unfold getProp. now rewrite (getMember_own _ _ _ Hop).
Qed.

Lemma validateExercise_idempotent (ex out : jsval) :
  validateExercise ex = Ok out -> validateExercise out = Ok out.
Proof.
  intros E.
  destruct (validateExercise_inv _ _ E)
    as (fs & rawType & rawQuestion & raws & q & -> & Htype & Hinc & Hquestion
        & Hcyr & Hopts & Hca & (k & Hq & Hk) & Hvocab & ->).
  unfold setProps. simpl fold_left.
  eapply (validateExercise_fixed _ (trim rawType) (trim rawQuestion)
            (map trim raws) q k).
  - apply lookupOwn_setOwn_same.
  - now rewrite !lookupOwn_setOwn_other, lookupOwn_setOwn_same by reflexivity.
  - now rewrite !lookupOwn_setOwn_other, lookupOwn_setOwn_same by reflexivity.
  - now rewrite !lookupOwn_setOwn_other, lookupOwn_setOwn_same by reflexivity.
  - apply trim_idem.
  - exact Hinc.
  - apply trim_idem.
  - exact Hcyr.
  - apply Forall_forall. intros o Ho.
    apply list_elem_of_In, in_map_iff in Ho as (r & <- & _). apply trim_idem.
  - exact Hq.
  - now rewrite length_map.
  - intros Hv. rewrite Hv in Hvocab. simpl streq in Hvocab.
    rewrite <- Hvocab. apply validateVocabularyExercise_ext.
    + unfold getProp, setProps. simpl fold_left.
      now rewrite !getMember_setOwn_other by reflexivity.
    + unfold getProp, setProps. simpl fold_left.
      rewrite !getMember_setOwn_other by reflexivity.
      now rewrite !getMember_setOwn_same.
Qed.

(** X5. The exercises validator is idempotent: it accepts the array it
    returned and returns it unchanged. *)
Theorem exercises_validator_idempotent (exercises : jsval) (E : list jsval) :
  validateExercisesStructure exercises = Ok E ->
  validateExercisesStructure (JArr E) = Ok E.
Proof.
  unfold validateExercisesStructure at 1. intros Hv. ok_steps. subst E.
  unfold validateExercisesStructure. simpl assertArray. simpl Js.bind at 1.
  assert (Hm : mapM validateExercise a0 = Ok a0).
  { apply mapM_ok_Forall2 in Ea0. apply Forall2_mapM_ok. clear -Ea0.
    induction Ea0 as [|x y l out Hxy _ IH]; constructor; [|exact IH].
    eapply validateExercise_idempotent, Hxy. }
  rewrite Hm. simpl Js.bind. rewrite Ec, Ec0, Ec1. reflexivity.
Qed.

Lemma exercises_validator_idempotent_witness :
  exists E,
    validateExercisesStructure Samples.sixExercises = Ok E /\
    validateExercisesStructure (JArr E) = Ok E.
Proof.
  destruct (validateExercisesStructure Samples.sixExercises) as [E|e] eqn:Hv;
    [|vm_compute in Hv; discriminate Hv].
  exists E. split; [reflexivity|].
  exact (exercises_validator_idempotent _ _ Hv).
Defined.

(** *** Analysis: shape of the result *)

Lemma setFrom_head (x : jsval) (xs : list jsval) :
  exists rest, setFrom [] (x :: xs) = x :: rest.
Proof. simpl. eauto. Qed.

(** Everything the analysis validator has checked when it returns. *)
Lemma validateAnalysisStructure_inv (H : host) (analysis out : jsval) :
  validateAnalysisStructure H analysis = Ok out ->
  exists cefr speed grammar vocabulary topicsRaw mapped,
    includes CEFR_LEVELS cefr = true /\
    includes SPEECH_SPEEDS speed = true /\
    includes GRAMMAR_COMPLEXITIES grammar = true /\
    includes VOCABULARY_COMPLEXITIES vocabulary = true /\
    getProp analysis "topics" = JArr topicsRaw /\
    mapM (mapTopic H) topicsRaw = Ok mapped /\
    out = JObj [(str "cefrLevel", JStr cefr);
                (str "speechSpeed", JStr speed);
                (str "grammarComplexity", JStr grammar);
                (str "vocabularyComplexity", JStr vocabulary);
                (str "topics",
                 JArr (match filter (fun v => truthy v = true) mapped with
                       | [] => map JStr (take 3 Config.videoTopics)
                       | _ => take 3 (setFrom []
                                (filter (fun v => truthy v = true) mapped))
                       end));
                (str "isAdultContent",
                 JBool (match getProp analysis "isAdultContent" with
                        | JBool b => b
                        | _ => false
                        end))].
Proof.
  unfold validateAnalysisStructure. intros E. ok_steps.
  destruct (getProp analysis "topics") as [| | | | |topicsRaw| |] eqn:Ht;
    try discriminate Ea3.
  injection Ea3 as <-. subst out.
  do 4 eexists. exists topicsRaw. eexists.
  repeat split; eassumption.
Qed.

(** X6. An accepted analysis comes back with its four enum fields in the
    canonical spelling of their lists, a boolean isAdultContent (false unless
    the input holds a boolean), and a topics list of one to three entries,
    each a catalog entry or a member inherited from Object.prototype. *)
Theorem analysis_output_shape (H : host) (analysis out : jsval) :
  validateAnalysisStructure H analysis = Ok out ->
  exists cefr speed grammar vocabulary topics adult,
    out = JObj [(str "cefrLevel", JStr cefr);
                (str "speechSpeed", JStr speed);
                (str "grammarComplexity", JStr grammar);
                (str "vocabularyComplexity", JStr vocabulary);
                (str "topics", JArr topics);
                (str "isAdultContent", JBool adult)] /\
    cefr ∈ CEFR_LEVELS /\ speed ∈ SPEECH_SPEEDS /\
    grammar ∈ GRAMMAR_COMPLEXITIES /\ vocabulary ∈ VOCABULARY_COMPLEXITIES /\
    1 <= length topics <= 3 /\
    Forall isTopicValue topics /\
    (forall b, getProp analysis "isAdultContent" = JBool b -> adult = b) /\
    ((forall b, getProp analysis "isAdultContent" <> JBool b) ->
     adult = false).
Proof.
  intros E.
  destruct (validateAnalysisStructure_inv _ _ _ E)
    as (cefr & speed & grammar & vocabulary & topicsRaw & mapped
        & Hc & Hs & Hg & Hv & _ & Hm & ->).
  do 6 eexists. split; [reflexivity|].
  assert (Hin : forall l s, includes l s = true -> s ∈ l).
  { intros l s Hi. apply existsb_exists in Hi as (x & Hx & Hsx).
    apply streq_spec in Hsx. subst x. now apply list_elem_of_In. }
  split; [now apply Hin|]. split; [now apply Hin|].
  split; [now apply Hin|]. split; [now apply Hin|].
  pose proof (mapped_topic_values _ _ _ Hm) as Hvals.
  split; [|split; [|split]].
  - destruct (filter (fun v => truthy v = true) mapped) as [|v vs] eqn:Hf.
    + vm_compute. lia.
    + destruct (setFrom_head v vs) as [rest ->]. simpl. rewrite length_take. lia.
  - destruct (filter (fun v => truthy v = true) mapped) as [|v vs] eqn:Hf.
    + apply Forall_forall. intros x Hx. left.
      apply list_elem_of_In, in_map_iff in Hx as (t & <- & Ht).
      exists t. split; [reflexivity|].
      eapply subseteq_take, list_elem_of_In, Ht.
    + apply Forall_forall. intros x Hx. apply subseteq_take in Hx.
      destruct (setFrom_spec (v :: vs) [] Hvals) as [_ Hin'].
      apply Hin' in Hx as [Hx _].
      rewrite Forall_forall in Hvals. now apply Hvals.
  - intros b ->. reflexivity.
  - intros Hnb. destruct (getProp analysis "isAdultContent"); try reflexivity.
    exfalso. eapply Hnb. reflexivity.
Qed.

Lemma analysis_output_shape_witness :
  exists out topics,
    validateAnalysisStructure Samples.asciiHost
      (Samples.analysisOf ["vlog"; "COOKING"; "Vlog"; "Food"; "Tips"]) = Ok out /\
    getProp out "topics" = JArr topics /\
    1 <= length topics <= 3 /\
    getProp out "isAdultContent" = JBool false.
Proof.
  destruct (validateAnalysisStructure Samples.asciiHost
              (Samples.analysisOf ["vlog"; "COOKING"; "Vlog"; "Food"; "Tips"]))
    as [out|e] eqn:Hv; [|vm_compute in Hv; discriminate Hv].
  destruct (analysis_output_shape _ _ _ Hv)
    as (cefr & speed & grammar & vocabulary & topics & adult & -> & _ & _ & _
        & _ & Hlen & _ & _ & Hadult).
  exists (JObj [(str "cefrLevel", JStr cefr); (str "speechSpeed", JStr speed);
                (str "grammarComplexity", JStr grammar);
                (str "vocabularyComplexity", JStr vocabulary);
                (str "topics", JArr topics);
                (str "isAdultContent", JBool adult)]), topics.
  split; [reflexivity|]. read_obj. split; [reflexivity|]. split; [exact Hlen|].
  rewrite Hadult; [reflexivity|]. intros b Hb. vm_compute in Hb. discriminate Hb.
Defined.

(** Every catalog entry is stored under its lowercased name. *)
Lemma TOPIC_LOOKUP_catalog (H : host) :
  Forall (fun t => lookupOwn (TOPIC_LOOKUP H) (toLowerCase H t) = Some (JStr t))
         Config.videoTopics.
Proof. repeat constructor. Qed.

Lemma catalog_trimmed :
  Forall (fun t => trim t = t /\ t <> []) Config.videoTopics.
Proof. repeat constructor; discriminate. Qed.

Lemma mapTopic_matches (H : host) (s t : jsstring) :
  t ∈ Config.videoTopics ->
  toLowerCase H (trim s) = toLowerCase H t ->
  mapTopic H (JStr s) = Ok (JStr t).
Proof.
  intros Hin Hlow. unfold mapTopic. simpl assertString. simpl Js.bind.
  rewrite Hlow.
  pose proof (TOPIC_LOOKUP_catalog H) as Hcat.
  rewrite Forall_forall in Hcat. specialize (Hcat t Hin).
  rewrite (getMember_own _ _ _ Hcat). unfold orElse. simpl truthy.
  pose proof catalog_trimmed as Htr. rewrite Forall_forall in Htr.
  destruct (Htr t Hin) as [_ Hne].
  now rewrite (streq_false _ _ Hne).
Qed.

(** X7. Topics are matched case-insensitively and come back in catalog
    casing: a string whose trimmed, lowercased form equals the lowercased
    form of a catalog entry is mapped to that entry. *)
Theorem topic_lookup_case_insensitive (H : host) (s t : jsstring) :
  t ∈ Config.videoTopics ->
  toLowerCase H (trim s) = toLowerCase H t ->
  mapTopic H (JStr s) = Ok (JStr t).
Proof. apply mapTopic_matches. Qed.

Lemma topic_lookup_case_insensitive_witness :
  mapTopic Samples.asciiHost (JStr (str "  dAiLy LIFE "))
  = Ok (JStr (str "Daily Life")).
Proof.
  apply topic_lookup_case_insensitive; [|reflexivity].
  apply list_elem_of_In. vm_compute. tauto.
Defined.

(** X8. When no topic of the input is found in the lookup object (the empty
    topics array included), the analysis validator returns the first three
    catalog entries. *)
Theorem analysis_topics_fallback (H : host) (analysis out : jsval)
    (topicsRaw : list jsval) :
  validateAnalysisStructure H analysis = Ok out ->
  getProp analysis "topics" = JArr topicsRaw ->
  (forall s, JStr s ∈ topicsRaw ->
             getMember (TOPIC_LOOKUP H) (toLowerCase H (trim s)) = JUndef) ->
  getProp out "topics"
  = JArr [JStr (str "Business"); JStr (str "Technology"); JStr (str "Science")].
Proof.
  intros E Ht Hnone.
  destruct (validateAnalysisStructure_inv _ _ _ E)
    as (cefr & speed & grammar & vocabulary & topicsRaw' & mapped
        & _ & _ & _ & _ & Ht' & Hm & ->).
  rewrite Ht in Ht'. injection Ht' as <-. read_obj.
  assert (Hf : filter (fun v => truthy v = true) mapped = []).
  { apply mapM_ok_Forall2 in Hm. clear E Ht. revert Hnone.
    induction Hm as [|x y l l' Hxy _ IH]; intros Hnone; [reflexivity|].
    rewrite filter_cons, IH.
    2:{ intros s Hs. apply Hnone. now right. }
    unfold mapTopic in Hxy. destruct x as [| | | |s| | |]; try discriminate Hxy.
    simpl in Hxy. rewrite Hnone in Hxy by now left.
    injection Hxy as <-. reflexivity. }
  rewrite Hf. reflexivity.
Qed.

Lemma analysis_topics_fallback_witness :
  exists out,
    validateAnalysisStructure Samples.asciiHost
      (Samples.analysisOf ["Knitting"; "cars"]) = Ok out /\
    getProp out "topics"
    = JArr [JStr (str "Business"); JStr (str "Technology");
            JStr (str "Science")].
Proof.
  destruct (validateAnalysisStructure Samples.asciiHost
              (Samples.analysisOf ["Knitting"; "cars"])) as [out|e] eqn:Hv;
    [|vm_compute in Hv; discriminate Hv].
  exists out. split; [reflexivity|].
  eapply (analysis_topics_fallback _ _ _ _ Hv); [reflexivity|].
  intros s Hs. apply list_elem_of_In in Hs.
  destruct Hs as [[= <-]|[[= <-]|[]]]; reflexivity.
Defined.

(** *** Analysis: the validator on its own output *)

Lemma setFrom_fixed (xs seen : list jsval) :
  Forall isTopicValue xs -> NoDup xs ->
  (forall x, x ∈ xs -> existsb (sameValueZero x) seen = false) ->
  setFrom seen xs = xs.
Proof.
  intros Hvals Hnd. revert seen.
  induction Hnd as [|x xs Hx Hnd IH]; intros seen Hseen; cbn [setFrom];
    [reflexivity|].
  apply Forall_cons in Hvals as [Hv Hvals].
  rewrite Hseen by now left. f_equal. apply IH; [exact Hvals|].
  intros y Hy. cbn [existsb]. rewrite Hseen by now right. rewrite orb_false_r.
  destruct (sameValueZero y x) eqn:Es; [|reflexivity].
  exfalso. apply Hx.
  rewrite Forall_forall in Hvals. specialize (Hvals y Hy).
  destruct Hvals as [(t & -> & _)|(o & ->)], Hv as [(t' & -> & _)|(o' & ->)];
    simpl in Es; try discriminate Es.
  - apply streq_spec in Es. now subst.
  - apply bool_decide_eq_true in Es. now subst.
Qed.

(** The topics list computed from the mapped values: one to three distinct
    topic values. *)
Lemma computed_topics (H : host) (topicsRaw mapped : list jsval) :
  mapM (mapTopic H) topicsRaw = Ok mapped ->
  let topics := match filter (fun v => truthy v = true) mapped with
                | [] => map JStr (take 3 Config.videoTopics)
                | _ => take 3 (setFrom []
                         (filter (fun v => truthy v = true) mapped))
                end in
  1 <= length topics <= 3 /\ NoDup topics /\ Forall isTopicValue topics.
Proof.
  intros Hm. pose proof (mapped_topic_values _ _ _ Hm) as Hvals.
  destruct (filter (fun v => truthy v = true) mapped) as [|v vs] eqn:Hf;
    cbv zeta.
  - split; [vm_compute; lia|]. split.
    + vm_compute.
      repeat (apply NoDup_cons; split); try apply NoDup_nil_2;
        rewrite ?elem_of_cons, ?elem_of_nil; intros Hin;
        decompose [or] Hin; try discriminate; assumption.
    + apply Forall_forall. intros x Hx. left.
      apply list_elem_of_In, in_map_iff in Hx as (t & <- & Ht).
      exists t. split; [reflexivity|].
      eapply subseteq_take, list_elem_of_In, Ht.
  - destruct (setFrom_spec (v :: vs) [] Hvals) as [Hnd Hin].
    split; [|split].
    + destruct (setFrom_head v vs) as [rest ->]. simpl.
      rewrite length_take. lia.
    + now apply NoDup_take.
    + apply Forall_forall. intros x Hx. apply subseteq_take in Hx.
      apply Hin in Hx as [Hx _].
      rewrite Forall_forall in Hvals. now apply Hvals.
Qed.

Lemma enum_members (l : list jsstring) (s : jsstring) (P : jsstring -> Prop) :
  Forall P l -> includes l s = true -> P s.
Proof.
  intros Hall Hi. apply existsb_exists in Hi as (x & Hx & Hsx).
  apply streq_spec in Hsx. subst x.
  rewrite Forall_forall in Hall. now apply Hall, list_elem_of_In.
Qed.

(** X9. The analysis validator accepts and returns unchanged every result of
    its own whose topics are all strings, that is, whenever no topic of the
    input named a member of Object.prototype. *)
Theorem analysis_validator_idempotent_on_strings (H : host)
    (analysis out : jsval) (topics : list jsval) :
  validateAnalysisStructure H analysis = Ok out ->
  getProp out "topics" = JArr topics ->
  Forall (fun v => exists s, v = JStr s) topics ->
  validateAnalysisStructure H out = Ok out.
Proof.
  intros E Ht Hstr.
  destruct (validateAnalysisStructure_inv _ _ _ E)
    as (cefr & speed & grammar & vocabulary & topicsRaw & mapped
        & Hc & Hs & Hg & Hv & _ & Hm & ->).
  revert Ht. read_obj. intros Ht.
  apply (f_equal (fun v => match v with JArr l => l | _ => [] end)) in Ht.
  cbv beta iota in Ht.
  destruct (computed_topics _ _ _ Hm) as (Hlen & Hnd & Hvals).
  cbv zeta in Hlen, Hnd, Hvals. rewrite Ht in *. clear Ht.
  assert (Hup : toUpperCase H (trim cefr) = cefr).
  { apply (enum_members CEFR_LEVELS cefr
             (fun s => toUpperCase H (trim s) = s)); [|exact Hc].
    repeat (constructor; [reflexivity|]). constructor. }
  assert (Hsp : toLowerCase H (trim speed) = speed).
  { apply (enum_members SPEECH_SPEEDS speed
             (fun s => toLowerCase H (trim s) = s)); [|exact Hs].
    repeat (constructor; [reflexivity|]). constructor. }
  assert (Hgr : toLowerCase H (trim grammar) = grammar).
  { apply (enum_members GRAMMAR_COMPLEXITIES grammar
             (fun s => toLowerCase H (trim s) = s)); [|exact Hg].
    repeat (constructor; [reflexivity|]). constructor. }
  assert (Hvo : toLowerCase H (trim vocabulary) = vocabulary).
  { apply (enum_members VOCABULARY_COMPLEXITIES vocabulary
             (fun s => toLowerCase H (trim s) = s)); [|exact Hv].
    repeat (constructor; [reflexivity|]). constructor. }
  assert (Hmap : mapM (mapTopic H) topics = Ok topics).
  { apply Forall2_mapM_ok. clear -Hvals Hstr.
    induction Hvals as [|v vs Hv _ IH]; [constructor|].
    apply Forall_cons in Hstr as [[s ->] Hstr].
    constructor; [|now apply IH].
    destruct Hv as [(t & [= <-] & Hin)|(o & Ho)]; [|discriminate Ho].
    apply mapTopic_matches; [exact Hin|].
    pose proof catalog_trimmed as Htr. rewrite Forall_forall in Htr.
    destruct (Htr s Hin) as [-> _]. reflexivity. }
  assert (Hfilter : filter (fun v => truthy v = true) topics = topics).
  { clear -Hvals Hstr.
    induction Hvals as [|v vs Hv _ IH]; [reflexivity|].
    apply Forall_cons in Hstr as [[s ->] Hstr].
    rewrite filter_cons, IH by exact Hstr.
    destruct Hv as [(t & [= <-] & Hin)|(o & Ho)]; [|discriminate Ho].
    pose proof catalog_trimmed as Htr. rewrite Forall_forall in Htr.
    destruct (Htr s Hin) as [_ Hne].
    rewrite decide_True; [reflexivity|]. simpl. now rewrite (streq_false _ _ Hne). }
  unfold validateAnalysisStructure.
  change (isObjectLike (JObj _)) with true. cbv iota. read_obj.
  cbn [assertString assertArray Js.bind].
  rewrite Hup, Hsp, Hgr, Hvo, Hc, Hs, Hg, Hv, Hmap. cbn [Js.bind].
  rewrite Hfilter, (setFrom_fixed topics []) by (auto; reflexivity).
  rewrite (take_ge topics) by lia.
  destruct topics; [simpl in Hlen; lia|reflexivity].
Qed.

Lemma analysis_validator_idempotent_on_strings_witness :
  exists out,
    validateAnalysisStructure Samples.asciiHost
      (Samples.analysisOf ["music"; "unknown"; "Movies"]) = Ok out /\
    validateAnalysisStructure Samples.asciiHost out = Ok out.
Proof.
  destruct (validateAnalysisStructure Samples.asciiHost
              (Samples.analysisOf ["music"; "unknown"; "Movies"]))
    as [out|e] eqn:Hv; [|vm_compute in Hv; discriminate Hv].
  exists out. split; [reflexivity|].
  apply (analysis_validator_idempotent_on_strings _ _ _
           [JStr (str "Music"); JStr (str "Movies")] Hv).
  - vm_compute in Hv. injection Hv as <-. reflexivity.
  - repeat constructor; eauto.
Defined.

(** * Further properties of the segmenter *)

Import Variants.

Lemma ltb_fin (p q : Q) : ltb (Fin p) (Fin q) = true <-> Qlt p q.
Proof.
  simpl. rewrite negb_true_iff. split.
  - intros Hle. apply Qnot_le_lt. intros Hqp.
    apply Qle_bool_iff in Hqp. congruence.
  - intros Hlt. destruct (Qle_bool q p) eqn:E; [|reflexivity].
    apply Qle_bool_iff in E. exfalso. eapply Qlt_not_le; eassumption.
Qed.

Lemma ltb_fin_false (p q : Q) : ltb (Fin p) (Fin q) = false <-> Qle q p.
Proof.
  simpl. rewrite negb_false_iff. apply Qle_bool_iff.
Qed.

Lemma geb_fin (p q : Q) : geb (Fin p) (Fin q) = true <-> Qle q p.
Proof. simpl. apply Qle_bool_iff. Qed.

Lemma toNumber_finite (H : host) (v : jsval) (fallback : option number)
    (n : number) :
  toNumber H v fallback = Some n ->
  (forall m, fallback = Some m -> Number_isFinite m = true) ->
  Number_isFinite n = true.
Proof.
  intros E Hf. unfold toNumber in E.
  destruct v as [| | |m|s| | |]; try (now apply Hf).
  - destruct (Number_isFinite m) eqn:Em; [now injection E as <-|now apply Hf].
  - destruct (negb (streq (trim s) [])); [|now apply Hf].
    destruct (Number_isFinite (parseFloat H s)) eqn:Em;
      [now injection E as <-|now apply Hf].
Qed.

Lemma finite_is_Fin (n : number) :
  Number_isFinite n = true -> exists q, n = Fin q.
Proof. destruct n; try discriminate. eauto. Qed.

Lemma normalizeEntry_timed (H : host) (entry : jsval) (w : wordEntry) :
  normalizeEntry H entry = Ok (Some w) -> timed w.
Proof.
  unfold normalizeEntry.
  destruct (negb (isObjectLike entry)); [discriminate|].
  destruct (orElse _ _) as [| | | |raw| | |]; try discriminate.
  destruct (streq (trim raw) []); [discriminate|].
  intros [= <-]. unfold timed. simpl.
  set (start := match toNumber H (getProp entry "start") None with
                | Some n => n
                | None => _
                end).
  set (end_ := match toNumber H (getProp entry "end") None with
               | Some n => n
               | None => _
               end).
  set (safeStart := if Number_isFinite start then start else ofNat 0).
  assert (Hs : exists s, safeStart = Fin s).
  { subst safeStart. destruct (Number_isFinite start) eqn:E.
    - now apply finite_is_Fin.
    - unfold ofNat. eauto. }
  destruct Hs as [s Hs]. rewrite Hs.
  set (candidate := if Number_isFinite end_ then end_ else Fin s).
  assert (Hc : exists t, candidate = Fin t).
  { subst candidate. destruct (Number_isFinite end_) eqn:E.
    - now apply finite_is_Fin.
    - eauto. }
  destruct Hc as [t Hc]. rewrite Hc.
  destruct (geb (Fin t) (Fin s)) eqn:Eg.
  - exists s, t. repeat split. now apply geb_fin.
  - exists s, s. repeat split. apply Qle_refl.
Qed.

Lemma insertByStart_Permutation (x : wordEntry) (l : list wordEntry) :
  insertByStart x l ≡ₚ x :: l.
Proof.
  induction l as [|y l IH]; simpl; [reflexivity|].
  destruct (ltb _ _); [reflexivity|].
  rewrite IH. apply Permutation_swap.
Qed.

Lemma sortByStart_Permutation (l : list wordEntry) : sortByStart l ≡ₚ l.
Proof.
  unfold sortByStart.
  assert (Hgen : forall acc,
             fold_left (fun acc x => insertByStart x acc) l acc ≡ₚ acc ++ l).
  { induction l as [|x l IH]; intros acc; simpl.
    - now rewrite app_nil_r.
    - rewrite IH, insertByStart_Permutation. simpl.
      apply Permutation_middle. }
  apply (Hgen []).
Qed.

Lemma insertByStart_ascending (x : wordEntry) (l : list wordEntry) :
  timed x -> Forall timed l -> ascending l -> ascending (insertByStart x l).
Proof.
  intros (sx & tx & Hsx & _ & _) Hl.
  induction Hl as [|y l (sy & ty & Hsy & _ & _) Hl IH]; simpl; intros Hasc.
  - split; [constructor|exact I].
  - destruct Hasc as [Hy Hasc].
    destruct (ltb (w_start x) (w_start y)) eqn:E.
    + split; [|split; assumption].
      rewrite Hsx, Hsy in E. apply ltb_fin in E.
      constructor.
      * unfold startsNotAfter. rewrite Hsx, Hsy. apply ltb_fin_false.
        now apply Qlt_le_weak.
      * clear IH.
        assert (Hboth : Forall (fun b => startsNotAfter y b /\ timed b) l).
        { apply Forall_and. split; assumption. }
        clear -Hboth E Hsx Hsy. eapply Forall_impl; [exact Hboth|].
        intros b [Hyb (sb & tb & Hsb & _)]. unfold startsNotAfter in *.
        rewrite Hsx, Hsb. rewrite Hsy, Hsb in Hyb.
        apply ltb_fin_false. apply ltb_fin_false in Hyb.
        apply Qlt_le_weak. eapply Qlt_le_trans; eassumption.
    + split; [|now apply IH].
      apply insertByStart_Forall; [exact E|exact Hy].
Qed.

Lemma sortByStart_ascending (l : list wordEntry) :
  Forall timed l -> ascending (sortByStart l).
Proof.
  unfold sortByStart.
  assert (Hgen : forall acc,
             Forall timed acc -> ascending acc -> Forall timed l ->
             ascending (fold_left (fun acc x => insertByStart x acc) l acc)).
  { induction l as [|x l IH]; intros acc Hacc Hasc Hl; simpl; [exact Hasc|].
    apply Forall_cons in Hl as [Hx Hl]. apply IH; [| |exact Hl].
    - now apply insertByStart_Forall.
    - now apply insertByStart_ascending. }
  intros Hl. apply Hgen; [constructor|exact I|exact Hl].
Qed.

Lemma keepEntries_timed (H : host) (items : list jsval)
    (mapped : list (option wordEntry)) :
  mapM (normalizeEntry H) items = Ok mapped ->
  Forall timed (keepEntries mapped).
Proof.
  intros Hm. apply mapM_ok_Forall2 in Hm.
  induction Hm as [|x y l out Hxy _ IH]; [constructor|].
  unfold keepEntries in *. simpl.
  destruct y as [w|]; [|exact IH].
  destruct (negb (streq (w_text w) [])); [|exact IH].
  constructor; [|exact IH]. eapply normalizeEntry_timed, Hxy.
Qed.

Lemma normalizeWordEntries_timed (H : host) (entries : jsval)
    (normalized : list wordEntry) :
  normalizeWordEntries H entries = Ok normalized ->
  Forall timed normalized /\ ascending normalized.
Proof.
  unfold normalizeWordEntries.
  destruct entries as [| | | | |items| |];
    try (intros [= <-]; split; [constructor|exact I]).
  intros E. ok_steps. subst normalized.
  pose proof (keepEntries_timed _ _ _ Ea) as Ht. split.
  - now apply sortByStart_spec.
  - now apply sortByStart_ascending.
Qed.

(** X10. The entries returned by normalizeWordEntries have a trimmed text
    that is not empty, finite start and end with end >= start, and are in
    ascending order of start; they are a rearrangement of the entries the
    map and the filter keep, and an input that is not an array gives the
    empty list. *)
Theorem normalized_entries_ordered (H : host) (entries : jsval)
    (normalized : list wordEntry) :
  normalizeWordEntries H entries = Ok normalized ->
  Forall wellFormed normalized /\
  Forall timed normalized /\
  ascending normalized /\
  (forall items mapped,
     entries = JArr items -> mapM (normalizeEntry H) items = Ok mapped ->
     normalized ≡ₚ keepEntries mapped) /\
  ((forall items, entries <> JArr items) -> normalized = []).
Proof.
  intros E.
  pose proof (normalizeWordEntries_wellFormed _ _ _ E) as Hwf.
  destruct (normalizeWordEntries_timed _ _ _ E) as [Ht Hasc].
  repeat split; try assumption.
  - intros items mapped -> Hm. unfold normalizeWordEntries in E.
    rewrite Hm in E. simpl in E. injection E as <-.
    apply sortByStart_Permutation.
  - intros Hna. unfold normalizeWordEntries in E.
    destruct entries as [| | | | |items| |]; try (now injection E as <-).
    exfalso. eapply Hna. reflexivity.
Qed.

Lemma normalized_entries_ordered_witness :
  exists normalized,
    normalizeWordEntries Samples.asciiHost
      (JArr [Samples.word "late" 30 35; Samples.word "  " 0 1;
             Samples.word "early" 10 5; JNull]) = Ok normalized /\
    map w_text normalized = [str "early"; str "late"] /\
    Forall timed normalized /\ ascending normalized.
Proof.
  destruct (normalizeWordEntries Samples.asciiHost
              (JArr [Samples.word "late" 30 35; Samples.word "  " 0 1;
                     Samples.word "early" 10 5; JNull]))
    as [normalized|e] eqn:E; [|vm_compute in E; discriminate E].
  destruct (normalized_entries_ordered _ _ _ E) as (_ & Ht & Hasc & _).
  exists normalized. split; [reflexivity|]. split; [|split; assumption].
  vm_compute in E. injection E as <-. reflexivity.
Defined.

(** *** Normalizing twice *)

Lemma normalizeEntry_fixed (H : host) (w : wordEntry) :
  wellFormed w -> timed w -> normalizeEntry H (entryToJs w) = Ok (Some w).
Proof.
  intros [Htext Hne] (s & t & Hs & Ht & Hle).
  destruct w as [raw text start end_]. simpl in *. subst text start end_.
  unfold normalizeEntry, entryToJs. cbn [w_originalText w_text w_start w_end].
  change (isObjectLike (JObj _)) with true. cbn [negb]. cbv iota.
  read_obj.
  assert (Hraw : raw <> []) by (intros ->; apply Hne; reflexivity).
  unfold orElse. cbn [truthy]. rewrite (streq_false _ _ Hraw). cbn [negb].
  rewrite (streq_false _ _ Hne).
  cbn [toNumber Number_isFinite].
  apply geb_fin in Hle. rewrite Hle. reflexivity.
Qed.

Lemma insertByStart_last (x : wordEntry) (l : list wordEntry) :
  Forall (fun a => startsNotAfter a x) l -> insertByStart x l = l ++ [x].
Proof.
  induction 1 as [|y l Hy _ IH]; simpl; [reflexivity|].
  unfold startsNotAfter in Hy. now rewrite Hy, IH.
Qed.

Lemma ascending_app (l1 l2 : list wordEntry) :
  ascending (l1 ++ l2) ->
  ascending l1 /\
  forall x, x ∈ l2 -> Forall (fun a => startsNotAfter a x) l1.
Proof.
  induction l1 as [|a l1 IH]; simpl.
  - intros _. split; [exact I|]. constructor.
  - intros [Ha Hasc]. destruct (IH Hasc) as [H1 H2].
    apply Forall_app in Ha as [Ha1 Ha2]. split; [split; assumption|].
    intros x Hx. constructor; [|now apply H2].
    rewrite Forall_forall in Ha2. now apply Ha2.
Qed.

Lemma sortByStart_fixed (l : list wordEntry) :
  ascending l -> sortByStart l = l.
Proof.
  unfold sortByStart.
  assert (Hgen : forall acc,
             ascending (acc ++ l) ->
             fold_left (fun acc x => insertByStart x acc) l acc = acc ++ l).
  { induction l as [|x l IH]; intros acc Hasc; simpl.
    - now rewrite app_nil_r.
    - destruct (ascending_app acc (x :: l) Hasc) as [_ Hx].
      rewrite insertByStart_last by (apply Hx; now left).
      rewrite IH; rewrite <- app_assoc; [reflexivity|exact Hasc]. }
  intros Hasc. apply (Hgen [] Hasc).
Qed.

Lemma normalizeWordEntries_fixed (H : host) (ws : list wordEntry) :
  Forall wellFormed ws -> Forall timed ws -> ascending ws ->
  normalizeWordEntries H (JArr (map entryToJs ws)) = Ok ws.
Proof.
  intros Hwf Ht Hasc. unfold normalizeWordEntries.
  assert (Hm : mapM (normalizeEntry H) (map entryToJs ws) = Ok (map Some ws)).
  { clear Hasc. induction Hwf as [|w ws Hw _ IH]; [reflexivity|].
    apply Forall_cons in Ht as [Htw Ht]. simpl.
    rewrite normalizeEntry_fixed, IH by assumption. reflexivity. }
  rewrite Hm. simpl Js.bind.
  assert (Hk : keepEntries (map Some ws) = ws).
  { clear -Hwf. induction Hwf as [|w ws [_ Hne] _ IH]; [reflexivity|].
    unfold keepEntries. simpl. rewrite (streq_false _ _ Hne). simpl.
    f_equal. exact IH. }
  rewrite Hk, sortByStart_fixed by exact Hasc. reflexivity.
Qed.

(** X11. Normalizing twice changes nothing: the entries normalizeWordEntries
    returned, passed to it again as objects (as buildTranscriptionVariants
    does through groupWordEntries), come back the same and in the same
    order. *)
Theorem normalization_idempotent (H : host) (entries : jsval)
    (normalized : list wordEntry) :
  normalizeWordEntries H entries = Ok normalized ->
  normalizeWordEntries H (JArr (map entryToJs normalized)) = Ok normalized.
Proof.
  intros E.
  pose proof (normalizeWordEntries_wellFormed _ _ _ E) as Hwf.
  destruct (normalizeWordEntries_timed _ _ _ E) as [Ht Hasc].
  now apply normalizeWordEntries_fixed.
Qed.

Lemma normalization_idempotent_witness :
  exists normalized,
    normalizeWordEntries Samples.asciiHost Samples.sevenWords = Ok normalized /\
    normalizeWordEntries Samples.asciiHost (JArr (map entryToJs normalized))
    = Ok normalized.
Proof.
  destruct (normalizeWordEntries Samples.asciiHost Samples.sevenWords)
    as [normalized|e] eqn:E; [|vm_compute in E; discriminate E].
  exists normalized. split; [reflexivity|].
  exact (normalization_idempotent _ _ _ E).
Defined.

(** The chunks groupWordEntries returns are the chunks of the buffers listed
    by [segments]. *)
Lemma groupWordEntries_segments (H : host) (cfg : transcriptionConfig)
    (o : overrides) (entries : jsval) (normalized : list wordEntry) :
  normalizeWordEntries H entries = Ok normalized ->
  groupWordEntries H cfg entries o
  = Ok (map chunkOf (segments (parametersOf cfg o) [] normalized)).
Proof.
  intros Hn.
  pose proof (normalizeWordEntries_wellFormed _ _ _ Hn) as Hwf.
  unfold groupWordEntries. rewrite Hn. cbn [Js.bind].
  destruct normalized as [|w ws]; [reflexivity|].
  set (p := parametersOf cfg o). set (normalized := w :: ws) in *.
  rewrite (groupLoop_segments p normalized [] []) by exact Hwf.
  rewrite app_nil_l.
  pose proof (segments_concat p normalized []) as Hcat.
  rewrite app_nil_l in Hcat.
  destruct (segments p [] normalized) as [|b bs] eqn:Hseg;
    [discriminate Hcat|reflexivity].
Qed.

Lemma geb_ofNat_mono (k n : nat) (m : number) :
  geb (ofNat k) m = true -> k <= n -> geb (ofNat n) m = true.
Proof.
  destruct m as [|[|]|q]; simpl; try discriminate; try reflexivity.
  intros Hk Hle. apply Qle_bool_iff in Hk. apply Qle_bool_iff.
  eapply Qle_trans; [exact Hk|]. rewrite <- Zle_Qle. lia.
Qed.

Lemma flushesAfter_maxWords (p : parameters) (buffer : list wordEntry)
    (entry : wordEntry) (rest : list wordEntry) :
  geb (ofNat (length buffer)) (p_maxWords p) = true ->
  flushesAfter p buffer entry rest = true.
Proof.
  intros Hmax. unfold flushesAfter. rewrite Hmax.
  cbn [orb]. apply orb_true_r.
Qed.

(** With at most one word per chunk every buffer is a single word. *)
Lemma segments_single (p : parameters) (entries : list wordEntry) :
  geb (ofNat 1) (p_maxWords p) = true ->
  segments p [] entries = map (fun w => [w]) entries.
Proof.
  intros Hmax. induction entries as [|entry rest IH]; [reflexivity|].
  cbn [segments app map].
  rewrite flushesAfter_maxWords by exact Hmax. now rewrite IH.
Qed.

Lemma chunkOf_single (w : wordEntry) :
  timed w ->
  c_text (chunkOf [w]) = composeChunkText [w] /\
  fst (c_timestamp (chunkOf [w])) = w_start w /\
  numeq (snd (c_timestamp (chunkOf [w]))) (w_end w) = true.
Proof.
  intros (s & t & Hs & Ht & Hle). unfold chunkOf, bufferEndOf, bufferStartOf.
  cbn [c_text c_timestamp fst snd fold_left]. rewrite Hs, Ht.
  cbn [Number_isFinite Math_max].
  split; [reflexivity|]. split; [reflexivity|].
  destruct (geb (Fin s) (Fin t)) eqn:Eg; cbn [Number_isFinite numeq].
  - apply geb_fin in Eg. apply Qeq_bool_iff. now apply Qle_antisym.
  - apply Qeq_bool_iff. reflexivity.
Qed.

(** X12. When the word limit is at most 1 (the word view of the shipped
    configuration), groupWordEntries returns exactly one chunk per normalized
    word, in order; the chunk starts at the start of its word and ends at its
    end. *)
Theorem word_view_one_chunk_per_word (H : host) (cfg : transcriptionConfig)
    (o : overrides) (entries : jsval) (normalized : list wordEntry) :
  geb (ofNat 1) (p_maxWords (parametersOf cfg o)) = true ->
  normalizeWordEntries H entries = Ok normalized ->
  exists chunks,
    groupWordEntries H cfg entries o = Ok chunks /\
    length chunks = length normalized /\
    forall i w c,
      normalized !! i = Some w -> chunks !! i = Some c ->
      c_text c = composeChunkText [w] /\
      fst (c_timestamp c) = w_start w /\
      numeq (snd (c_timestamp c)) (w_end w) = true.
Proof.
  intros Hmax Hn.
  rewrite (groupWordEntries_segments _ _ _ _ _ Hn), segments_single by exact Hmax.
  eexists. split; [reflexivity|]. split; [now rewrite !length_map|].
  intros i w c Hw Hc.
  destruct (normalizeWordEntries_timed _ _ _ Hn) as [Ht _].
  assert (Hcw : c = chunkOf [w]).
  { rewrite map_map in Hc.
    change (map (fun x => chunkOf [x]) normalized)
      with ((fun x => chunkOf [x]) <$> normalized) in Hc.
    rewrite list_lookup_fmap, Hw in Hc. now injection Hc as <-. }
  subst c. apply chunkOf_single.
  rewrite Forall_forall in Ht. apply Ht. eapply list_elem_of_lookup_2, Hw.
Qed.

Lemma word_view_one_chunk_per_word_witness :
  exists chunks,
    groupWordEntries Samples.asciiHost configured Samples.sevenWords
      (wordOverrides configured) = Ok chunks /\
    length chunks = 7.
Proof.
  destruct (normalizeWordEntries Samples.asciiHost Samples.sevenWords)
    as [normalized|e] eqn:E; [|vm_compute in E; discriminate E].
  destruct (word_view_one_chunk_per_word Samples.asciiHost configured
              (wordOverrides configured) Samples.sevenWords normalized
              eq_refl E) as (chunks & Hg & Hlen & _).
  exists chunks. split; [exact Hg|]. rewrite Hlen.
  vm_compute in E. injection E as <-. reflexivity.
Defined.

Lemma segments_bounded (p : parameters) (k : nat) (entries : list wordEntry) :
  geb (ofNat k) (p_maxWords p) = true ->
  forall buffer,
    length buffer < k ->
    Forall (fun b => length b <= k) (segments p buffer entries).
Proof.
  intros Hmax. induction entries as [|entry rest IH]; intros buffer Hlen.
  - simpl. destruct buffer; repeat constructor. simpl in *. lia.
  - cbn [segments].
    destruct (flushesAfter p (buffer ++ [entry]) entry rest) eqn:Ef.
    + constructor; [rewrite length_app; simpl; lia|].
      apply IH. simpl. lia.
    + apply IH. rewrite length_app. simpl.
      destruct (decide (S (length buffer) = k)) as [Hk|Hk]; [|lia].
      rewrite flushesAfter_maxWords in Ef; [discriminate Ef|].
      rewrite length_app. simpl.
      eapply geb_ofNat_mono; [exact Hmax|lia].
Qed.

(** X13. No chunk is built from more words than the word limit: when the
    limit is at most k (k >= 1), every group of words that groupWordEntries
    turns into a chunk has at most k words, and the groups are the
    normalized words in order. *)
Theorem chunks_within_word_limit (H : host) (cfg : transcriptionConfig)
    (o : overrides) (entries : jsval) (normalized : list wordEntry) (k : nat) :
  1 <= k ->
  geb (ofNat k) (p_maxWords (parametersOf cfg o)) = true ->
  normalizeWordEntries H entries = Ok normalized ->
  exists buffers,
    groupWordEntries H cfg entries o = Ok (map chunkOf buffers) /\
    concat buffers = normalized /\
    Forall (fun b => 1 <= length b <= k) buffers.
Proof.
  intros Hk Hmax Hn.
  exists (segments (parametersOf cfg o) [] normalized).
  split; [now apply groupWordEntries_segments|].
  split; [apply (segments_concat _ _ [])|].
  pose proof (segments_bounded _ k normalized Hmax [] Hk) as Hb.
  pose proof (segments_nonempty (parametersOf cfg o) normalized []) as Hne.
  rewrite Forall_forall in *. intros b Hin. split; [|now apply Hb].
  specialize (Hne b Hin). destruct b; [contradiction|simpl; lia].
Qed.

Lemma chunks_within_word_limit_witness :
  exists buffers,
    groupWordEntries Samples.asciiHost configured Samples.sevenWords
      (phraseOverrides configured) = Ok (map chunkOf buffers) /\
    Forall (fun b => 1 <= length b <= 9) buffers.
Proof.
  destruct (normalizeWordEntries Samples.asciiHost Samples.sevenWords)
    as [normalized|e] eqn:E; [|vm_compute in E; discriminate E].
  destruct (chunks_within_word_limit Samples.asciiHost configured
              (phraseOverrides configured) Samples.sevenWords normalized 9)
    as (buffers & Hg & _ & Hb); [lia|reflexivity|exact E|].
  exists buffers. split; assumption.
Defined.

(** *** The three views *)

Lemma chunkOf_valid (buffer : list wordEntry) :
  buffer <> [] -> Forall timed buffer -> validChunk (chunkToJs (chunkOf buffer)).
Proof.
  intros Hne Ht. destruct buffer as [|w ws]; [contradiction|].
  apply Forall_cons in Ht as [(s & t & Hs & _) _].
  unfold chunkToJs, chunkOf. cbn [c_text c_timestamp fst snd bufferStartOf].
  rewrite Hs. eexists _, _, _. split; [reflexivity|].
  split; [apply trim_idem|]. split; [reflexivity|].
  destruct (Number_isFinite (bufferEndOf (w :: ws) (Fin s))) eqn:E;
    [|reflexivity].
  apply finite_is_Fin in E as [q ->]. reflexivity.
Qed.

Lemma segments_chunks_valid (p : parameters) (normalized : list wordEntry) :
  Forall timed normalized ->
  Forall validChunk (map chunkToJs (map chunkOf (segments p [] normalized))).
Proof.
  intros Ht. pose proof (segments_concat p normalized []) as Hcat.
  pose proof (segments_nonempty p normalized []) as Hne.
  rewrite app_nil_l in Hcat.
  apply Forall_forall. intros c Hc.
  apply list_elem_of_In, in_map_iff in Hc as (ch & <- & Hch).
  apply in_map_iff in Hch as (b & <- & Hb). apply list_elem_of_In in Hb.
  rewrite Forall_forall in Hne. apply chunkOf_valid; [now apply Hne|].
  apply Forall_forall. intros w Hw.
  rewrite Forall_forall in Ht. apply Ht. rewrite <- Hcat.
  apply list_elem_of_In, in_concat. exists b.
  split; now apply list_elem_of_In.
Qed.

Lemma normalizeFallbackChunk_valid (H : host) (c : jsval) (ch : chunk) :
  normalizeFallbackChunk H c = Some ch -> validChunk (chunkToJs ch).
Proof.
  unfold normalizeFallbackChunk.
  destruct (negb (isObjectLike c)); [discriminate|].
  set (text := match getProp c "text" with JStr s => trim s | _ => [] end).
  destruct (streq text []); [discriminate|].
  intros [= <-]. unfold chunkToJs. cbn [c_text c_timestamp fst snd].
  set (ts := match getProp c "timestamp" with JArr arr => Some arr | _ => _ end).
  set (start := match toNumber H (timestampItem ts 0 _) _ with
                | Some n => n
                | None => ofNat 0
                end).
  assert (Hs : Number_isFinite start = true).
  { subst start. destruct (toNumber H _ _) as [n|] eqn:E; [|reflexivity].
    eapply toNumber_finite; [exact E|]. now intros m [= <-]. }
  assert (He : Number_isFinite
                 (match toNumber H (timestampItem ts 1 (getProp c "end"))
                          (Some start) with
                  | Some n => n
                  | None => start
                  end) = true).
  { destruct (toNumber H _ (Some start)) as [n|] eqn:E; [|exact Hs].
    eapply toNumber_finite; [exact E|]. now intros m [= <-]. }
  apply finite_is_Fin in Hs as [s Hs]. apply finite_is_Fin in He as [t He].
  rewrite He, Hs. eexists _, _, _. split; [reflexivity|].
  split; [|split; reflexivity].
  subst text. destruct (getProp c "text"); try reflexivity. apply trim_idem.
Qed.

Lemma fallback_chunks_valid (H : host) (chunks : jsval) :
  Forall validChunk (map chunkToJs (normalizeChunksForValidation H chunks)).
Proof.
  unfold normalizeChunksForValidation.
  destruct chunks as [| | | | |items| |]; try constructor.
  apply Forall_forall. intros c Hc.
  apply list_elem_of_In, in_map_iff in Hc as (ch & <- & Hch).
  apply list_elem_of_In, list_elem_of_omap in Hch as (x & _ & Hx).
  eapply normalizeFallbackChunk_valid, Hx.
Qed.

Lemma regroup (H : host) (cfg : transcriptionConfig) (o : overrides)
    (entries : jsval) (normalized : list wordEntry) :
  normalizeWordEntries H entries = Ok normalized ->
  groupWordEntries H cfg (JArr (map entryToJs normalized)) o
  = Ok (map chunkOf (segments (parametersOf cfg o) [] normalized)).
Proof.
  intros E. apply groupWordEntries_segments.
  pose proof (normalizeWordEntries_wellFormed _ _ _ E) as Hwf.
  destruct (normalizeWordEntries_timed _ _ _ E) as [Ht Hasc].
  now apply normalizeWordEntries_fixed.
Qed.

(** X14. Whenever the word entries can be normalized, buildTranscriptionVariants
    returns three views that the TranscriptionVariants validator accepts
    unchanged: they share the trimmed full text, the plain view has no chunks,
    and the phrases and words views have one chunk per group of the segmenter
    (or the fallback chunks when there are no words). *)
Theorem built_variants_are_valid (H : host) (cfg : transcriptionConfig)
    (fullText wordEntries fallbackChunks : jsval) (normalized : list wordEntry) :
  normalizeWordEntries H wordEntries = Ok normalized ->
  exists plain phrases words,
    buildTranscriptionVariants H cfg fullText wordEntries fallbackChunks
    = Ok (JObj [(str "plain", plain); (str "phrases", phrases);
                (str "words", words)]) /\
    validateTranscriptionVariantsStructure
      (JObj [(str "plain", plain); (str "phrases", phrases);
             (str "words", words)]) "transcription"
    = Ok (JObj [(str "plain", plain); (str "phrases", phrases);
                (str "words", words);
                (str "fullText", getProp plain "fullText")]) /\
    getProp plain "fullText"
    = JStr (match fullText with JStr s => trim s | _ => [] end) /\
    getProp plain "chunks" = JArr [] /\
    (normalized <> [] ->
     exists phraseChunks wordChunks,
       groupWordEntries H cfg (JArr (map entryToJs normalized))
         (phraseOverrides cfg) = Ok phraseChunks /\
       groupWordEntries H cfg (JArr (map entryToJs normalized))
         (wordOverrides cfg) = Ok wordChunks /\
       getProp phrases "chunks" = JArr (map chunkToJs phraseChunks) /\
       getProp words "chunks" = JArr (map chunkToJs wordChunks)) /\
    (normalized = [] ->
     getProp phrases "chunks"
     = JArr (map chunkToJs (normalizeChunksForValidation H fallbackChunks)) /\
     getProp words "chunks" = getProp phrases "chunks").
Proof.
  intros E. unfold buildTranscriptionVariants. rewrite E. cbn [Js.bind].
  set (safeText := match fullText with JStr s => trim s | _ => [] end).
  assert (Hsafe : trim safeText = safeText).
  { subst safeText. destruct fullText; try reflexivity. apply trim_idem. }
  destruct (normalizeWordEntries_timed _ _ _ E) as [Ht _].
  assert (Hview : forall chunks,
             Forall validChunk (map chunkToJs chunks) ->
             validateTranscriptionStructure (viewOf safeText chunks)
               "transcription" = Ok (viewOf safeText chunks)).
  { intros chunks Hc. now apply validateTranscriptionStructure_fixed. }
  assert (Hvariants : forall pc wc,
             Forall validChunk (map chunkToJs pc) ->
             Forall validChunk (map chunkToJs wc) ->
             validateTranscriptionVariantsStructure
               (JObj [(str "plain", viewOf safeText []);
                      (str "phrases", viewOf safeText pc);
                      (str "words", viewOf safeText wc)]) "transcription"
             = Ok (JObj [(str "plain", viewOf safeText []);
                         (str "phrases", viewOf safeText pc);
                         (str "words", viewOf safeText wc);
                         (str "fullText",
                          getProp (viewOf safeText []) "fullText")])).
  { intros pc wc Hpc Hwc. unfold validateTranscriptionVariantsStructure.
    change (isObjectLike (JObj _)) with true. cbv iota. read_obj.
    unfold viewOf.
    rewrite !validateTranscriptionStructure_fixed by (auto; constructor).
    cbn [Js.bind]. read_obj. cbn [strictEq]. rewrite streq_refl.
    reflexivity. }
  destruct normalized as [|w ws] eqn:Hnorm.
  - cbn [Js.bind].
    pose proof (fallback_chunks_valid H fallbackChunks) as Hfb.
    rewrite !Hview by (auto; constructor). cbn [Js.bind].
    eexists _, _, _. split; [reflexivity|].
    split; [now apply Hvariants|]. unfold viewOf. read_obj.
    split; [reflexivity|]. split; [reflexivity|].
    split; [intros Hne; contradiction|].
    intros _. split; reflexivity.
  - rewrite <- Hnorm in *.
    rewrite !(regroup _ _ _ _ _ E). cbn [Js.bind].
    pose proof (segments_chunks_valid
                  (parametersOf cfg (phraseOverrides cfg)) normalized Ht) as Hp.
    pose proof (segments_chunks_valid
                  (parametersOf cfg (wordOverrides cfg)) normalized Ht) as Hw.
    rewrite !Hview by (auto; constructor). cbn [Js.bind].
    eexists _, _, _. split; [reflexivity|].
    split; [now apply Hvariants|]. unfold viewOf. read_obj.
    split; [reflexivity|]. split; [reflexivity|].
    split; [|intros Hnil; subst; discriminate].
    intros _. eexists _, _. repeat split; reflexivity.
Qed.

Lemma built_variants_are_valid_witness :
  exists out validated,
    buildTranscriptionVariants Samples.asciiHost configured
      (JStr (str " So this is a test. Right? ")) Samples.sevenWords (JArr [])
    = Ok out /\
    validateTranscriptionVariantsStructure out "transcription" = Ok validated /\
    getProp validated "fullText" = JStr (str "So this is a test. Right?").
Proof.
  destruct (normalizeWordEntries Samples.asciiHost Samples.sevenWords)
    as [normalized|e] eqn:E; [|vm_compute in E; discriminate E].
  destruct (built_variants_are_valid Samples.asciiHost configured
              (JStr (str " So this is a test. Right? ")) Samples.sevenWords
              (JArr []) normalized E)
    as (plain & phrases & words & Hb & Hv & Hfull & _).
  eexists _, _. split; [exact Hb|]. split; [exact Hv|].
  read_obj. rewrite Hfull. reflexivity.
Defined.

(** * Further properties of the translator *)

(** X15. The batch size and the number of attempts are at least 1 for every
    environment, so the fallbacks 60 and 3 of the translator are never used;
    without an override (variable unset or empty) the batch size is 40 and
    the number of attempts 3. *)
Theorem translator_limits (env : Config.environment) :
  (1 <= DEFAULT_CHUNK_SIZE env)%Z /\
  DEFAULT_CHUNK_SIZE env = Config.translationChunkSize env /\
  (1 <= MAX_ATTEMPTS env)%Z /\
  MAX_ATTEMPTS env = Config.translationAttempts env /\
  (Config.envOrEmpty (Config.GOOGLE_TRANSLATION_CHUNK_SIZE env) = [] ->
   DEFAULT_CHUNK_SIZE env = 40%Z) /\
  (Config.envOrEmpty (Config.GOOGLE_TRANSLATION_ATTEMPTS env) = [] ->
   MAX_ATTEMPTS env = 3%Z).
Proof.
  assert (Hc : (1 <= Config.translationChunkSize env)%Z).
  { unfold Config.translationChunkSize. destruct (parseInt10 _); lia. }
  assert (Ha : (1 <= Config.translationAttempts env)%Z).
  { unfold Config.translationAttempts. destruct (parseInt10 _); lia. }
  unfold DEFAULT_CHUNK_SIZE, MAX_ATTEMPTS.
  destruct (Z.eqb_spec (Config.translationChunkSize env) 0) as [E|_]; [lia|].
  destruct (Z.eqb_spec (Config.translationAttempts env) 0) as [E|_]; [lia|].
  repeat split; try assumption.
  - unfold Config.translationChunkSize. now intros ->.
  - unfold Config.translationAttempts. now intros ->.
Qed.

Lemma translator_limits_witness :
  let env := {| Config.GOOGLE_TRANSLATION_CHUNK_SIZE := None;
                Config.GOOGLE_TRANSLATION_ATTEMPTS := Some (str " 5 tries");
                Config.GOOGLE_GEMINI_API_KEY := None;
                Config.GOOGLE_API_KEY := None |} in
  DEFAULT_CHUNK_SIZE env = 40%Z /\ MAX_ATTEMPTS env = 5%Z.
Proof.
  intros env. split; [|reflexivity].
  now apply (translator_limits env).
Defined.

(** X16. For a size of at least 1, chunkArray cuts the list into consecutive
    batches: their concatenation is the list, batch i is the slice that
    starts at i * size, no batch is longer than the size, no batch of a
    list with elements is empty, and the empty list gives one empty
    batch. *)
Theorem chunkArray_partition {A} (items : list A) (size : Z) :
  (1 <= size)%Z ->
  concat (chunkArray items size) = items /\
  (forall i batch,
      chunkArray items size !! i = Some batch ->
      batch = take (Z.to_nat size) (drop (i * Z.to_nat size) items) /\
      length batch <= Z.to_nat size /\
      (items <> [] -> batch <> [])) /\
  (items = [] -> chunkArray items size = [[]]).
Proof.
  intros Hsize.
  remember (Z.to_nat size) as k eqn:Hk.
  assert (Hn : 0 < k) by lia.
  assert (Hz : size = Z.of_nat k) by lia.
  clear Hk. subst size.
  split; [now apply chunkArray_concat|].
  split.
  - intros i batch Hi.
    destruct (chunkArray_lookup items _ i batch Hn Hi) as [-> Hlen].
    split; [reflexivity|]. split; [exact Hlen|].
    intros Hne Hnil. apply Hne.
    unfold chunkArray in Hi.
    destruct (Z.of_nat (length items) <=? Z.of_nat k)%Z.
    + destruct i; [|discriminate Hi].
      apply (f_equal length) in Hnil. rewrite length_take, length_drop in Hnil.
      destruct items; [reflexivity|simpl in Hnil; lia].
    + rewrite Nat2Z.id, slices_lookup in Hi by lia.
      destruct (i * k <? length items) eqn:E; [|discriminate].
      apply Nat.ltb_lt in E.
      apply (f_equal length) in Hnil. rewrite length_take, length_drop in Hnil.
      simpl in Hnil. lia.
  - intros ->. unfold chunkArray. simpl length.
    destruct (Z.leb_spec (Z.of_nat 0) (Z.of_nat k)); [reflexivity|lia].
Qed.

Lemma chunkArray_partition_witness :
  chunkArray [1; 2; 3; 4; 5] 2 !! 2 = Some [5] /\
  concat (chunkArray [1; 2; 3; 4; 5] 2) = [1; 2; 3; 4; 5].
Proof.
  split; [reflexivity|].
  apply (chunkArray_partition [1; 2; 3; 4; 5] 2). lia.
Defined.

Lemma slices_take_concat {A} (fuel n : nat) (items : list A) (i : nat) :
  0 < n -> length items <= fuel ->
  concat (take i (slices fuel n items)) = take (i * n) items.
Proof.
  intros Hn. revert items i.
  induction fuel as [|fuel IH]; intros items i Hlen; simpl.
  - destruct items; [|simpl in Hlen; lia].
    now rewrite take_nil, take_nil.
  - destruct items as [|x items].
    + now rewrite take_nil, take_nil.
    + destruct i as [|i]; [reflexivity|].
      cbn [take concat]. rewrite IH.
      2:{ rewrite length_drop. simpl in *. lia. }
      rewrite take_take_drop. f_equal; lia.
Qed.

(** The batches before batch i hold the first i * size elements. *)
Lemma chunkArray_before {A} (items : list A) (size : nat) (i : nat) :
  0 < size -> i < length (chunkArray items (Z.of_nat size)) ->
  length (concat (take i (chunkArray items (Z.of_nat size)))) = i * size.
Proof.
  intros Hsize. unfold chunkArray.
  destruct (Z.of_nat (length items) <=? Z.of_nat size)%Z.
  - simpl. intros Hi. now replace i with 0 by lia.
  - rewrite Nat2Z.id. intros Hi.
    apply lookup_lt_is_Some_2 in Hi as [batch Hb].
    rewrite slices_lookup in Hb by lia.
    destruct (i * size <? length items) eqn:E; [|discriminate].
    apply Nat.ltb_lt in E.
    rewrite slices_take_concat, length_take by lia. lia.
Qed.

Section TranslationCalls.

Variable H : host.
Variable env : Config.environment.
Variable llm : nat -> response.

Lemma translateSingleLine_calls (text : jsstring) (n : nat) :
  exists s n',
    translateSingleLineWithGemini llm text n = (Ok s, n') /\
    n <= n' <= S n.
Proof.
  unfold translateSingleLineWithGemini, andThen, generateContent, ret.
  destruct (streq text []); [exists [], n; split; [reflexivity|lia]|].
  destruct (llm n) as [msg|t]; [exists [], (S n); split; [reflexivity|lia]|].
  destruct (streq (trim t) []); eexists _, (S n); (split; [reflexivity|lia]).
Qed.

Lemma settleLine_calls (chunk : list jsval) (i : nat) (current : line)
    (n : nat) :
  exists out n',
    settleLine llm chunk i current n = (Ok out, n') /\
    l_index out = l_index current /\ n <= n' <= S n.
Proof.
  unfold settleLine.
  destruct (CYRILLIC_REGEX_test _).
  - unfold ret. eexists _, n. split; [reflexivity|]. split; [reflexivity|lia].
  - unfold andThen.
    destruct (translateSingleLine_calls (sourceText chunk i) n)
      as (s & n' & -> & Hn).
    unfold ret. eexists _, n'. split; [reflexivity|].
    split; [reflexivity|exact Hn].
Qed.

Lemma settleLines_calls (chunk : list jsval) (aligned : list line) :
  forall i n,
    exists out n',
      settleLines llm chunk i aligned n = (Ok out, n') /\
      map l_index out = map l_index aligned /\
      n <= n' <= n + length aligned.
Proof.
  induction aligned as [|current rest IH]; intros i n; simpl.
  - unfold ret. exists [], n. split; [reflexivity|]. split; [reflexivity|lia].
  - unfold andThen at 1.
    destruct (settleLine_calls chunk i current n) as (first & n1 & -> & Hi & Hn).
    unfold andThen at 1.
    destruct (IH (S i) n1) as (others & n2 & -> & His & Hn').
    unfold ret. exists (first :: others), n2. split; [reflexivity|].
    split; [simpl; now rewrite Hi, His|lia].
Qed.

(** One attempt: a failure costs exactly one call; a success gives the
    indices of the payload and costs one call and at most one more per
    line. *)
Lemma attempt_calls (chunk : list jsval) (offset n : nat) :
  match attempt H llm chunk offset n with
  | (Ok out, n') =>
      map l_index out = map ofNat (seq offset (length chunk)) /\
      S n <= n' <= S n + length chunk
  | (Throw _, n') => n' = S n
  end.
Proof.
  unfold attempt, andThen, generateContent, raise, lift.
  destruct (llm n) as [msg|responseText]; [reflexivity|].
  destruct (streq responseText []); [reflexivity|].
  destruct (matchArray responseText) as [json|]; [|reflexivity].
  destruct (parseRepaired H json) as [[| | | | |parsed| |]|]; try reflexivity.
  destruct (normalizeItems _ _ _ _) as [normalized|e]; [|reflexivity].
  match goal with
  | |- context [settleLines _ _ _ ?aligned _] =>
      destruct (settleLines_calls chunk aligned 0 (S n))
        as (out' & n'' & -> & Hidx & Hn)
  end.
  rewrite length_imap in Hn. unfold payloadOf in Hn at 1.
  rewrite length_imap in Hn. split; [|exact Hn].
  rewrite Hidx, <- indicesOf_payloadOf. unfold indicesOf.
  assert (G : forall (l : list line) (f : nat -> line -> line),
             (forall i x, l_index (f i x) = l_index x) ->
             map l_index (imap f l) = map l_index l).
  { induction l as [|x l IH]; intros f Hf; [reflexivity|].
    simpl. rewrite Hf. f_equal. apply IH. intros i y. apply Hf. }
  apply G. intros i x. reflexivity.
Qed.

Lemma attempts_calls (chunk : list jsval) (offset : nat) (remaining : nat) :
  forall lastError n,
    match attempts H llm chunk offset remaining lastError n with
    | (Ok out, n') =>
        length out = length chunk /\
        map l_index out = map ofNat (seq offset (length chunk)) /\
        n < n' <= n + remaining + length chunk
    | (Throw _, n') => n' = n + remaining
    end.
Proof.
  induction remaining as [|remaining IH]; intros lastError n; simpl.
  - unfold raise. lia.
  - pose proof (attempt_calls chunk offset n) as Ha.
    destruct (attempt H llm chunk offset n) as [[aligned|e] n1] eqn:Ea.
    + destruct Ha as [Hidx Hn]. split; [eapply attempt_length, Ea|].
      split; [exact Hidx|lia].
    + subst n1. specialize (IH (Some e) (S n)).
      destruct (attempts _ _ _ _ _ _ _) as [[out|e'] n']; [|lia].
      destruct IH as (Hlen & Hidx & Hn). repeat split; try assumption; lia.
Qed.

End TranslationCalls.

(** X17. A call of translateChunkWithGemini that returns gives one line per
    chunk of the batch, with the indices offset, offset + 1, ... in this
    order, after at least one call of the model and at most one per attempt
    plus one per line; a call that throws has called the model exactly once
    per attempt. *)
Theorem translated_batch_aligned (H : host) (llm : nat -> response)
    (chunk : list jsval) (offset : nat) (maxAttempts : Z) (n : nat) :
  match translateChunkWithGemini H llm chunk offset maxAttempts n with
  | (Ok out, n') =>
      length out = length chunk /\
      map l_index out = map ofNat (seq offset (length chunk)) /\
      n < n' <= n + Z.to_nat maxAttempts + length chunk
  | (Throw _, n') => n' = n + Z.to_nat maxAttempts
  end.
Proof.
  unfold translateChunkWithGemini. apply attempts_calls.
Qed.

Section TranslationBatches.

Variable H : host.
Variable env : Config.environment.
Variable llm : nat -> response.

(** The loop over the batches, cut at any batch. *)
Lemma translateBatches_app (pre rest : list (list jsval)) :
  forall translations n,
    translateBatches H env llm (pre ++ rest) translations n
    = match translateBatches H env llm pre translations n with
      | (Ok done, n') => translateBatches H env llm rest done n'
      | (Throw e, n') => (Throw e, n')
      end.
Proof.
  induction pre as [|segment pre IH]; intros translations n; [reflexivity|].
  simpl. unfold andThen, lift.
  destruct (translateChunkWithGemini _ _ _ _ _ _) as [[translated|e] n1];
    [|reflexivity].
  destruct (pushTranslations segment 0 translated) as [pushed|e];
    [|reflexivity].
  apply IH.
Qed.

(** What is pushed for a batch: objects with a string text, the timestamp
    of the source chunk at the same position and the source text. *)
Lemma pushTranslations_shape (segment : list jsval) (translated : list line) :
  forall index pushed,
    pushTranslations segment index translated = Ok pushed ->
    Forall2 (fun c source =>
               exists s x,
                 c = JObj [(str "text", JStr s);
                           (str "timestamp", getProp source "timestamp");
                           (str "sourceText", x)])
            pushed (take (length translated) (drop index segment)).
Proof.
  induction translated as [|item rest IH]; intros index pushed; simpl.
  - intros [= <-]. constructor.
  - destruct (segment !! index) as [sourceChunk|] eqn:Hs; [|discriminate].
    intros E. ok_steps. subst pushed.
    rewrite (drop_S _ _ _ Hs). simpl. constructor; [eauto|].
    apply IH. exact Ea.
Qed.

Lemma translateBatches_shape (chunked : list (list jsval)) :
  forall translations n n' out,
    translateBatches H env llm chunked translations n = (Ok out, n') ->
    exists pushed,
      out = translations ++ pushed /\
      Forall2 (fun c source =>
                 exists s x,
                   c = JObj [(str "text", JStr s);
                             (str "timestamp", getProp source "timestamp");
                             (str "sourceText", x)])
              pushed (concat chunked).
Proof.
  induction chunked as [|segment rest IH]; intros translations n n' out; simpl.
  - unfold ret. intros [= <- <-]. exists []. rewrite app_nil_r.
    split; [reflexivity|constructor].
  - unfold andThen at 1.
    destruct (translateChunkWithGemini _ _ _ _ _ _) as [[translated|e] n1]
      eqn:Et; [|discriminate].
    apply attempts_length in Et.
    unfold andThen at 1, lift.
    destruct (pushTranslations segment 0 translated) as [pushed|e] eqn:Ep;
      [|discriminate].
    apply pushTranslations_shape in Ep.
    rewrite Et, drop_0, take_ge in Ep by lia.
    intros E. apply IH in E as (pushed' & -> & Hshape).
    exists (pushed ++ pushed'). split; [now rewrite app_assoc|].
    now apply Forall2_app.
Qed.

(** The loop returns when every batch is translated. *)
Lemma translateBatches_returns (chunked : list (list jsval)) :
  (forall segment offset n,
      exists out n',
        translateChunkWithGemini H llm segment offset (MAX_ATTEMPTS env) n
        = (Ok out, n')) ->
  forall translations n,
    exists out n',
      translateBatches H env llm chunked translations n = (Ok out, n').
Proof.
  intros Hchunk.
  induction chunked as [|segment rest IH]; intros translations n; simpl.
  - unfold ret. eauto.
  - unfold andThen at 1.
    destruct (Hchunk segment (length translations) n) as (translated & n1 & Et).
    rewrite Et. assert (Hlen : length translated = length segment)
      by (eapply attempts_length, Et).
    unfold andThen at 1, lift.
    destruct (pushTranslations_returns segment translated 0) as [pushed ->];
      [lia|].
    apply IH.
Qed.

End TranslationBatches.

(** What the validator makes of pushed translations of valid chunks. *)
Lemma validate_pushed (label : string) (pushed chunks : list jsval) :
  Forall2 (fun c source =>
             exists s x,
               c = JObj [(str "text", JStr s);
                         (str "timestamp", getProp source "timestamp");
                         (str "sourceText", x)])
          pushed chunks ->
  Forall validChunk chunks ->
  exists out,
    mapM (validateChunk label) pushed = Ok out /\
    map (fun c => getProp c "timestamp") out
    = map (fun c => getProp c "timestamp") chunks /\
    Forall validChunk out.
Proof.
  induction 1 as [|c source pushed chunks (s & x & ->) _ IH].
  - intros _. exists []. repeat split; constructor.
  - intros Hall. apply Forall_cons in Hall as [Hv Hall].
    destruct (IH Hall) as (out & Hout & Hts & Hvalid).
    destruct Hv as (text & t0 & t1 & -> & Htrim & H0 & H1).
    assert (Hc : validateChunk label
                   (JObj [(str "text", JStr s);
                          (str "timestamp",
                           getProp (JObj [(str "text", JStr text);
                                          (str "timestamp",
                                           JArr [JNum t0; JNum t1])])
                                   "timestamp");
                          (str "sourceText", x)])
                 = Ok (JObj [(str "text", JStr (trim s));
                             (str "timestamp", JArr [JNum t0; JNum t1])])).
    { unfold validateChunk, normalizeTimestamp. simpl isObjectLike. cbv iota.
      read_obj. simpl nullish. simpl assertString. simpl Js.bind.
      unfold item. simpl. rewrite H0, H1. reflexivity. }
    exists (JObj [(str "text", JStr (trim s));
                  (str "timestamp", JArr [JNum t0; JNum t1])] :: out).
    split; [|split].
    + cbn [mapM]. rewrite Hc. cbn [Js.bind]. rewrite Hout. reflexivity.
    + cbn [map]. rewrite Hts. read_obj. reflexivity.
    + constructor; [|exact Hvalid].
      exists (trim s), t0, t1. repeat split; try assumption. apply trim_idem.
Qed.

(** The validator on an object literal with a string and an array. *)
Lemma validate_view (label : string) (text : jsstring)
    (chunks out : list jsval) :
  mapM (validateChunk label) chunks = Ok out ->
  validateTranscriptionStructure
    (JObj [(str "fullText", JStr text); (str "chunks", JArr chunks)]) label
  = Ok (JObj [(str "fullText", JStr (trim text)); (str "text", JStr (trim text));
              (str "chunks", JArr out)]).
Proof.
  intros Hout. unfold validateTranscriptionStructure, viewText.
  simpl isObjectLike. cbv iota. read_obj. simpl nullish. simpl assertString.
  simpl Js.bind. unfold orElse. simpl truthy. cbv iota.
  rewrite Hout. reflexivity.
Qed.

Lemma chunksOf_view (a b : jsval) (chunks : list jsval) :
  chunksOf (JObj [(str "fullText", a); (str "text", b);
                  (str "chunks", JArr chunks)]) = chunks.
Proof. unfold chunksOf. now read_obj. Qed.

Lemma DEFAULT_CHUNK_SIZE_pos (env : Config.environment) :
  (1 <= DEFAULT_CHUNK_SIZE env)%Z.
Proof.
  unfold DEFAULT_CHUNK_SIZE, Config.translationChunkSize.
  destruct (parseInt10 _) as [parsed|]; [|simpl; lia].
  destruct (Z.eqb_spec (Z.max 1 parsed) 0); lia.
Qed.

Lemma MAX_ATTEMPTS_pos (env : Config.environment) : (1 <= MAX_ATTEMPTS env)%Z.
Proof.
  unfold MAX_ATTEMPTS, Config.translationAttempts.
  destruct (parseInt10 _) as [parsed|]; [|simpl; lia].
  destruct (Z.eqb_spec (Z.max 1 parsed) 0); lia.
Qed.

(** X18. Batch i of a transcription is sent with the offset i * size, the
    number of translations pushed for the batches before it: once those
    have been translated, the loop goes on with translateChunkWithGemini on
    batch i at that offset. *)
Theorem batch_offsets (H : host) (env : Config.environment)
    (llm : nat -> response) (chunks : list jsval) (i : nat)
    (batch done : list jsval) (n n1 : nat) :
  let chunked := chunkArray chunks (DEFAULT_CHUNK_SIZE env) in
  let size := Z.to_nat (DEFAULT_CHUNK_SIZE env) in
  chunked !! i = Some batch ->
  translateBatches H env llm (take i chunked) [] n = (Ok done, n1) ->
  length done = i * size /\
  translateBatches H env llm chunked [] n
  = andThen (translateChunkWithGemini H llm batch (i * size) (MAX_ATTEMPTS env))
      (fun translatedTexts =>
         andThen (lift (pushTranslations batch 0 translatedTexts))
           (fun pushed =>
              translateBatches H env llm (drop (S i) chunked) (done ++ pushed)))
      n1.
Proof.
  intros chunked size Hi Hdone.
  assert (Hlen : length done = i * size).
  { destruct (translateBatches_spec H env llm _ _ _ _ _ Hdone)
      as (pushed & -> & Hlen & _).
    rewrite app_nil_l, Hlen. subst chunked size.
    pose proof (DEFAULT_CHUNK_SIZE_pos env) as Hpos.
    rewrite <- (Z2Nat.id (DEFAULT_CHUNK_SIZE env)) at 1 by lia.
    apply chunkArray_before; [lia|].
    rewrite Z2Nat.id by lia. eapply lookup_lt_Some, Hi. }
  split; [exact Hlen|].
  rewrite <- (take_drop_middle chunked i batch Hi) at 1.
  rewrite translateBatches_app, Hdone. cbn [translateBatches].
  now rewrite Hlen.
Qed.

Lemma batch_offsets_witness :
  exists done n1,
    translateBatches Samples.oneLineHost Samples.onePerBatch
      Samples.oneLineModel
      (take 1 (chunkArray (chunksOf Samples.twoChunks)
                 (DEFAULT_CHUNK_SIZE Samples.onePerBatch))) [] 0
    = (Ok done, n1) /\
    length done = 1.
Proof.
  eexists _, _. split; [vm_compute; reflexivity|].
  refine (proj1 (batch_offsets Samples.oneLineHost Samples.onePerBatch
                   Samples.oneLineModel (chunksOf Samples.twoChunks) 1
                   _ _ 0 _ _ _));
    vm_compute; reflexivity.
Defined.

Section TranslationResult.

Variable H : host.
Variable env : Config.environment.
Variable llm : nat -> response.

(** The translation of a validated view with chunks, once the batches are
    translated. *)
Lemma translation_of_batches (chunks translations : list jsval) (n n' : nat) :
  Forall validChunk chunks ->
  translateBatches H env llm (chunkArray chunks (DEFAULT_CHUNK_SIZE env)) [] n
  = (Ok translations, n') ->
  exists text out,
    validateTranslationStructure
      (JObj [(str "fullText",
              JStr (trim (collapseSpaces false (joinTexts translations))));
             (str "chunks", JArr translations)])
    = Ok (JObj [(str "fullText", JStr text); (str "text", JStr text);
                (str "chunks", JArr out)]) /\
    map (fun c => getProp c "timestamp") out
    = map (fun c => getProp c "timestamp") chunks /\
    Forall validChunk out.
Proof.
  intros Hvalid Hb.
  apply translateBatches_shape in Hb as (pushed & -> & Hshape).
  rewrite app_nil_l in *.
  pose proof (DEFAULT_CHUNK_SIZE_pos env) as Hpos.
  rewrite <- (Z2Nat.id (DEFAULT_CHUNK_SIZE env)), chunkArray_concat in Hshape
    by lia.
  destruct (validate_pushed "translation" pushed chunks Hshape Hvalid)
    as (out & Hout & Hts & Hall).
  eexists _, out. split; [|split; assumption].
  unfold validateTranslationStructure. now apply validate_view.
Qed.

Lemma normalizeItems_returns (chunk : list jsval) (payload : list line)
    (parsed : list jsval) :
  Forall (fun item =>
            isObjectLike item = true /\
            exists q, getProp item "index" = JNum (Fin q)) parsed ->
  forall index,
    exists normalized,
      normalizeItems chunk payload index parsed = Ok normalized.
Proof.
  induction 1 as [|item parsed [Hobj [q Hq]] _ IH]; intros index; simpl.
  - eauto.
  - unfold normalizeItem. rewrite Hobj, Hq. cbn [Js.bind].
    destruct (IH (S index)) as [others ->]. cbn [Js.bind]. eauto.
Qed.

Lemma attempt_returns (chunk : list jsval) (offset n : nat) :
  answersWithObjects H llm ->
  exists out n', attempt H llm chunk offset n = (Ok out, n').
Proof.
  intros Hllm.
  destruct (Hllm n) as (text & json & parsed & Hn & Hne & Hm & Hp & Hitems).
  unfold attempt, andThen, generateContent, lift. rewrite Hn.
  destruct (streq text []) eqn:E; [apply streq_spec in E; contradiction|].
  rewrite Hm, Hp.
  destruct (normalizeItems_returns chunk (payloadOf offset chunk) parsed
              Hitems 0) as [normalized ->].
  match goal with
  | |- context [settleLines _ _ _ ?aligned _] =>
      destruct (settleLines_returns llm chunk aligned 0 (S n))
        as (out & n' & -> & _)
  end.
  eauto.
Qed.

Lemma translateChunk_returns (chunk : list jsval) (offset n : nat) :
  answersWithObjects H llm ->
  exists out n',
    translateChunkWithGemini H llm chunk offset (MAX_ATTEMPTS env) n
    = (Ok out, n').
Proof.
  intros Hllm. unfold translateChunkWithGemini.
  pose proof (MAX_ATTEMPTS_pos env) as Hpos.
  destruct (Z.to_nat (MAX_ATTEMPTS env)) as [|remaining] eqn:E; [lia|].
  simpl. destruct (attempt_returns chunk offset n Hllm) as (out & n' & ->).
  eauto.
Qed.

End TranslationResult.

(** X19. A translation that translateTranscription returns is aligned with
    the validated transcription: it has the same number of chunks, chunk i
    carries the timestamp of chunk i of the transcription, and every chunk
    holds a trimmed text and a timestamp only. *)
Theorem translation_aligned (H : host) (env : Config.environment)
    (llm : nat -> response) (transcription validated translation : jsval)
    (n n' : nat) :
  validateTranscriptionStructure transcription "transcription" = Ok validated ->
  translateTranscription H env llm transcription n = (Ok translation, n') ->
  length (chunksOf translation) = length (chunksOf validated) /\
  map (fun c => getProp c "timestamp") (chunksOf translation)
  = map (fun c => getProp c "timestamp") (chunksOf validated) /\
  Forall validChunk (chunksOf translation).
Proof.
  intros Hv. unfold translateTranscription, andThen at 1, lift at 1.
  rewrite Hv.
  apply validateTranscriptionStructure_inv in Hv
    as (raw & chunksRaw & chunks & _ & _ & _ & Hchunks & ->).
  apply Forall2_validChunks in Hchunks.
  rewrite chunksOf_view.
  assert (Hgoal : forall out,
             map (fun c => getProp c "timestamp") out
             = map (fun c => getProp c "timestamp") chunks ->
             Forall validChunk out ->
             length out = length chunks /\
             map (fun c => getProp c "timestamp") out
             = map (fun c => getProp c "timestamp") chunks /\
             Forall validChunk out).
  { intros out Hts Hall. split; [|split; assumption].
    apply (f_equal length) in Hts. now rewrite !length_map in Hts. }
  destruct chunks as [|c chunks].
  - unfold lift. intros [= <- <-]. rewrite chunksOf_view.
    apply Hgoal; [reflexivity|constructor].
  - unfold andThen at 1, lift at 1.
    destruct (getGeminiModel env) as [[]|e]; [|discriminate].
    unfold andThen at 1.
    destruct (translateBatches _ _ _ _ _ _) as [[translations|e] n1] eqn:Hb;
      [|discriminate].
    destruct (translation_of_batches H env llm _ _ _ _ Hchunks Hb)
      as (text & out & Hout & Hts & Hall).
    unfold lift. rewrite Hout. intros [= <- <-]. rewrite chunksOf_view.
    now apply Hgoal.
Qed.

Lemma translation_aligned_witness :
  exists translation n',
    translateTranscription Samples.oneLineHost Samples.onePerBatch
      Samples.oneLineModel Samples.twoChunks 0 = (Ok translation, n') /\
    map (fun c => getProp c "timestamp") (chunksOf translation)
    = [JArr [Samples.num 0; Samples.num 1]; JArr [Samples.num 1; Samples.num 2]].
Proof.
  eexists _, _. split; [vm_compute; reflexivity|].
  etransitivity.
  - refine (proj1 (proj2
              (translation_aligned Samples.oneLineHost Samples.onePerBatch
                 Samples.oneLineModel Samples.twoChunks _ _ 0 _ _ _)));
      vm_compute; reflexivity.
  - vm_compute. reflexivity.
Defined.

(** X20. With an API key configured and a model whose every response holds
    a JSON array of objects with a numeric index, translateTranscription
    returns a translation for every transcription the validator accepts,
    whatever the lengths of the arrays, the indices and the texts are. *)
Theorem translation_returns (H : host) (env : Config.environment)
    (llm : nat -> response) (transcription validated : jsval) (n : nat) :
  validateTranscriptionStructure transcription "transcription" = Ok validated ->
  Config.geminiApiKey env <> [] ->
  answersWithObjects H llm ->
  exists translation n',
    translateTranscription H env llm transcription n = (Ok translation, n').
Proof.
  intros Hv Hkey Hllm. unfold translateTranscription, andThen at 1, lift at 1.
  rewrite Hv.
  apply validateTranscriptionStructure_inv in Hv
    as (raw & chunksRaw & chunks & _ & _ & _ & Hchunks & ->).
  apply Forall2_validChunks in Hchunks.
  rewrite chunksOf_view.
  destruct chunks as [|c chunks].
  - unfold lift. eexists _, n. vm_compute. reflexivity.
  - unfold andThen at 1, lift at 1, getGeminiModel.
    destruct (streq (Config.geminiApiKey env) []) eqn:E;
      [apply streq_spec in E; contradiction|].
    unfold andThen at 1.
    destruct (translateBatches_returns H env llm
                (chunkArray (c :: chunks) (DEFAULT_CHUNK_SIZE env))
                (fun segment offset k =>
                   translateChunk_returns H env llm segment offset k Hllm)
                [] n) as (translations & n1 & Hb).
    rewrite Hb.
    destruct (translation_of_batches H env llm _ _ _ _ Hchunks Hb)
      as (text & out & Hout & _).
    unfold lift. rewrite Hout. eauto.
Qed.

Lemma translation_returns_witness :
  exists translation n',
    translateTranscription Samples.oneLineHost Samples.onePerBatch
      Samples.oneLineModel Samples.twoChunks 0 = (Ok translation, n').
Proof.
  eapply (translation_returns Samples.oneLineHost Samples.onePerBatch
            Samples.oneLineModel Samples.twoChunks).
  - vm_compute. reflexivity.
  - vm_compute. discriminate.
  - intros k. eexists _, _, _.
    split; [reflexivity|]. split; [discriminate|].
    split; [vm_compute; reflexivity|]. split; [reflexivity|].
    constructor; [|constructor]. split; [reflexivity|].
    eexists. vm_compute. reflexivity.
Defined.

(** X21. The translator calls the model only for a transcription with
    chunks and with an API key: a transcription the validator rejects
    throws the validator's error, one without chunks gives the empty
    translation whether a key is configured or not, and one with chunks
    but without a key throws; none of the three calls the model. *)
Theorem translation_without_calls (H : host) (env : Config.environment)
    (llm : nat -> response) (transcription : jsval) (n : nat) :
  match validateTranscriptionStructure transcription "transcription" with
  | Throw e => translateTranscription H env llm transcription n = (Throw e, n)
  | Ok validated =>
      (chunksOf validated = [] ->
       translateTranscription H env llm transcription n
       = (Ok (JObj [(str "fullText", JStr []); (str "text", JStr []);
                    (str "chunks", JArr [])]), n)) /\
      (chunksOf validated <> [] -> Config.geminiApiKey env = [] ->
       translateTranscription H env llm transcription n
       = (Throw (Error "Google Gemini API key is not configured."), n))
  end.
Proof.
  unfold translateTranscription, andThen, lift, getGeminiModel.
  destruct (validateTranscriptionStructure transcription "transcription")
    as [validated|e]; [|reflexivity].
  cbv zeta. split.
  - intros ->. reflexivity.
  - intros Hne Hkey. rewrite Hkey.
    destruct (chunksOf validated); [contradiction|reflexivity].
Qed.

Lemma translation_without_calls_witness :
  translateTranscription Samples.oneLineHost Samples.unset
    Samples.refusingModel Samples.twoChunks 7
  = (Throw (Error "Google Gemini API key is not configured."), 7).
Proof.
  pose proof (translation_without_calls Samples.oneLineHost Samples.unset
                Samples.refusingModel Samples.twoChunks 7) as W.
  vm_compute in W. destruct W as [_ W]. vm_compute.
  apply W; [discriminate|reflexivity].
Defined.

(** * The orchestrator *)

Import Orchestrator.

Lemma SAFE_CHARSET_alphanumeric :
  Forall (fun c => isAlphanumeric c = true) SAFE_CHARSET.
Proof. repeat constructor. Qed.

(** X22. Given the bytes of crypto.randomBytes(length), generateSafeId
    returns exactly length characters, each an ASCII letter or digit,
    whatever the bytes are. *)
Theorem safe_id_alphanumeric (bytes : list N) (len : nat) :
  length bytes = len ->
  length (generateSafeId bytes len) = len /\
  Forall (fun c => isAlphanumeric c = true) (generateSafeId bytes len).
Proof.
  intros Hlen. unfold generateSafeId.
  assert (G : forall indices,
             Forall (fun i => i < length bytes) indices ->
             let id := flat_map
               (fun i =>
                  match bytes !! i with
                  | Some byte =>
                      match SAFE_CHARSET
                            !! N.to_nat
                                 (byte mod N.of_nat (length SAFE_CHARSET)) with
                      | Some c => [c]
                      | None => str "undefined"
                      end
                  | None => str "undefined"
                  end) indices in
             length id = length indices /\
             Forall (fun c => isAlphanumeric c = true) id).
  { induction 1 as [|i indices Hi _ [IHlen IHall]]; [split; constructor|].
    cbn [flat_map].
    destruct (lookup_lt_is_Some_2 bytes i Hi) as [byte ->].
    match goal with
    | |- context [SAFE_CHARSET !! ?k] =>
        destruct (SAFE_CHARSET !! k) as [c|] eqn:Hc
    end.
    2:{ apply lookup_ge_None in Hc.
        change (length SAFE_CHARSET) with 62 in Hc.
        pose proof (N.mod_upper_bound byte (N.of_nat 62)). lia. }
    split; [rewrite length_app, IHlen; reflexivity|].
    apply Forall_app. split; [|exact IHall].
    constructor; [|constructor].
    pose proof SAFE_CHARSET_alphanumeric as Hall.
    rewrite Forall_lookup in Hall. exact (Hall _ _ Hc). }
  destruct (G (seq 0 len)) as [G1 G2].
  - apply Forall_forall. intros i Hi. apply list_elem_of_In, in_seq in Hi. lia.
  - rewrite length_seq in G1. split; assumption.
Qed.

Lemma safe_id_alphanumeric_witness :
  length (generateSafeId [0; 61; 62; 255]%N 4) = 4 /\
  generateSafeId [0; 61; 62; 255]%N 4 = str "a9ah".
Proof.
  split; [|reflexivity].
  apply (safe_id_alphanumeric [0; 61; 62; 255]%N 4). reflexivity.
Defined.

(** X23. prepareVideoOutputs absorbs every failure of the HLS stage: it
    throws only what its last call, an upload of the MP4, throws, and the
    MP4 is uploaded at most twice, exactly once with no other call when HLS
    is switched off.  When the HLS upload returns a truthy URL, that URL is
    the video URL, with no fallback URL when the MP4 fallback is switched
    off and with the URL of the MP4 upload as the fallback when it is
    switched on and that upload returns.  When that upload throws, the HLS
    URL is discarded: the MP4 is uploaded once more and the result of that
    second upload is the result, without a fallback URL.  A fallback URL is
    set in no other way than by a first MP4 upload after an HLS upload has
    returned, with HLS and the MP4 fallback switched on. *)
Theorem outputs_fall_back_to_mp4 (cfg : hlsSettings) (svc : services) :
  (let (r, calls) := prepareVideoOutputs cfg svc in
   uploadsIn calls <= 2 /\
   (enabled cfg = false -> calls = [UploadVideo]) /\
   match r with
   | Ok out =>
       ((enabled cfg = true /\ truthy (videoUrl out) = true /\
         exists hlsResult,
           generateHlsPackages svc = Ok (Some hlsResult) /\
           uploadHlsDirectory svc hlsResult = Ok (videoUrl out))
        \/
        (last calls = Some UploadVideo /\
         uploadVideo svc (uploadsIn calls - 1) = Ok (videoUrl out))) /\
       (fallbackUrl out = JNull \/
        (enabled cfg = true /\ includeMp4Fallback cfg = true /\
         (exists hlsResult hlsUrl,
             generateHlsPackages svc = Ok (Some hlsResult) /\
             uploadHlsDirectory svc hlsResult = Ok hlsUrl) /\
         uploadVideo svc 0 = Ok (fallbackUrl out)))
   | Throw e =>
       last calls = Some UploadVideo /\
       uploadVideo svc (uploadsIn calls - 1) = Throw e
   end) /\
  (forall hlsResult hlsUrl,
      enabled cfg = true ->
      generateHlsPackages svc = Ok (Some hlsResult) ->
      uploadHlsDirectory svc hlsResult = Ok hlsUrl ->
      truthy hlsUrl = true ->
      (includeMp4Fallback cfg = false ->
       prepareVideoOutputs cfg svc
       = (Ok {| videoUrl := hlsUrl; fallbackUrl := JNull |},
          [GenerateHls; UploadHls])) /\
      (forall fallback,
          includeMp4Fallback cfg = true ->
          uploadVideo svc 0 = Ok fallback ->
          prepareVideoOutputs cfg svc
          = (Ok {| videoUrl := hlsUrl; fallbackUrl := fallback |},
             [GenerateHls; UploadHls; UploadVideo]))) /\
  (forall hlsResult hlsUrl e,
      enabled cfg = true ->
      generateHlsPackages svc = Ok (Some hlsResult) ->
      uploadHlsDirectory svc hlsResult = Ok hlsUrl ->
      includeMp4Fallback cfg = true ->
      uploadVideo svc 0 = Throw e ->
      prepareVideoOutputs cfg svc
      = (match uploadVideo svc 1 with
         | Ok url => Ok {| videoUrl := url; fallbackUrl := JNull |}
         | Throw e' => Throw e'
         end,
         [GenerateHls; UploadHls; UploadVideo; UploadVideo])).
Proof.
  split; [|split].
  - unfold prepareVideoOutputs, hlsStage.
    destruct (enabled cfg) eqn:Hen;
      [destruct (generateHlsPackages svc) as [[hlsResult|]|e0] eqn:Hg;
       [destruct (uploadHlsDirectory svc hlsResult) as [primaryUrl|e1] eqn:Hu;
        [destruct (includeMp4Fallback cfg) eqn:Hfb;
         [destruct (uploadVideo svc 0) as [fallback|e2] eqn:Hf|];
         try destruct (truthy primaryUrl) eqn:Ht|]| |]|];
      cbn [truthy uploadsIn];
      try match goal with
          | |- context [uploadVideo svc ?k] =>
              destruct (uploadVideo svc k) as [url|e] eqn:Hv
          end;
      cbn [uploadsIn app videoUrl fallbackUrl last Nat.sub];
      (split; [lia|]);
      (split; [intros; first [discriminate|reflexivity]|]);
      try (split; [reflexivity|assumption]);
      (split;
       [first [ left; split; [reflexivity|];
                split; [assumption|]; eexists; split; [reflexivity|assumption]
              | right; split; [reflexivity|assumption] ]
       |first [ left; reflexivity
              | right; split; [reflexivity|]; split; [reflexivity|];
                split; [eexists _, _; split; [reflexivity|eassumption]
                       |reflexivity] ]]).
  - intros hlsResult hlsUrl Hen Hg Hu Ht.
    unfold prepareVideoOutputs, hlsStage. rewrite Hen, Hg, Hu. split.
    + intros Hfb. rewrite Hfb, Ht. reflexivity.
    + intros fallback Hfb Hf. rewrite Hfb, Hf, Ht. reflexivity.
  - intros hlsResult hlsUrl e Hen Hg Hu Hfb Hf.
    unfold prepareVideoOutputs, hlsStage. rewrite Hen, Hg, Hu, Hfb, Hf.
    cbn [truthy uploadsIn]. destruct (uploadVideo svc 1); reflexivity.
Qed.

Lemma outputs_fall_back_to_mp4_witness :
  let svc := {| generateHlsPackages :=
                  Ok (Some {| outputDir := JStr (str "temp/clip-hls");
                              masterPlaylistName := JStr (str "master.m3u8") |});
                uploadHlsDirectory := fun _ => Ok (JStr (str "hls"));
                uploadVideo := fun k => match k with
                                        | 0 => Throw (Error "timeout")
                                        | _ => Ok (JStr (str "mp4"))
                                        end |} in
  prepareVideoOutputs {| enabled := true; includeMp4Fallback := true |} svc
  = (Ok {| videoUrl := JStr (str "mp4"); fallbackUrl := JNull |},
     [GenerateHls; UploadHls; UploadVideo; UploadVideo]).
Proof.
  intros svc.
  exact (proj2 (proj2 (outputs_fall_back_to_mp4
                         {| enabled := true; includeMp4Fallback := true |} svc))
           _ (JStr (str "hls")) (Error "timeout")
           eq_refl eq_refl eq_refl eq_refl eq_refl).
Defined.

(** * The exercise generator and the text analyzer *)

Section GeneratorFacts.

Variable H : host.
Variable env : Config.environment.
Variable model : nat -> Generator.reply.

(** An attempt that returns has read an array out of a reply with text and
    passed it through the validator. *)
Lemma exercise_attempt_inv (n : nat) (exercises : list jsval) :
  Generator.attempt H model n = Ok exercises ->
  exists text json parsed,
    model n = Generator.Text text /\
    matchArray text = Some json /\
    parseRepaired H json = Some parsed /\
    validateExercisesStructure parsed = Ok exercises.
Proof.
  unfold Generator.attempt, Generator.extractJsonArray.
  destruct (model n) as [message| |text]; try discriminate.
  cbn [Js.bind].
  destruct (matchArray text) as [json|] eqn:Hm; [|discriminate].
  cbn [Js.bind].
  destruct (parseRepaired H json) as [parsed|] eqn:Hp; [|discriminate].
  cbn [Js.bind]. intros E. eauto 10.
Qed.

End GeneratorFacts.

(** X24. Without an API key generateExercises throws at once, without a
    call of the model.  With a key it calls the model at most twice: what
    it returns is what validateExercisesStructure made of the array in the
    reply to its last call, a second call is made only after the first
    attempt threw, and it throws only after two calls, the error of the
    second attempt. *)
Theorem generated_exercises_are_validated (H : host)
    (env : Config.environment) (model : nat -> Generator.reply) (n : nat) :
  (Config.geminiApiKey env = [] ->
   Generator.generateExercises H env model n
   = (Throw (Error "Google Gemini API key is not configured."), n)) /\
  (Config.geminiApiKey env <> [] ->
   match Generator.generateExercises H env model n with
   | (Ok exercises, n') =>
       (n' = n + 1 \/
        n' = n + 2 /\ exists e, Generator.attempt H model n = Throw e) /\
       exists text json parsed,
         model (n' - 1) = Generator.Text text /\
         matchArray text = Some json /\
         parseRepaired H json = Some parsed /\
         validateExercisesStructure parsed = Ok exercises
   | (Throw e, n') =>
       n' = n + 2 /\
       (exists e1, Generator.attempt H model n = Throw e1) /\
       Generator.attempt H model (n + 1) = Throw e
   end).
Proof.
  unfold Generator.generateExercises, getGeminiModel. split.
  - intros ->. reflexivity.
  - intros Hkey.
    destruct (streq (Config.geminiApiKey env) []) eqn:E;
      [apply streq_spec in E; contradiction|].
    cbn [Generator.attempts Generator.EXERCISE_ATTEMPTS].
    destruct (Generator.attempt H model n) as [first|e1] eqn:E1.
    + split; [left; lia|].
      replace (S n - 1) with n by lia.
      now apply exercise_attempt_inv.
    + destruct (Generator.attempt H model (S n)) as [second|e2] eqn:E2.
      * split; [right; split; [lia|eauto]|].
        replace (S (S n) - 1) with (S n) by lia.
        now apply exercise_attempt_inv.
      * split; [lia|]. split; [eauto|].
        now replace (n + 1) with (S n) by lia.
Qed.

Lemma generated_exercises_are_validated_witness :
  Generator.generateExercises Samples.pipelineHost Samples.unset
    (fun _ => Generator.Text (str "[exercises]")) 5
  = (Throw (Error "Google Gemini API key is not configured."), 5) /\
  exists exercises,
    Generator.generateExercises Samples.pipelineHost Samples.onePerBatch
      (fun _ => Generator.Text (str "[exercises]")) 5
    = (Ok exercises, 6).
Proof.
  split.
  - apply (proj1 (generated_exercises_are_validated Samples.pipelineHost
                    Samples.unset _ 5)). reflexivity.
  - pose proof (proj2 (generated_exercises_are_validated Samples.pipelineHost
                         Samples.onePerBatch
                         (fun _ => Generator.Text (str "[exercises]")) 5))
      as W.
    destruct (Generator.generateExercises _ _ _ _) as [[exercises|e] n'] eqn:E;
      [|vm_compute in E; discriminate E].
    destruct W as [[->|[-> [e He]]] _];
      [vm_compute; discriminate| |vm_compute in He; discriminate He].
    exists exercises. now replace (5 + 1) with 6 by reflexivity.
Defined.

Section AnalyzerFacts.

Variable H : host.
Variable env : Config.environment.
Variable model : nat -> Generator.reply.
Variable parseObject : jsstring -> option (list (jsstring * jsval)).

Lemma analysis_attempt_inv (n : nat) (analysis : jsval) :
  Analyzer.attempt H model parseObject n = Ok analysis ->
  exists text json fields,
    model n = Generator.Text text /\
    Analyzer.matchObject text = Some json /\
    parseObject json = Some fields /\
    validateAnalysisStructure H (JObj (Analyzer.withDefaults fields))
    = Ok analysis.
Proof.
  unfold Analyzer.attempt, Analyzer.extractJson.
  destruct (model n) as [message| |text]; try discriminate.
  cbn [Js.bind].
  destruct (Analyzer.matchObject text) as [json|] eqn:Hm; [|discriminate].
  cbn [Js.bind].
  destruct (parseObject json) as [fields|] eqn:Hp; [|discriminate].
  cbn [Js.bind]. intros E. eauto 10.
Qed.

(** What analyzeText returns comes from one of its two attempts. *)
Lemma analyzeText_inv (n n' : nat) (analysis : jsval) :
  Analyzer.analyzeText H env model parseObject n = (Ok analysis, n') ->
  n < n' <= n + 2 /\
  Analyzer.attempt H model parseObject (n' - 1) = Ok analysis.
Proof.
  unfold Analyzer.analyzeText.
  destruct (getGeminiModel env); [|discriminate].
  cbn [Analyzer.attempts Analyzer.ANALYSIS_ATTEMPTS].
  destruct (Analyzer.attempt H model parseObject n) as [first|e1] eqn:E1.
  - intros [= <- <-]. split; [lia|].
    now replace (S n - 1) with n by lia.
  - destruct (Analyzer.attempt H model parseObject (S n)) as [second|e2] eqn:E2;
      [|discriminate].
    intros [= <- <-]. split; [lia|].
    now replace (S (S n) - 1) with (S n) by lia.
Qed.

(** The members the defaults leave or set. *)
Lemma withDefaults_topics (fields : list (jsstring * jsval)) :
  getProp (JObj (Analyzer.withDefaults fields)) "topics"
  = match getMember fields (str "topics") with
    | JArr (t :: ts) => JArr (t :: ts)
    | _ => JArr (map JStr (take 3 Config.videoTopics))
    end.
Proof.
  unfold Analyzer.withDefaults, getProp.
  set (fields1 := match getMember fields (str "topics") with
                  | JArr (_ :: _) => fields
                  | _ => setOwn fields (str "topics")
                           (JArr (map JStr (take 3 Config.videoTopics)))
                  end).
  assert (H1 : getMember fields1 (str "topics")
               = match getMember fields (str "topics") with
                 | JArr (t :: ts) => JArr (t :: ts)
                 | _ => JArr (map JStr (take 3 Config.videoTopics))
                 end).
  { subst fields1.
    destruct (getMember fields (str "topics")) as [| | | | |[|t ts]| |] eqn:E;
      try apply getMember_setOwn_same.
    exact E. }
  destruct (getMember fields1 (str "isAdultContent")); try exact H1;
    rewrite getMember_setOwn_other by reflexivity; exact H1.
Qed.

Lemma withDefaults_isAdultContent (fields : list (jsstring * jsval)) :
  getProp (JObj (Analyzer.withDefaults fields)) "isAdultContent"
  = JBool match getMember fields (str "isAdultContent") with
          | JBool b => b
          | _ => false
          end.
Proof.
  unfold Analyzer.withDefaults, getProp.
  set (fields1 := match getMember fields (str "topics") with
                  | JArr (_ :: _) => fields
                  | _ => setOwn fields (str "topics")
                           (JArr (map JStr (take 3 Config.videoTopics)))
                  end).
  assert (H1 : getMember fields1 (str "isAdultContent")
               = getMember fields (str "isAdultContent")).
  { subst fields1.
    destruct (getMember fields (str "topics")) as [| | | | |[|t ts]| |];
      try reflexivity; apply getMember_setOwn_other; reflexivity. }
  destruct (getMember fields1 (str "isAdultContent")) eqn:E;
    rewrite ?getMember_setOwn_same, <- ?H1, ?E; reflexivity.
Qed.

End AnalyzerFacts.

(** X25. What analyzeText returns comes from the reply to its last call,
    one of at most two, after the two defaults have been filled in: the
    adult-content flag of the result is the boolean of the reply and false
    when the reply holds no boolean, and when the reply holds no array of
    topics or an empty one, the topics of the result are the first three
    entries of the catalog. *)
Theorem analysis_defaults (H : host) (env : Config.environment)
    (model : nat -> Generator.reply)
    (parseObject : jsstring -> option (list (jsstring * jsval)))
    (n n' : nat) (analysis : jsval) :
  Analyzer.analyzeText H env model parseObject n = (Ok analysis, n') ->
  n < n' <= n + 2 /\
  exists text json fields,
    model (n' - 1) = Generator.Text text /\
    Analyzer.matchObject text = Some json /\
    parseObject json = Some fields /\
    getProp analysis "isAdultContent"
    = JBool match getMember fields (str "isAdultContent") with
            | JBool b => b
            | _ => false
            end /\
    ((forall t ts, getMember fields (str "topics") <> JArr (t :: ts)) ->
     getProp analysis "topics" = JArr (map JStr (take 3 Config.videoTopics))).
Proof.
  intros E. apply analyzeText_inv in E as [Hn E]. split; [exact Hn|].
  apply analysis_attempt_inv in E as (text & json & fields & Hm & Ht & Hp & E).
  exists text, json, fields. repeat split; try assumption.
  - apply validateAnalysisStructure_inv in E
      as (cefr & speed & grammar & vocabulary & topicsRaw & mapped
          & _ & _ & _ & _ & _ & _ & ->).
    read_obj. now rewrite withDefaults_isAdultContent.
  - intros Hnone.
    apply validateAnalysisStructure_inv in E
      as (cefr & speed & grammar & vocabulary & topicsRaw & mapped
          & _ & _ & _ & _ & Hraw & Hmapped & ->).
    rewrite withDefaults_topics in Hraw.
    assert (Hdefault : topicsRaw = map JStr (take 3 Config.videoTopics)).
    { destruct (getMember fields (str "topics")) as [| | | | |[|t ts]| |];
        try (now injection Hraw as <-).
      now destruct (Hnone t ts). }
    subst topicsRaw. vm_compute in Hmapped. injection Hmapped as <-.
    read_obj. reflexivity.
Qed.

Lemma analysis_defaults_witness :
  let model := fun _ : nat => Generator.Text (str "Sure: {...} done") in
  let parseObject := fun _ : jsstring =>
    Some [(str "cefrLevel", JStr (str "b2"));
          (str "speechSpeed", JStr (str "Fast"));
          (str "grammarComplexity", JStr (str "complex"));
          (str "vocabularyComplexity", JStr (str "advanced"));
          (str "topics", JStr (str "Space"));
          (str "isAdultContent", JStr (str "false"))] in
  exists analysis,
    Analyzer.analyzeText Samples.asciiHost Samples.onePerBatch model
      parseObject 0 = (Ok analysis, 1) /\
    getProp analysis "topics"
    = JArr [JStr (str "Business"); JStr (str "Technology");
            JStr (str "Science")].
Proof.
  intros model parseObject. eexists. split; [vm_compute; reflexivity|].
  match goal with
  | |- getProp ?a _ = _ =>
      assert (E : Analyzer.analyzeText Samples.asciiHost Samples.onePerBatch
                    model parseObject 0 = (Ok a, 1))
        by (vm_compute; reflexivity)
  end.
  destruct (analysis_defaults _ _ _ _ _ _ _ E)
    as [_ (text & json & fields & _ & _ & Hp & _ & Htopics)].
  injection Hp as <-. apply Htopics.
  intros t ts. vm_compute. discriminate.
Defined.

(** * The orchestrator: one video *)

Lemma next_inv {A B} (m : step A) (k : A -> step B) (st st2 : locals) (b : B) :
  next m k st = (Ok b, st2) ->
  exists a st1, m st = (Ok a, st1) /\ k a st1 = (Ok b, st2).
Proof.
  unfold next. destruct (m st) as [[a|e] st1]; [eauto|discriminate].
Qed.

Lemma await_inv {A} (r : result A) (st st1 : locals) (a : A) :
  await r st = (Ok a, st1) -> r = Ok a.
Proof. unfold await. now intros [= -> _]. Qed.

(** Everything the validator of the three views has checked when it
    returns. *)
Lemma validateTranscriptionVariantsStructure_inv (v : jsval) (label : string)
    (out : jsval) :
  validateTranscriptionVariantsStructure v label = Ok out ->
  exists text plain phrases words,
    trim text = text /\
    Forall validChunk plain /\ Forall validChunk phrases /\
    Forall validChunk words /\
    out = JObj [(str "plain",
                 JObj [(str "fullText", JStr text); (str "text", JStr text);
                       (str "chunks", JArr plain)]);
                (str "phrases",
                 JObj [(str "fullText", JStr text); (str "text", JStr text);
                       (str "chunks", JArr phrases)]);
                (str "words",
                 JObj [(str "fullText", JStr text); (str "text", JStr text);
                       (str "chunks", JArr words)]);
                (str "fullText", JStr text)].
Proof.
  unfold validateTranscriptionVariantsStructure. intros E. ok_steps.
  apply validateTranscriptionStructure_inv in Ea
    as (rp & ? & cp & _ & _ & _ & Hcp & ->).
  apply validateTranscriptionStructure_inv in Ea0
    as (rph & ? & cph & _ & _ & _ & Hcph & ->).
  apply validateTranscriptionStructure_inv in Ea1
    as (rw & ? & cw & _ & _ & _ & Hcw & ->).
  apply Forall2_validChunks in Hcp, Hcph, Hcw.
  revert Ec0 E. read_obj. simpl strictEq. intros Ec0 E.
  apply negb_true_iff, orb_false_iff in Ec0 as [E1 E2].
  apply negb_false_iff, streq_spec in E1, E2.
  rewrite E1, E2 in E. subst out.
  exists (trim rp), cp, cph, cw. repeat split; try assumption.
  apply trim_idem.
Qed.

(** The validator of the three views returns a value of that shape as it
    is. *)
Lemma variants_fixed (label : string) (text : jsstring)
    (plain phrases words : list jsval) :
  trim text = text ->
  Forall validChunk plain -> Forall validChunk phrases ->
  Forall validChunk words ->
  let view chunks :=
    JObj [(str "fullText", JStr text); (str "text", JStr text);
          (str "chunks", JArr chunks)] in
  let out := JObj [(str "plain", view plain); (str "phrases", view phrases);
                   (str "words", view words); (str "fullText", JStr text)] in
  validateTranscriptionVariantsStructure out label = Ok out.
Proof.
  intros Htrim Hp Hph Hw view out. subst view out.
  unfold validateTranscriptionVariantsStructure.
  simpl isObjectLike. cbv iota. read_obj.
  rewrite !validateTranscriptionStructure_fixed by assumption.
  simpl Js.bind. read_obj. simpl strictEq.
  rewrite !streq_refl. reflexivity.
Qed.

(** What translateTranscription returns for a validated view. *)
Lemma translateTranscription_inv (H : host) (env : Config.environment)
    (llm : nat -> response) (text : jsstring) (chunks : list jsval)
    (translation : jsval) (n n' : nat) :
  trim text = text -> Forall validChunk chunks ->
  translateTranscription H env llm
    (JObj [(str "fullText", JStr text); (str "text", JStr text);
           (str "chunks", JArr chunks)]) n = (Ok translation, n') ->
  exists translated out,
    translation = JObj [(str "fullText", JStr translated);
                        (str "text", JStr translated);
                        (str "chunks", JArr out)] /\
    trim translated = translated /\
    map (fun c => getProp c "timestamp") out
    = map (fun c => getProp c "timestamp") chunks /\
    Forall validChunk out.
Proof.
  intros Htrim Hchunks.
  unfold translateTranscription, andThen at 1, lift at 1.
  rewrite validateTranscriptionStructure_fixed by assumption.
  rewrite chunksOf_view.
  destruct chunks as [|c chunks].
  - unfold lift. intros [= <- <-]. exists [], [].
    repeat split; constructor.
  - unfold andThen at 1, lift at 1.
    destruct (getGeminiModel env) as [[]|e]; [|discriminate].
    unfold andThen at 1.
    destruct (translateBatches _ _ _ _ _ _) as [[translations|e] n1] eqn:Hb;
      [|discriminate].
    apply translateBatches_shape in Hb as (pushed & -> & Hshape).
    rewrite app_nil_l in *.
    pose proof (DEFAULT_CHUNK_SIZE_pos env) as Hpos.
    rewrite <- (Z2Nat.id (DEFAULT_CHUNK_SIZE env)), chunkArray_concat
      in Hshape by lia.
    destruct (validate_pushed "translation" pushed _ Hshape Hchunks)
      as (out & Hout & Hts & Hall).
    unfold lift, validateTranslationStructure.
    rewrite (validate_view _ _ _ _ Hout). intros [= <- <-].
    eexists _, out. split; [reflexivity|].
    split; [apply trim_idem|]. split; assumption.
Qed.

Section PipelineFacts.

Variable H : host.
Variable env : Config.environment.
Variable extname basename dirname : jsstring -> jsstring.
Variable join : jsstring -> jsstring -> jsstring.
Variable configOutputDir : jsstring.
Variable cfg : hlsSettings.
Variable randomBytes : list N.
Variable extractAudio : result (jsstring * jsval).
Variable transcribeAudio : result jsval.
Variable llm : nat -> response.
Variable analysisModel exerciseModel : nat -> Generator.reply.
Variable parseObject : jsstring -> option (list (jsstring * jsval)).
Variable normalizeVideoAudio : result jsstring.
Variable renamed : renameOutcome.
Variable svc : services.
Variable saveVideoData : result jsval.
Variable writeFile : result unit.

(** The stages a run that returns has passed, with their values. *)
Lemma processing_inv (videoPath : jsstring) (st0 st : locals)
    (validated : jsval) :
  processing H env extname basename dirname join configOutputDir cfg
    randomBytes extractAudio transcribeAudio llm analysisModel exerciseModel
    parseObject normalizeVideoAudio renamed svc saveVideoData writeFile
    videoPath st0 = (Ok validated, st) ->
  exists raw transcription translation validatedTranslation analysis
         validatedAnalysis exercises durationSeconds url,
    transcribeAudio = Ok raw /\
    validateTranscriptionVariantsStructure raw "transcription"
    = Ok transcription /\
    fst (translateTranscription H env llm (getProp transcription "phrases") 0)
    = Ok translation /\
    validateTranslationStructure translation = Ok validatedTranslation /\
    fst (Analyzer.analyzeText H env analysisModel parseObject 0)
    = Ok analysis /\
    validateAnalysisStructure H analysis = Ok validatedAnalysis /\
    fst (Generator.generateExercises H env exerciseModel 0) = Ok exercises /\
    validateProcessedVideo H
      (JObj [(str "videoName",
              JStr (safeVideoFileName
                      (createSafeFileNames H (extname videoPath) randomBytes)));
             (str "transcription", transcription);
             (str "translation", validatedTranslation);
             (str "analysis", validatedAnalysis);
             (str "exercises", JArr exercises);
             (str "durationSeconds", durationSeconds);
             (str "videoUrl", url);
             (str "isAdultContent",
              getProp validatedAnalysis "isAdultContent")])
    = Ok validated.
Proof.
  unfold processing. intros E.
  repeat match type of E with
         | next _ _ _ = (Ok _, _) =>
             let a := fresh "a" in
             let st1 := fresh "st" in
             let Ea := fresh "E" a in
             apply next_inv in E as (a & st1 & Ea & E);
             try apply await_inv in Ea
         end.
  unfold pure in E. injection E as <- <-.
  do 9 eexists. repeat split; eassumption.
Qed.

(** X26. In every record processVideo returns, the translation is aligned
    with the phrases view of the transcription: both hold the same number
    of chunks, chunk i of the translation carries the timestamp of chunk i
    of the phrases view, and every chunk of either holds a trimmed text and
    a timestamp of two numbers. *)
Theorem processed_record_aligned (videoPath : jsstring) (validated : jsval)
    (calls : list fsCall) :
  processVideo H env extname basename dirname join configOutputDir cfg
    randomBytes extractAudio transcribeAudio llm analysisModel exerciseModel
    parseObject normalizeVideoAudio renamed svc saveVideoData writeFile
    videoPath = (Ok validated, calls) ->
  exists text phrases translated out,
    getProp (getProp validated "transcription") "phrases"
    = JObj [(str "fullText", JStr text); (str "text", JStr text);
            (str "chunks", JArr phrases)] /\
    getProp validated "translation"
    = JObj [(str "fullText", JStr translated); (str "text", JStr translated);
            (str "chunks", JArr out)] /\
    length out = length phrases /\
    map (fun c => getProp c "timestamp") out
    = map (fun c => getProp c "timestamp") phrases /\
    Forall validChunk phrases /\ Forall validChunk out.
Proof.
  unfold processVideo.
  destruct (processing _ _ _ _ _ _ _ _ _ _ _ _ _ _ _ _ _ _ _ _ _ _)
    as [r st] eqn:E.
  intros [= -> _].
  apply processing_inv in E
    as (raw & transcription & translation & validatedTranslation & analysis
        & validatedAnalysis & exercises & durationSeconds & url
        & _ & Hv & Htr & Hvt & _ & _ & _ & Hp).
  apply validateTranscriptionVariantsStructure_inv in Hv
    as (text & plain & phrases & words & Htrim & Hpl & Hph & Hw & ->).
  revert Htr. read_obj. intros Htr.
  destruct (translateTranscription _ _ _ _ _) as [r n'] eqn:Et.
  cbn [fst] in Htr. subst r.
  apply translateTranscription_inv in Et
    as (translated & out & -> & Htt & Hts & Hall); try assumption.
  unfold validateTranslationStructure in Hvt.
  rewrite validateTranscriptionStructure_fixed in Hvt by assumption.
  injection Hvt as <-.
  unfold validateProcessedVideo in Hp. simpl isObjectLike in Hp.
  cbv iota in Hp. revert Hp. read_obj.
  rewrite (variants_fixed "videoData.transcription" text plain phrases words)
    by assumption.
  unfold validateTranslationStructure.
  rewrite validateTranscriptionStructure_fixed by assumption.
  intros Hp. ok_steps. subst validated. read_obj.
  exists text, phrases, translated, out.
  repeat split; try assumption.
  apply (f_equal length) in Hts. now rewrite !length_map in Hts.
Qed.

(** Symbolic execution of the body of processVideo, one stage at a time. *)
Ltac exec :=
  cbv [next await pure record setAudioPath setNormalizedVideoPath renameTo];
  cbn [audioPath normalizedVideoPath fsCalls fst snd app].
Ltac stage :=
  exec;
  match goal with
  | |- next (if ?c then _ else _) _ _ = _ -> _ =>
      destruct c eqn:?
  | |- (match (if ?c then _ else _) _ with _ => _ end) = _ -> _ =>
      destruct c eqn:?
  | |- (match ?R with Ok _ => _ | Throw _ => _ end) = _ -> _ =>
      destruct R as [?|?] eqn:?
  | |- context [match ?R with
                | Renamed => _
                | CrossDevice _ _ => _
                | RenameFailed _ => _
                end] =>
      destruct R as [|? ?|?] eqn:?
  | |- context [match ?R with Ok _ => _ | Throw _ => _ end] =>
      is_var R; destruct R as [?|?] eqn:?
  end.
Ltac settle :=
  exec; intros [= <- <-]; exec;
  repeat match goal with
         | p : (_ * _)%type |- _ => destruct p
         end;
  exec;
  (split; [reflexivity|]);
  (split;
   [first [ left; reflexivity
          | right; eexists; split; [reflexivity|];
            first [left; reflexivity | right; reflexivity] ]|]);
  (split;
   [intros path Hin;
    repeat match goal with
           | Hin : _ ∈ _ :: _ |- _ =>
               apply elem_of_cons in Hin as [Hin|Hin]
           | Hin : _ ∈ [] |- _ => apply elem_of_nil in Hin; contradiction
           end;
    first [discriminate | injection Hin as ->; reflexivity]|]);
  first [ intros [v Hv]; discriminate Hv
        | intros _; eexists; split; [reflexivity|];
          match goal with
          | Hc : streq _ _ = _ |- _ => rewrite Hc; reflexivity
          end ].

(** Where a run leaves the locals, whatever its result is. *)
Lemma processing_state (videoPath : jsstring) (r : result jsval)
    (st : locals) :
  let safe := safeVideoFileName
                (createSafeFileNames H (extname videoPath) randomBytes) in
  processing H env extname basename dirname join configOutputDir cfg
    randomBytes extractAudio transcribeAudio llm analysisModel exerciseModel
    parseObject normalizeVideoAudio renamed svc saveVideoData writeFile
    videoPath {| audioPath := []; normalizedVideoPath := []; fsCalls := [] |}
  = (r, st) ->
  match extractAudio with
  | Ok (a, _) => audioPath st = a
  | Throw _ => audioPath st = []
  end /\
  (normalizedVideoPath st = [] \/
   exists p, normalizeVideoAudio = Ok p /\
             (normalizedVideoPath st = p \/
              normalizedVideoPath st = join (dirname p) safe)) /\
  (forall path, Unlink path ∈ fsCalls st -> normalizeVideoAudio = Ok path) /\
  ((exists v, r = Ok v) ->
   exists p, normalizeVideoAudio = Ok p /\
             normalizedVideoPath st
             = if streq (basename p) safe then p else join (dirname p) safe).
Proof.
  intros safe. unfold processing. fold safe.
  repeat first [stage | settle].
Qed.

Lemma streq_false_iff (a b : jsstring) : streq a b = false <-> a <> b.
Proof.
  rewrite <- not_true_iff_false. now rewrite streq_spec.
Qed.

(** The paths the finally block unlinks. *)
Lemma cleanup_unlinks (videoPath path : jsstring) (st : locals)
    (success : bool) :
  Unlink path ∈ cleanup videoPath st success <->
  (path = audioPath st /\ audioPath st <> []) \/
  (path = normalizedVideoPath st /\ normalizedVideoPath st <> [] /\
   normalizedVideoPath st <> videoPath) \/
  (path = videoPath /\ success = true).
Proof.
  unfold cleanup. rewrite !elem_of_app.
  destruct (streq (audioPath st) []) eqn:Ea;
    [apply streq_spec in Ea|apply streq_false_iff in Ea];
    (destruct (streq (normalizedVideoPath st) []) eqn:En;
     [apply streq_spec in En|apply streq_false_iff in En]);
    (destruct (streq (normalizedVideoPath st) videoPath) eqn:Ev;
     [apply streq_spec in Ev|apply streq_false_iff in Ev]);
    destruct success; cbn [negb andb];
    rewrite ?elem_of_cons, ?elem_of_nil;
    (split; intros Hin;
     [repeat match goal with
             | Hin : _ \/ _ |- _ => destruct Hin as [Hin|Hin]
             | Hin : False |- _ => destruct Hin
             | Hin : Unlink _ = Unlink _ |- _ => injection Hin as ->
             end
     |repeat match goal with
             | Hin : _ \/ _ |- _ => destruct Hin as [Hin|Hin]
             | Hin : _ /\ _ |- _ => destruct Hin as [-> Hin]
             end]);
    intuition congruence.
Qed.


(** X27. The cleanup of processVideo, when neither the extracted audio nor
    the normalized video has the path of the input video.  The input video
    is unlinked exactly when the run succeeded.  The audio file is unlinked
    on every exit once the extraction has returned its path.  After a run
    that succeeded the normalized video is unlinked under the name it has
    then.  Nothing else is unlinked than the input video, the audio file
    and the normalized video under one of its two names; the HLS directory
    is never removed. *)
Theorem cleanup_contract (videoPath : jsstring) (r : result jsval)
    (calls : list fsCall) :
  let safe := safeVideoFileName
                (createSafeFileNames H (extname videoPath) randomBytes) in
  processVideo H env extname basename dirname join configOutputDir cfg
    randomBytes extractAudio transcribeAudio llm analysisModel exerciseModel
    parseObject normalizeVideoAudio renamed svc saveVideoData writeFile
    videoPath = (r, calls) ->
  (forall a d, extractAudio = Ok (a, d) -> a <> videoPath) ->
  (forall p, normalizeVideoAudio = Ok p -> p <> videoPath) ->
  (Unlink videoPath ∈ calls <-> exists v, r = Ok v) /\
  (forall a d, extractAudio = Ok (a, d) -> a <> [] -> Unlink a ∈ calls) /\
  ((exists v, r = Ok v) ->
   exists p,
     normalizeVideoAudio = Ok p /\
     let final :=
       if streq (basename p) safe then p else join (dirname p) safe in
     final = [] \/ final = videoPath \/ Unlink final ∈ calls) /\
  (forall path,
      Unlink path ∈ calls ->
      path = videoPath \/
      (exists d, extractAudio = Ok (path, d)) \/
      normalizeVideoAudio = Ok path \/
      exists p, normalizeVideoAudio = Ok p /\ path = join (dirname p) safe).
Proof.
  intros safe. unfold processVideo.
  destruct (processing _ _ _ _ _ _ _ _ _ _ _ _ _ _ _ _ _ _ _ _ _ _)
    as [r0 st] eqn:E.
  intros [= -> <-] Haudio Hnormalized.
  destruct (processing_state _ _ _ E) as (F1 & F2 & F3 & F4).
  fold safe in F2, F4.
  assert (Hsuccess : forall b,
             match r with Ok _ => true | Throw _ => false end = b ->
             (b = true <-> exists v, r = Ok v)).
  { intros b <-. destruct r; split; eauto; try discriminate.
    intros [v Hv]. discriminate Hv. }
  specialize (Hsuccess _ eq_refl).
  repeat split.
  - rewrite elem_of_app, cleanup_unlinks. intros [Hin|[Hin|[Hin|Hin]]].
    + apply F3 in Hin. now apply Hnormalized in Hin.
    + destruct Hin as [Heq Hne]. destruct extractAudio as [[a d]|e].
      * subst a. symmetry in Heq. now destruct (Haudio _ d eq_refl).
      * congruence.
    + destruct Hin as (Heq & _ & Hne). congruence.
    + apply Hsuccess, Hin.
  - intros Hok. rewrite elem_of_app, cleanup_unlinks.
    right. right. right. split; [reflexivity|]. now apply Hsuccess.
  - intros a d Ha Hne. rewrite Ha in F1.
    rewrite elem_of_app, cleanup_unlinks. right. left. now rewrite F1.
  - intros Hok. destruct (F4 Hok) as (p & Hp & Hfinal).
    exists p. split; [exact Hp|]. cbv zeta. rewrite <- Hfinal.
    destruct (decide (normalizedVideoPath st = [])) as [He|He]; [auto|].
    destruct (decide (normalizedVideoPath st = videoPath)) as [Hv|Hv]; [auto|].
    right. right. rewrite elem_of_app, cleanup_unlinks. right. right. left.
    auto.
  - intros path. rewrite elem_of_app, cleanup_unlinks.
    intros [Hin|[[-> Hne]|[(-> & Hne & _)|[-> _]]]].
    + apply F3 in Hin. auto.
    + destruct extractAudio as [[a d]|e]; [|congruence].
      subst a. eauto.
    + destruct F2 as [F2|(p & Hp & [F2|F2])]; [congruence| |].
      * rewrite F2. auto.
      * rewrite F2. eauto 10.
    + auto.
Qed.

End PipelineFacts.

Lemma processed_record_aligned_witness :
  exists validated calls,
    Samples.run (Ok (Samples.num 1)) = (Ok validated, calls) /\
    exists text phrases translated out,
      getProp (getProp validated "transcription") "phrases"
      = JObj [(str "fullText", JStr text); (str "text", JStr text);
              (str "chunks", JArr phrases)] /\
      getProp validated "translation"
      = JObj [(str "fullText", JStr translated); (str "text", JStr translated);
              (str "chunks", JArr out)] /\
      length out = length phrases /\
      map (fun c => getProp c "timestamp") out
      = map (fun c => getProp c "timestamp") phrases /\
      Forall validChunk phrases /\ Forall validChunk out.
Proof.
  destruct (Samples.run (Ok (Samples.num 1))) as [[validated|e] calls] eqn:E;
    [|vm_compute in E; discriminate E].
  exists validated, calls. split; [reflexivity|].
  unfold Samples.run in E. eapply processed_record_aligned, E.
Defined.

Lemma cleanup_contract_witness :
  exists e calls,
    Samples.run (Throw (Error "connection lost")) = (Throw e, calls) /\
    Unlink (str "temp/clip.wav") ∈ calls /\
    ~ Unlink Samples.clip ∈ calls.
Proof.
  destruct (Samples.run (Throw (Error "connection lost")))
    as [[validated|e] calls] eqn:E; [vm_compute in E; discriminate E|].
  exists e, calls. split; [reflexivity|].
  unfold Samples.run in E.
  eapply cleanup_contract in E as (Hinput & Haudio & _ & _).
  - split.
    + eapply Haudio; [reflexivity|discriminate].
    + intros Hin. apply Hinput in Hin as [v Hv]. discriminate Hv.
  - intros a d [= <- _]. discriminate.
  - intros p [= <-]. discriminate.
Defined.

(** * The text of a chunk *)

Import Whisper.

Lemma isClosing_not_space (c : N) : isClosing c = true -> isWhiteSpace c = false.
Proof.
  unfold isClosing. cbn [existsb]. rewrite !orb_true_iff, !N.eqb_eq.
  intros Hc. repeat (destruct Hc as [->|Hc]; [reflexivity|]). discriminate.
Qed.

Lemma isOpenParen_not_space (c : N) :
  isOpenParen c = true -> isWhiteSpace c = false.
Proof. unfold isOpenParen. now intros ->%N.eqb_eq. Qed.

Lemma dropSpaceBeforeClosing_head (s : jsstring) :
  startsWith isClosing (dropSpaceBeforeClosing s) = true ->
  closingAhead s = true.
Proof.
  induction s as [|c s IH]; [discriminate|]. cbn [dropSpaceBeforeClosing].
  destruct (isWhiteSpace c) eqn:Hw; cbn [andb closingAhead]; rewrite ?Hw.
  - destruct (closingAhead s) eqn:Ha; [reflexivity|].
    cbn [startsWith]. intros Hc. apply isClosing_not_space in Hc. congruence.
  - now cbn [startsWith].
Qed.

Lemma dropSpaceBeforeClosing_tidy (s : jsstring) :
  spaceBeforeClosing (dropSpaceBeforeClosing s) = false.
Proof.
  induction s as [|c s IH]; [reflexivity|]. cbn [dropSpaceBeforeClosing].
  destruct (isWhiteSpace c && closingAhead s) eqn:Hd; [exact IH|].
  cbn [spaceBeforeClosing]. rewrite IH, orb_false_r.
  destruct (isWhiteSpace c); [|reflexivity]. cbn [andb] in *.
  destruct (startsWith isClosing (dropSpaceBeforeClosing s)) eqn:Hs;
    [|reflexivity].
  apply dropSpaceBeforeClosing_head in Hs. congruence.
Qed.

Lemma dropSpaceAfterParen_head (class : N -> bool) (s : jsstring) :
  startsWith class (dropSpaceAfterParen false s) = startsWith class s.
Proof. destruct s; reflexivity. Qed.

Lemma dropSpaceAfterParen_keeps (s : jsstring) :
  forall after,
    spaceBeforeClosing s = false ->
    spaceBeforeClosing (dropSpaceAfterParen after s) = false.
Proof.
  induction s as [|c s IH]; intros after; [reflexivity|].
  cbn [spaceBeforeClosing dropSpaceAfterParen].
  intros [Hc Hs]%orb_false_iff.
  destruct (after && isWhiteSpace c); [now apply IH|].
  cbn [spaceBeforeClosing]. rewrite (IH _ Hs), orb_false_r.
  destruct (isWhiteSpace c) eqn:Hw; [|reflexivity].
  destruct (isOpenParen c) eqn:Ho.
  - apply isOpenParen_not_space in Ho. congruence.
  - now rewrite dropSpaceAfterParen_head.
Qed.

Lemma dropSpaceAfterParen_skips (s : jsstring) :
  startsWith isWhiteSpace (dropSpaceAfterParen true s) = false.
Proof.
  induction s as [|c s IH]; [reflexivity|]. cbn [dropSpaceAfterParen andb].
  destruct (isWhiteSpace c) eqn:Hw; [exact IH|]. exact Hw.
Qed.

Lemma dropSpaceAfterParen_tidy (s : jsstring) :
  forall after, spaceAfterParen (dropSpaceAfterParen after s) = false.
Proof.
  induction s as [|c s IH]; intros after; [reflexivity|].
  cbn [dropSpaceAfterParen].
  destruct (after && isWhiteSpace c); [apply IH|].
  cbn [spaceAfterParen]. rewrite IH, orb_false_r.
  destruct (isOpenParen c); [|reflexivity].
  apply dropSpaceAfterParen_skips.
Qed.

(** Both properties pass to the parts of a text. *)
Lemma spaceBeforeClosing_app (a b : jsstring) :
  spaceBeforeClosing (a ++ b) = false ->
  spaceBeforeClosing a = false /\ spaceBeforeClosing b = false.
Proof.
  induction a as [|c a IH]; [now split|].
  cbn [app spaceBeforeClosing]. intros [Hc Hs]%orb_false_iff.
  destruct (IH Hs) as [Ha Hb]. split; [|exact Hb].
  rewrite Ha, orb_false_r. destruct a; [apply andb_false_r|exact Hc].
Qed.

Lemma spaceAfterParen_app (a b : jsstring) :
  spaceAfterParen (a ++ b) = false ->
  spaceAfterParen a = false /\ spaceAfterParen b = false.
Proof.
  induction a as [|c a IH]; [now split|].
  cbn [app spaceAfterParen]. intros [Hc Hs]%orb_false_iff.
  destruct (IH Hs) as [Ha Hb]. split; [|exact Hb].
  rewrite Ha, orb_false_r. destruct a; [apply andb_false_r|exact Hc].
Qed.

Lemma trimStart_suffix (s : jsstring) : exists pre, s = pre ++ trimStart s.
Proof.
  induction s as [|c s [pre IH]]; [now exists []|]. cbn [trimStart].
  destruct (isWhiteSpace c); [|now exists []].
  exists (c :: pre). cbn [app]. now rewrite <- IH.
Qed.

Lemma trim_infix (s : jsstring) : exists pre post, s = pre ++ trim s ++ post.
Proof.
  unfold trim, trimEnd.
  destruct (trimStart_suffix s) as [pre Hpre].
  destruct (trimStart_suffix (rev (trimStart s))) as [post Hpost].
  exists pre, (rev post).
  rewrite <- rev_app_distr, <- Hpost, rev_involutive. exact Hpre.
Qed.

(** X28. The text composeChunkText gives a chunk is tidy, whatever the
    words are: no white space stands right before a closing mark, none
    right after an opening parenthesis, and none at either end. *)
Theorem composed_text_is_tidy (words : list wordEntry) :
  spaceBeforeClosing (composeChunkText words) = false /\
  spaceAfterParen (composeChunkText words) = false /\
  trim (composeChunkText words) = composeChunkText words.
Proof.
  unfold composeChunkText.
  set (raw := fold_left composeStep words []).
  set (cleaned := dropSpaceAfterParen false (dropSpaceBeforeClosing raw)).
  destruct (trim_infix cleaned) as (pre & post & Hparts).
  assert (H1 : spaceBeforeClosing cleaned = false)
    by apply dropSpaceAfterParen_keeps, dropSpaceBeforeClosing_tidy.
  assert (H2 : spaceAfterParen cleaned = false)
    by apply dropSpaceAfterParen_tidy.
  rewrite Hparts in H1, H2.
  apply spaceBeforeClosing_app in H1 as [_ H1].
  apply spaceBeforeClosing_app in H1 as [H1 _].
  apply spaceAfterParen_app in H2 as [_ H2].
  apply spaceAfterParen_app in H2 as [H2 _].
  split; [exact H1|]. split; [exact H2|]. apply trim_idem.
Qed.

(** * The claims on the translator and on the cleanup *)

(** C9 (amended). Without an override of the batch size (the variable is
    unset or empty) the coordinator cuts the chunks into batches of 40:
    the batches concatenate to the chunks, batch i is the slice of at most
    40 chunks that starts at 40 * i, it is sent with the offset 40 * i, the
    number of translations pushed before it, and its payload carries the
    indices from that offset on, one per chunk. *)
Theorem default_batches (H : host) (env : Config.environment)
    (llm : nat -> response) (chunks : list jsval) :
  Config.envOrEmpty (Config.GOOGLE_TRANSLATION_CHUNK_SIZE env) = [] ->
  let chunked := chunkArray chunks (DEFAULT_CHUNK_SIZE env) in
  DEFAULT_CHUNK_SIZE env = 40%Z /\
  concat chunked = chunks /\
  forall i batch,
    chunked !! i = Some batch ->
    batch = take 40 (drop (i * 40) chunks) /\
    length batch <= 40 /\
    indicesOf (payloadOf (i * 40) batch)
    = map ofNat (seq (i * 40) (length batch)) /\
    forall done n n1,
      translateBatches H env llm (take i chunked) [] n = (Ok done, n1) ->
      length done = i * 40 /\
      translateBatches H env llm chunked [] n
      = andThen (translateChunkWithGemini H llm batch (i * 40)
                   (MAX_ATTEMPTS env))
          (fun translatedTexts =>
             andThen (lift (pushTranslations batch 0 translatedTexts))
               (fun pushed =>
                  translateBatches H env llm (drop (S i) chunked)
                    (done ++ pushed)))
          n1.
Proof.
  intros Hunset chunked.
  assert (Hsize : DEFAULT_CHUNK_SIZE env = Z.of_nat 40).
  { unfold DEFAULT_CHUNK_SIZE, Config.translationChunkSize.
    rewrite Hunset. reflexivity. }
  subst chunked. rewrite Hsize.
  split; [reflexivity|]. split; [apply chunkArray_concat; lia|].
  intros i batch Hi.
  destruct (chunkArray_lookup chunks 40 i batch) as [Hbatch Hlen];
    [lia|exact Hi|].
  split; [exact Hbatch|]. split; [exact Hlen|].
  split; [apply indicesOf_payloadOf|].
  intros done n n1 Hdone.
  assert (Hoffset : length done = i * 40).
  { destruct (translateBatches_spec H env llm _ _ _ _ _ Hdone)
      as (pushed & -> & Hpushed & _).
    rewrite app_nil_l, Hpushed.
    apply chunkArray_before; [lia|]. eapply lookup_lt_Some, Hi. }
  split; [exact Hoffset|].
  rewrite <- (take_drop_middle _ i batch Hi) at 1.
  rewrite translateBatches_app, Hdone. cbn [translateBatches].
  now rewrite Hoffset.
Qed.

Lemma default_batches_witness :
  concat (chunkArray Samples.fortyOneChunks (DEFAULT_CHUNK_SIZE Samples.unset))
  = Samples.fortyOneChunks /\
  indicesOf (payloadOf 40 (drop 40 Samples.fortyOneChunks)) = [ofNat 40].
Proof.
  destruct (default_batches Samples.asciiHost Samples.unset
              Samples.refusingModel Samples.fortyOneChunks eq_refl)
    as (_ & Hconcat & Hbatch).
  split; [exact Hconcat|].
  destruct (Hbatch 1 (drop 40 Samples.fortyOneChunks) eq_refl)
    as (_ & _ & Hindices & _).
  exact Hindices.
Defined.

(** C9 as stated fails: with no variable set, forty-one chunks are cut into
    a batch of 40 and a batch of 1, where batches of 60 would be a single
    batch of 41. *)
Lemma default_batches_counterexample :
  DEFAULT_CHUNK_SIZE Samples.unset = 40%Z /\
  map length (chunkArray Samples.fortyOneChunks
                (DEFAULT_CHUNK_SIZE Samples.unset)) = [40; 1] /\
  map length (chunkArray Samples.fortyOneChunks specDefaultChunkSize) = [41] /\
  ~ specDefaultBatches Samples.unset Samples.fortyOneChunks.
Proof.
  split; [reflexivity|]. split; [reflexivity|]. split; [reflexivity|].
  intros Hspec. apply (f_equal (map length)) in Hspec.
  vm_compute in Hspec. discriminate Hspec.
Qed.




(** C7. With loudness normalization and compression switched off the
    normalizer returns the path of the input video; processVideo renames
    that file to the safe name and, when a later stage fails, unlinks it
    under the new name: the input video is gone although the run failed. *)
Theorem source_lost_on_failure (e : error) :
  Normalizer.normalizeVideoAudio Samples.passThrough
    (str "temp/My Clip-normalized.MP4") (Ok tt) Samples.clip
  = Ok Samples.clip /\
  Samples.runUnnormalized (Throw e)
  = (Throw e,
     [Rename Samples.clip (str "input/abcdefghijklmnop.mp4");
      Unlink (str "temp/clip.wav");
      Unlink (str "input/abcdefghijklmnop.mp4")]).
Proof.
  split; [reflexivity|]. vm_compute. reflexivity.
Qed.
